(** * doc.js: the comment-block parser and the entity assembler

    A shallow embedding of [src/doc.js] (the core of [DOCJS.Generate]):
    regular-expression matching as the host language defines it, the
    [DOCJS.Block] line tracking, the tag command parsers, [parseBlocks],
    [loadBlocks], the entity constructors with their id counters,
    [DOCJS.Documentation] and [makeEntities].

    Conventions.
    - A JavaScript string is a [string]; its characters are code units
      below 256.
    - A value that is a string or [undefined] is an [option string]
      ([None] is [undefined]); a number or [undefined] is an [option Z].
    - An object used as a dictionary ([name2class], [entityCounter]) is a
      [gmap] over the names it was given. What [name2class] answers to a
      name it was not given, through its prototype, is
      [Documentation.inherited]; [entityCounter] is only asked for the
      name "undefined", which no prototype has.
    - An array or object handed to a function that changes it (a block
      whose lines get marked, the [errors] array) is passed in and the
      changed value is passed back.
    - Objects that are mutated after they were shared (class entities) live
      in a store and are referred to by address. *)

From Stdlib Require Import Ascii String ZArith Lia Permutation.
From stdpp Require Import base option list gmap strings pretty sorting.

Open Scope string_scope.
Open Scope nat_scope.
Open Scope list_scope.

(** ** Strings of the host language *)

Module JS.

(** A string or [undefined]. *)
Abbreviation jsstr := (option string).

Definition chars (s : string) : list ascii := list_ascii_of_string s.
Definition str (l : list ascii) : string := string_of_list_ascii l.

(** [ToString] of a string-or-undefined value, as in ["x" + v] and in
    property keys [obj[v]]. *)
Definition ToString (v : jsstr) : string :=
  match v with Some s => s | None => "undefined" end.

(** Truthiness of a string-or-undefined value. *)
Definition truthy (v : jsstr) : bool :=
  match v with Some "" => false | Some _ => true | None => false end.

(** [a == b] on string-or-undefined values. *)
Definition loose_eq (a b : jsstr) : bool :=
  match a, b with
  | Some x, Some y => String.eqb x y
  | None, None => true
  | _, _ => false
  end.

Definition nl : ascii := "010"%char.
Definition cr : ascii := "013"%char.
Definition tab : ascii := "009"%char.

Definition is_prefix := fix go (p l : list ascii) : bool :=
  match p, l with
  | [], _ => true
  | a :: p', b :: l' => if Ascii.eqb a b then go p' l' else false
  | _ :: _, [] => false
  end.

(** [l.indexOf(p)]: [None] stands for -1. *)
Fixpoint indexOf_from (i : nat) (p l : list ascii) : option nat :=
  if is_prefix p l then Some i
  else match l with
       | [] => None
       | _ :: l' => indexOf_from (S i) p l'
       end.

Definition indexOf (s p : string) : option nat :=
  indexOf_from 0 (chars p) (chars s).

(** [s.split("\n")] *)
Fixpoint split_nl_go (cur : list ascii) (l : list ascii) : list (list ascii) :=
  match l with
  | [] => [rev cur]
  | c :: l' => if Ascii.eqb c nl then rev cur :: split_nl_go [] l'
               else split_nl_go (c :: cur) l'
  end.

Definition split_nl (s : string) : list string :=
  map str (split_nl_go [] (chars s)).

(** [a.join("\n")] for an array of strings. *)
Fixpoint join_nl (a : list string) : string :=
  match a with
  | [] => ""
  | [x] => x
  | x :: a' => x +:+ String nl (join_nl a')
  end.

(** [(s.match(/\n/g)||[]).length] *)
Definition count_nl (s : string) : nat :=
  length (filter (λ c, c = nl) (chars s)).

(** [s.substr(0,n)] and [s.substring(0,n)] for [0 <= n]. *)
Definition prefix (n : nat) (s : string) : string := str (take n (chars s)).

(** [s.substring(a,b)] for [0 <= a <= b]. *)
Definition substring (a b : nat) (s : string) : string :=
  str (take (b - a) (drop a (chars s))).

(** The decimal text of a number, as string concatenation gives it. *)
Definition num (n : nat) : string := pretty n.

(** The one-character string of a line feed. *)
Definition nls : string := String nl EmptyString.

(** [x > y] on strings: comparison by code units. *)
Fixpoint str_ltb (x y : string) : bool :=
  match x, y with
  | EmptyString, EmptyString => false
  | EmptyString, String _ _ => true
  | String _ _, EmptyString => false
  | String a x', String b y' =>
      if (nat_of_ascii a <? nat_of_ascii b)%nat then true
      else if (nat_of_ascii b <? nat_of_ascii a)%nat then false
      else str_ltb x' y'
  end.

(** [a > b] where either side may be [undefined]: a comparison with
    [undefined] goes through [NaN] and is false. *)
Definition gt (a b : jsstr) : bool :=
  match a, b with
  | Some x, Some y => str_ltb y x
  | _, _ => false
  end.
Definition lt (a b : jsstr) : bool := gt b a.

End JS.

(** ** Regular expressions

    The matcher follows the language definition: a pattern is compiled to
    a function from a state and a continuation to a result, alternatives
    and greedy quantifiers are tried in order, and the first success is
    the answer. *)

Module RegExp.
Import JS.

Inductive cls_item :=
| CChar (c : ascii)      (* a literal character in a class *)
| CSpace                 (* \s *)
| CNotSpace.             (* \S *)

Inductive regex :=
| Eps                                              (* the empty pattern *)
| Chr (c : ascii)                                  (* a literal character *)
| Dot                                              (* .  *)
| Set_ (negated : bool) (items : list cls_item)    (* [...] and [^...], \s as [\s] *)
| Bol                                              (* ^  *)
| Eol                                              (* $  *)
| Seq (r1 r2 : regex)
| Alt (r1 r2 : regex)                              (* r1|r2 *)
| Grp (i : nat) (r : regex)                        (* the i-th parenthesis, from 1 *)
| Rep (min : nat) (max : option nat) (r : regex)   (* greedy {min,max}; * + ? *)
| NegLook (r : regex).                             (* (?!r) *)

(** \s: tab, line feed, vertical tab, form feed, carriage return, space,
    no-break space. *)
Definition is_space (c : ascii) : bool :=
  let n := nat_of_ascii c in
  ((9 <=? n) && (n <=? 13)) || (n =? 32) || (n =? 160).

Definition is_line_terminator (c : ascii) : bool :=
  Ascii.eqb c nl || Ascii.eqb c cr.

Definition item_has (c : ascii) (it : cls_item) : bool :=
  match it with
  | CChar d => Ascii.eqb c d
  | CSpace => is_space c
  | CNotSpace => negb (is_space c)
  end.

Definition set_has (negated : bool) (items : list cls_item) (c : ascii) : bool :=
  xorb negated (existsb (item_has c) items).

(** The matcher state: the input before the current position (reversed),
    the input from the current position on, and what the parentheses
    captured so far ([None]: undefined). *)
Record mstate := MState {
  before : list ascii;
  after : list ascii;
  caps : list (option (list ascii))
}.

Definition cont := mstate → option mstate.

Definition step1 (p : ascii → bool) (x : mstate) (c : cont) : option mstate :=
  match after x with
  | a :: rest =>
      if p a then c (MState (a :: before x) rest (caps x)) else None
  | [] => None
  end.

(** What was consumed between the state [x] and the later state [y]. *)
Definition consumed (x y : mstate) : list ascii :=
  take (length (after x) - length (after y)) (after x).

Definition set_cap (i : nat) (v : option (list ascii)) (y : mstate) : mstate :=
  MState (before y) (after y) (<[pred i := v]> (caps y)).

Definition clear_caps (gs : list nat) (x : mstate) : mstate :=
  fold_right (λ i y, set_cap i None y) x gs.

(** The parentheses inside a pattern. *)
Fixpoint groups (r : regex) : list nat :=
  match r with
  | Seq r1 r2 | Alt r1 r2 => groups r1 ++ groups r2
  | Grp i r => i :: groups r
  | Rep _ _ r | NegLook r => groups r
  | _ => []
  end.

(** RepeatMatcher. An iteration that consumes nothing once the minimum
    is reached is refused. The number of iterations is at most [min]
    plus the length of the remaining input, which bounds [fuel]. *)
Fixpoint repeat_matcher (fuel : nat) (m : mstate → cont → option mstate)
         (gs : list nat) (min : nat) (max : option nat)
         (x : mstate) (c : cont) : option mstate :=
  match fuel with
  | O => None
  | S fuel' =>
      match max with
      | Some O => c x
      | _ =>
          let d : cont := λ y,
            if (min =? 0) && (length (after y) =? length (after x)) then None
            else repeat_matcher fuel' m gs (pred min) (pred <$> max) y c in
          let xr := clear_caps gs x in
          if min =? 0 then
            match m xr d with
            | Some z => Some z
            | None => c x
            end
          else m xr d
      end
  end.

Section Matcher.
Variable multiline : bool.

Definition at_bol (x : mstate) : bool :=
  match before x with
  | [] => true
  | a :: _ => multiline && is_line_terminator a
  end.

Definition at_eol (x : mstate) : bool :=
  match after x with
  | [] => true
  | a :: _ => multiline && is_line_terminator a
  end.

Fixpoint matcher (r : regex) (x : mstate) (c : cont) {struct r} : option mstate :=
  match r with
  | Eps => c x
  | Chr ch => step1 (Ascii.eqb ch) x c
  | Dot => step1 (λ a, negb (is_line_terminator a)) x c
  | Set_ negated items => step1 (set_has negated items) x c
  | Bol => if at_bol x then c x else None
  | Eol => if at_eol x then c x else None
  | Seq r1 r2 => matcher r1 x (λ y, matcher r2 y c)
  | Alt r1 r2 =>
      match matcher r1 x c with
      | Some z => Some z
      | None => matcher r2 x c
      end
  | Grp i r1 => matcher r1 x (λ y, c (set_cap i (Some (consumed x y)) y))
  | Rep min max r1 =>
      repeat_matcher (S (min + length (after x))) (matcher r1) (groups r1)
                     min max x c
  | NegLook r1 =>
      match matcher r1 x Some with
      | Some _ => None
      | None => c x
      end
  end.

(** The leftmost position at which the pattern matches: the state at
    the start of the match and the final state. *)
Fixpoint search (r : regex) (ncap : nat) (bef aft : list ascii)
  : option (mstate * mstate) :=
  let x := MState bef aft (replicate ncap None) in
  match matcher r x Some with
  | Some y => Some (x, y)
  | None =>
      match aft with
      | [] => None
      | a :: aft' => search r ncap (a :: bef) aft'
      end
  end.
End Matcher.

(** A regular expression literal: the pattern and its [m] flag. *)
Record t := RE { pattern : regex; flag_m : bool }.

Definition ncaps (re : t) : nat := list_max (groups (pattern re)).

(** The array a successful match returns: the matched text, then one
    entry per parenthesis. *)
Definition result_array (x y : mstate) : list jsstr :=
  Some (str (consumed x y)) :: map (λ o, str <$> o) (caps y).

(** [s.match(re)] for a pattern without the [g] flag; [None] is null. *)
Definition match_ (re : t) (s : string) : option (list jsstr) :=
  match search (flag_m re) (pattern re) (ncaps re) [] (chars s) with
  | Some (x, y) => Some (result_array x y)
  | None => None
  end.

(** [re.test(s)], also the truth value of [s.match(re)]. *)
Definition test (re : t) (s : string) : bool :=
  match match_ re s with Some _ => true | None => false end.

(** [s.match(re)] for a pattern with the [g] flag: every match, from
    left to right; after an empty match the search moves one character
    on. The empty list stands for null. *)
Fixpoint match_all_go (fuel : nat) (re : t) (bef aft : list ascii) : list string :=
  match fuel with
  | O => []
  | S fuel' =>
      match search (flag_m re) (pattern re) (ncaps re) bef aft with
      | None => []
      | Some (x, y) =>
          let m := consumed x y in
          match m, after y with
          | [], [] => [str m]
          | [], a :: aft' => str m :: match_all_go fuel' re (a :: before y) aft'
          | _ :: _, _ => str m :: match_all_go fuel' re (before y) (after y)
          end
      end
  end.

Definition match_all (re : t) (s : string) : list string :=
  match_all_go (S (String.length s)) re [] (chars s).

(** [s.replace(re, "")] for a pattern without the [g] flag: the first
    match is removed. *)
Definition remove_first (re : t) (s : string) : string :=
  match search (flag_m re) (pattern re) (ncaps re) [] (chars s) with
  | Some (x, y) => str (rev (before x) ++ after y)
  | None => s
  end.

(** Pattern syntax. *)
Fixpoint lit (s : string) : regex :=
  match s with
  | EmptyString => Eps
  | String c EmptyString => Chr c
  | String c s' => Seq (Chr c) (lit s')
  end.

Fixpoint seq (rs : list regex) : regex :=
  match rs with
  | [] => Eps
  | [r] => r
  | r :: rs' => Seq r (seq rs')
  end.

Definition star := Rep 0 None.
Definition plus := Rep 1 None.
Definition opt := Rep 0 (Some 1).
Definition space := Set_ false [CSpace].         (* \s *)
Definition nonspace := Set_ true [CSpace].       (* [^\s] *)

End RegExp.

(** ** Global counters, error reports, and the parse-time monad *)

(** The counters [DOCJS.Generate] declares: [blockIdCounter],
    [errorReportIdCounter], [globalEntityCounter], and the dictionary
    [entityCounter] from an entity name to the last id given out. *)
Record Globals := MkGlobals {
  blockIdCounter : nat;
  errorReportIdCounter : nat;
  globalEntityCounter : nat;
  entityCounter : gmap string nat
}.

Definition initial_globals : Globals := MkGlobals 0 0 0 ∅.

Module ErrorReport.
(** [lineNumber] is whatever the caller passed: a number, or
    [undefined] ([None]). *)
Record t := Mk {
  lineNumber : option nat;
  file : string;
  message : string;
  id : nat
}.

(** [new DOCJS.ErrorReport(filename,lineNumber,message)] *)
Definition new (filename : string) (lineNumber : option nat) (message : string)
           (g : Globals) : t * Globals :=
  let n := S (errorReportIdCounter g) in
  (Mk lineNumber filename message n,
   MkGlobals (blockIdCounter g) n (globalEntityCounter g) (entityCounter g)).
End ErrorReport.

(** Parse-time code runs over the counters and the [errors] array it was
    handed, and may throw; what it did before it threw stays done. *)
Record PState := MkPState {
  globals : Globals;
  errors : list ErrorReport.t
}.

Inductive outcome (A : Type) :=
| Ok (a : A)
| Throw (e : string).
Arguments Ok {A} a.
Arguments Throw {A} e.

Definition P (A : Type) : Type := PState → outcome A * PState.

Definition ret {A} (a : A) : P A := λ st, (Ok a, st).
Definition throw {A} (e : string) : P A := λ st, (Throw e, st).
Definition bind {A B} (m : P A) (f : A → P B) : P B :=
  λ st, match m st with
        | (Ok a, st') => f a st'
        | (Throw e, st') => (Throw e, st')
        end.

Notation "'let*' x ':=' m 'in' k" := (bind m (λ x, k))
  (at level 10, x pattern, m at level 100, k at level 200, only parsing).

(** [errors.push(new DOCJS.ErrorReport(filename,lineNumber,message))] *)
Definition push_error (filename : string) (lineNumber : option nat)
           (message : string) : P unit :=
  λ st, let '(e, g) := ErrorReport.new filename lineNumber message (globals st) in
        (Ok (), MkPState g (errors st ++ [e])).

(** A [for] loop over an array or over the keys of an object, threading
    the loop-carried variables [acc]. *)
Fixpoint for_each {A S} (l : list A) (acc : S) (body : A → S → P S) : P S :=
  match l with
  | [] => ret acc
  | a :: l' => let* acc' := body a acc in for_each l' acc' body
  end.

(** ** Commands

    Each command keeps the id of the block it came from ([getBlock]); a
    field read from a match result is a string or [undefined]. *)

Module AuthorCommand.
Record t := Mk { block : nat; getContent : JS.jsstr }.
End AuthorCommand.

Module BriefCommand.
Record t := Mk { block : nat; getContent : JS.jsstr }.
End BriefCommand.

Module ClassCommand.
Record t := Mk { block : nat; getName : JS.jsstr }.
End ClassCommand.

Module DescriptionCommand.
Record t := Mk { block : nat; getContent : JS.jsstr }.
End DescriptionCommand.

Module EventCommand.
Record t := Mk { block : nat; getName : JS.jsstr; getDescription : JS.jsstr }.

(** The constructor: [description = description || ""]. *)
Definition new (block : nat) (name description : JS.jsstr) : t :=
  Mk block name (if JS.truthy description then description else Some "").
End EventCommand.

Module ExampleCommand.
Record t := Mk { block : nat; getContent : JS.jsstr }.
End ExampleCommand.

Module ExtendsCommand.
Record t := Mk { block : nat; getClassName : JS.jsstr }.
End ExtendsCommand.

Module FileCommand.
(** Only named in a comment of the source; no parser produces one. *)
Record t := Mk { block : nat; getName : JS.jsstr }.
End FileCommand.

Module FunctionCommand.
Record t := Mk { block : nat; getName : JS.jsstr; getDescription : JS.jsstr }.

(** The constructor throws unless [name] is a string. *)
Definition new (block : nat) (name description : JS.jsstr) : P t :=
  match name with
  | Some _ => ret (Mk block name description)
  | None => throw "Argument 2 must be string, undefined given"
  end.
End FunctionCommand.

Module MemberofCommand.
Record t := Mk { block : nat; getClassName : JS.jsstr }.
End MemberofCommand.

Module LibraryCommand.
Record t := Mk { block : nat; getName : JS.jsstr }.
End LibraryCommand.

Module MethodCommand.
Record t := Mk { block : nat; getName : JS.jsstr }.
End MethodCommand.

Module PageCommand.
Record t := Mk { block : nat; getName : JS.jsstr }.
End PageCommand.

Module ParamCommand.
Record t := Mk { block : nat; getDataType : JS.jsstr; getName : JS.jsstr;
                 description : JS.jsstr }.

(** [description ? description : false]; [None] stands for [false]. *)
Definition getDescription (c : t) : JS.jsstr :=
  if JS.truthy (description c) then description c else None.
End ParamCommand.

Module PropertyCommand.
Record t := Mk { block : nat; getDataType : JS.jsstr; getName : JS.jsstr }.

(** The constructor takes a fourth argument [desc] and drops it. *)
Definition new (block : nat) (datatype name desc : JS.jsstr) : t :=
  Mk block datatype name.
End PropertyCommand.

Module ReturnCommand.
Record t := Mk { block : nat; getDataType : JS.jsstr; getDescription : JS.jsstr }.

(** [function(block,dataType,description)]; a fourth argument, when
    the caller passes one, is ignored. *)
Definition new (block : nat) (dataType description : JS.jsstr)
           (extra : JS.jsstr) : t :=
  Mk block dataType description.
End ReturnCommand.

Module SeeCommand.
Record t := Mk { block : nat; getText : JS.jsstr }.
End SeeCommand.

Module TodoCommand.
Record t := Mk { block : nat; getContent : JS.jsstr }.
End TodoCommand.

Module VersionCommand.
Record t := Mk { block : nat; getContent : JS.jsstr }.
End VersionCommand.

(** ** Blocks *)

Module Block.
Record t := Mk {
  id : nat;
  rawDiff : nat;
  parsedLines : list nat;
  filename : string;
  src : string;
  rawSrc : string;
  lineNumber : nat;
  author : list AuthorCommand.t;
  brief : list BriefCommand.t;
  classs : list ClassCommand.t;
  desc : list DescriptionCommand.t;
  event : list EventCommand.t;
  example : list ExampleCommand.t;
  extends : list ExtendsCommand.t;
  file : list FileCommand.t;
  func : list FunctionCommand.t;
  library : list LibraryCommand.t;
  memberof : list MemberofCommand.t;
  method : list MethodCommand.t;
  page : list PageCommand.t;
  param : list ParamCommand.t;
  property : list PropertyCommand.t;
  ret : list ReturnCommand.t;
  see : list SeeCommand.t;
  todo : list TodoCommand.t;
  version : list VersionCommand.t
}.

(** [new DOCJS.Block(src,rawSrc,lineNumber)]. When [src] does not occur
    in [rawSrc], [indexOf] is -1 and [substr(0,-1)] is empty. *)
Definition new (src rawSrc : string) (lineNumber : nat) (g : Globals)
  : t * Globals :=
  let n := S (blockIdCounter g) in
  let rawDiff :=
    match JS.indexOf rawSrc src with
    | Some idx => JS.count_nl (JS.prefix idx rawSrc)
    | None => 0
    end in
  (Mk n rawDiff [] "" src rawSrc lineNumber
      [] [] [] [] [] [] [] [] [] [] [] [] [] [] [] [] [] [] [],
   MkGlobals n (errorReportIdCounter g) (globalEntityCounter g) (entityCounter g)).

Definition set_parsedLines (p : list nat) (b : t) : t :=
  Mk (id b) (rawDiff b) p (filename b) (src b) (rawSrc b) (lineNumber b)
     (author b) (brief b) (classs b) (desc b) (event b) (example b)
     (extends b) (file b) (func b) (library b) (memberof b) (method b)
     (page b) (param b) (property b) (ret b) (see b) (todo b) (version b).

Definition set_memberof (m : list MemberofCommand.t) (b : t) : t :=
  Mk (id b) (rawDiff b) (parsedLines b) (filename b) (src b) (rawSrc b)
     (lineNumber b)
     (author b) (brief b) (classs b) (desc b) (event b) (example b)
     (extends b) (file b) (func b) (library b) m (method b)
     (page b) (param b) (property b) (ret b) (see b) (todo b) (version b).

Definition lines (b : t) : list string := JS.split_nl (src b).

Definition localToGlobalLineNumber (b : t) (lineNumber : nat) : nat :=
  lineNumber + Block.lineNumber b + rawDiff b + 1.

Definition lineIsParsed (b : t) (lineNumber : nat) : bool :=
  bool_decide (lineNumber ∈ parsedLines b).

Definition markLineAsParsed (lineNumber : nat) (b : t) : t :=
  if lineIsParsed b lineNumber then b
  else set_parsedLines (parsedLines b ++ [lineNumber]) b.

(** [getLine] is [undefined] past the last line. *)
Definition getLine (b : t) (lineNumber : nat) : JS.jsstr :=
  lines b !! lineNumber.

Definition getNumLines (b : t) : nat := length (lines b).

Definition markChunkAsParsed (chunk : string) (b : t) : t :=
  match JS.indexOf (src b) chunk with
  | Some idx =>
      let start := idx in
      let end_ := start + String.length chunk in
      let firstLine := JS.count_nl (JS.substring 0 start (src b)) in
      let lastLine := JS.count_nl (JS.substring start end_ (src b)) + firstLine in
      fold_left (λ b i, markLineAsParsed (i + rawDiff b) b)
                (seq firstLine (S lastLine - firstLine)) b
  | None => b
  end.

(** The loop [for(var i=0; i<n; i++) if(!that.lineIsParsed(i)) ...]
    shared by the three getters below: the lines not yet marked, with
    their local indices. *)
Fixpoint unparsed_from (b : t) (i : nat) (ls : list string) : list (nat * string) :=
  match ls with
  | [] => []
  | l :: ls' =>
      if lineIsParsed b i then unparsed_from b (S i) ls'
      else (i, l) :: unparsed_from b (S i) ls'
  end.

Definition unparsed (b : t) : list (nat * string) :=
  unparsed_from b 0 (lines b).

Definition getUnparsedLines (b : t) : list string :=
  map snd (unparsed b).

(** The object from line number to line, as the list of its entries in
    the order [for (k in ...)] visits them: that of insertion, which is
    also by increasing key. *)
Definition getUnparsedLines2 (globalLineNumbers : bool) (b : t)
  : list (nat * string) :=
  map (λ p, (if globalLineNumbers then localToGlobalLineNumber b p.1 else p.1,
             p.2))
      (unparsed b).

(** The line of the first occurrence of [s]; [None] stands for
    [false]. *)
Definition getLineNumber (b : t) (s : string) : option nat :=
  match JS.indexOf (src b) s with
  | Some idx => Some (JS.count_nl (JS.prefix idx (src b)))
  | None => None
  end.
End Block.

(** ** The tag patterns

    Each pattern is written with the constructors of [RegExp.regex]; the
    comment above it quotes the literal of the source, with a blank put
    between a star and a closing parenthesis. *)

Module Pat.
Import RegExp.

Definition re (r : list regex) : RegExp.t := RE (seq r) false.

(* /@author\s+(.* )$/ and /@author/ *)
Definition author := re [lit "@author"; plus space; Grp 1 (star Dot); Eol].
Definition author_tag := re [lit "@author"].

(* /@brief\s+(.* )$/ and /@brief/ *)
Definition brief := re [lit "@brief"; plus space; Grp 1 (star Dot); Eol].
Definition brief_tag := re [lit "@brief"].

(* /@class\s+([^\s]* )$/ and /@class/ *)
Definition class := re [lit "@class"; plus space; Grp 1 (star nonspace); Eol].
Definition class_tag := re [lit "@class"].

(* /((@description)|(@desc))\s+((.(?!@))* )/m *)
Definition description :=
  RE (seq [Grp 1 (Alt (Grp 2 (lit "@description")) (Grp 3 (lit "@desc")));
           plus space;
           Grp 4 (star (Grp 5 (Seq Dot (NegLook (lit "@")))))]) true.

(* /@event\s+([^\s]* )(\s+(.* )){0,1}$/ and /@event/ *)
Definition event :=
  re [lit "@event"; plus space; Grp 1 (star nonspace);
      Rep 0 (Some 1) (Grp 2 (Seq (plus space) (Grp 3 (star Dot)))); Eol].
Definition event_tag := re [lit "@event"].

(* /@example(([\s\S](?!(\\@endexample)))* )@endexample/ and /@example/;
   [\s\S] is any character, and \\ a literal backslash *)
Definition example :=
  re [lit "@example";
      Grp 1 (star (Grp 2 (Seq (Set_ false [CSpace; CNotSpace])
                              (NegLook (Grp 3 (lit "\@endexample"))))));
      lit "@endexample"].
Definition example_tag := re [lit "@example"].

(* /@extends\s+([^\s]* )/ and /@extends/ *)
Definition extends := re [lit "@extends"; plus space; Grp 1 (star nonspace)].
Definition extends_tag := re [lit "@extends"].

(* /((@function)|(@fn))\s+([^\s]+)(\s+(.* ))?/ and /(@function)|(@fn)/ *)
Definition function :=
  re [Grp 1 (Alt (Grp 2 (lit "@function")) (Grp 3 (lit "@fn")));
      plus space; Grp 4 (plus nonspace);
      opt (Grp 5 (Seq (plus space) (Grp 6 (star Dot))))].
Definition function_tag :=
  re [Alt (Grp 1 (lit "@function")) (Grp 2 (lit "@fn"))].

(* /(@memberOf)|(@memberof)\s+([^\s]* )$/ and /@member[oO]f/; the
   alternation separates all of what stands left of | from all of what
   stands right of it *)
Definition memberof :=
  re [Alt (Grp 1 (lit "@memberOf"))
          (seq [Grp 2 (lit "@memberof"); plus space; Grp 3 (star nonspace); Eol])].
Definition memberof_tag :=
  re [lit "@member"; Set_ false [CChar "o"; CChar "O"]; lit "f"].

(* /@library\s+(.* )$/ and /@library/ *)
Definition library := re [lit "@library"; plus space; Grp 1 (star Dot); Eol].
Definition library_tag := re [lit "@library"].

(* /@method\s+([^\s]* )$/ and /@method/ *)
Definition method := re [lit "@method"; plus space; Grp 1 (star nonspace); Eol].
Definition method_tag := re [lit "@method"].

(* /@page\s+(.* )$/ and /@page/ *)
Definition page := re [lit "@page"; plus space; Grp 1 (star Dot); Eol].
Definition page_tag := re [lit "@page"].

(* /@param\s+([^\s]* )\s+([^\s]+)(\s+(.* )){0,1}$/ and /@param/ *)
Definition param :=
  re [lit "@param"; plus space; Grp 1 (star nonspace); plus space;
      Grp 2 (plus nonspace);
      Rep 0 (Some 1) (Grp 3 (Seq (plus space) (Grp 4 (star Dot)))); Eol].
Definition param_tag := re [lit "@param"].

(* /@property\s+([^\s]* )\s+([^\s]* )\s*(.* ){0,1}$/ and /@property/ *)
Definition property :=
  re [lit "@property"; plus space; Grp 1 (star nonspace); plus space;
      Grp 2 (star nonspace); star space;
      Rep 0 (Some 1) (Grp 3 (star Dot)); Eol].
Definition property_tag := re [lit "@property"].

(* /@return[s]{0,1}\s+([^\s]* )\s*(.* ){0,1}$/ and /@return[s]{0,1}/ *)
Definition return_ :=
  re [lit "@return"; Rep 0 (Some 1) (Set_ false [CChar "s"]); plus space;
      Grp 1 (star nonspace); star space;
      Rep 0 (Some 1) (Grp 2 (star Dot)); Eol].
Definition return_tag :=
  re [lit "@return"; Rep 0 (Some 1) (Set_ false [CChar "s"])].

(* /@see\s+(.* )$/ and /@see/ *)
Definition see := re [lit "@see"; plus space; Grp 1 (star Dot); Eol].
Definition see_tag := re [lit "@see"].

(* /@todo(\s+(.* ))$/ and /@todo/ *)
Definition todo :=
  re [lit "@todo"; Grp 1 (Seq (plus space) (Grp 2 (star Dot))); Eol].
Definition todo_tag := re [lit "@todo"].

(* /@version\s+(.* )$/ and /@version/ *)
Definition version := re [lit "@version"; plus space; Grp 1 (star Dot); Eol].
Definition version_tag := re [lit "@version"].
End Pat.

(** ** The tag command parsers *)

(** [result[k]]: [undefined] past the end of the array. *)
Definition at_ (result : list JS.jsstr) (k : nat) : JS.jsstr :=
  default None (result !! k).

(** The shape shared by the line parsers:
    [[
      var commands = [], lines = block.getUnparsedLines2();
      for(var j in lines){ var line = lines[j]; ... }
      return commands;
    ]]
    The body sees the line index [j], the line, and the block as the
    parsers before it and the earlier iterations left it. *)
Definition parse_lines {C} (block : Block.t)
           (body : nat → string → list C * Block.t → P (list C * Block.t))
  : P (list C * Block.t) :=
  let lines := Block.getUnparsedLines2 false block in
  for_each lines ([], block) (λ jl acc, body jl.1 jl.2 acc).

(** The [else if(line.match(tag))] branch: the line names the tag and
    does not match its pattern. *)
Definition mismatch {C} (tag : RegExp.t) (text : string) (j : nat) (line : string)
           (acc : list C * Block.t) : P (list C * Block.t) :=
  if RegExp.test tag line then
    let* _ := push_error (Block.filename acc.2)
                         (Some (Block.localToGlobalLineNumber acc.2 j))
                         (text +:+ line) in
    ret acc
  else ret acc.

(** [result && cond(result)] *)
Definition and_then (result : option (list JS.jsstr)) (cond : list JS.jsstr → bool)
  : option (list JS.jsstr) :=
  match result with
  | Some r => if cond r then Some r else None
  | None => None
  end.

(** The double quote. *)
Definition dq : string := String (ascii_of_nat 34) EmptyString.

(** The text of a mismatch report up to the offending line: the tag as
    the message names it, and the command spec between double quotes. *)
Definition spec_text (tag spec : string) : string :=
  "Line contained " +:+ tag +:+ " but did not match the command spec "
  +:+ dq +:+ spec +:+ dq +:+ ". The input: ".

Definition AuthorCommand_parse (block : Block.t) : P (list AuthorCommand.t * Block.t) :=
  parse_lines block (λ j line '(commands, block),
    match and_then (RegExp.match_ Pat.author line) (λ r, length r =? 2) with
    | Some result =>
        let author := AuthorCommand.Mk (Block.id block) (at_ result 1) in
        ret (commands ++ [author], Block.markLineAsParsed j block)
    | None =>
        mismatch Pat.author_tag (spec_text "@author" "@author text") j line
                 (commands, block)
    end).

Definition BriefCommand_parse (block : Block.t) : P (list BriefCommand.t * Block.t) :=
  parse_lines block (λ j line '(commands, block),
    match and_then (RegExp.match_ Pat.brief line) (λ r, length r =? 2) with
    | Some result =>
        let command := BriefCommand.Mk (Block.id block) (at_ result 1) in
        ret (commands ++ [command], Block.markLineAsParsed j block)
    | None =>
        mismatch Pat.brief_tag (spec_text "@brief" "@brief text") j line
                 (commands, block)
    end).

Definition ClassCommand_parse (block : Block.t) : P (list ClassCommand.t * Block.t) :=
  parse_lines block (λ j line '(commands, block),
    match and_then (RegExp.match_ Pat.class line) (λ r, length r =? 2) with
    | Some result =>
        let command := ClassCommand.Mk (Block.id block) (at_ result 1) in
        ret (commands ++ [command], Block.markLineAsParsed j block)
    | None =>
        mismatch Pat.class_tag (spec_text "@class" "@class className") j line
                 (commands, block)
    end).

(** [markLineAsParsed(block.getLineNumber(s))]. When [getLineNumber]
    gives [false], [parseInt(false)] is [NaN]; the [NaN] pushed on
    [parsedLines] equals no line index, so the block reads as before. *)
Definition markLineOf (s : string) (block : Block.t) : Block.t :=
  match Block.getLineNumber block s with
  | Some n => Block.markLineAsParsed n block
  | None => block
  end.

Definition DescriptionCommand_parse (block : Block.t)
  : P (list DescriptionCommand.t * Block.t) :=
  let src := JS.join_nl (Block.getUnparsedLines block) in
  let result := default [] (RegExp.match_ Pat.description src) in
  if (4 <=? length result) && negb (JS.loose_eq (at_ result 4) (Some "")) then
    let content := at_ result 4 in
    let command := DescriptionCommand.Mk (Block.id block) content in
    match content with
    | Some text =>
        let contentLines := JS.split_nl text in
        ret ([command], fold_left (λ b l, markLineOf l b) contentLines block)
    | None => throw "TypeError: content is undefined"
    end
  else ret ([], block).

Definition EventCommand_parse (block : Block.t) : P (list EventCommand.t * Block.t) :=
  parse_lines block (λ j line '(commands, block),
    match RegExp.match_ Pat.event line with
    | Some result =>
        let name := at_ result 1 in
        let desc := if 3 <=? length result then at_ result 2 else None in
        let command := EventCommand.new (Block.id block) name desc in
        ret (commands ++ [command], Block.markLineAsParsed j block)
    | None =>
        mismatch Pat.event_tag
                 (spec_text "@event" "@event typeName [description]") j line
                 (commands, block)
    end).

(** In the [else if] branch the source reads the variables [j] and
    [line], which this function does not declare and no enclosing scope
    has: evaluating the arguments of the report throws. *)
Definition ExampleCommand_parse (block : Block.t)
  : P (list ExampleCommand.t * Block.t) :=
  let lines := Block.getUnparsedLines block in
  let src := JS.join_nl lines in
  match RegExp.match_ Pat.example src with
  | Some result =>
      let content := at_ result 1 in
      let command := ExampleCommand.Mk (Block.id block) content in
      ret ([command], Block.markChunkAsParsed (JS.ToString (at_ result 0)) block)
  | None =>
      if RegExp.test Pat.example_tag src then
        throw "ReferenceError: j is not defined"
      else ret ([], block)
  end.

Definition ExtendsCommand_parse (block : Block.t)
  : P (list ExtendsCommand.t * Block.t) :=
  parse_lines block (λ j line '(commands, block),
    match RegExp.match_ Pat.extends line with
    | Some result =>
        let name := at_ result 1 in
        let command := ExtendsCommand.Mk (Block.id block) name in
        ret (commands ++ [command], Block.markLineAsParsed j block)
    | None =>
        mismatch Pat.extends_tag (spec_text "@extends" "@extends className") j line
                 (commands, block)
    end).

(** [var desc; if(result.length>=6) desc = result[6];]: the array of a
    match of this pattern has seven entries, so [desc] is set in every
    round of the loop and never keeps what an earlier line gave it. *)
Definition FunctionCommand_parse (block : Block.t)
  : P (list FunctionCommand.t * Block.t) :=
  parse_lines block (λ j line '(commands, block),
    match RegExp.match_ Pat.function line with
    | Some result =>
        let name := at_ result 4 in
        let desc := if 6 <=? length result then at_ result 6 else None in
        let* command := FunctionCommand.new (Block.id block) name desc in
        ret (commands ++ [command], Block.markLineAsParsed j block)
    | None =>
        mismatch Pat.function_tag
                 (spec_text "@function or @fn"
                            "@function|fn functionName [description]") j line
                 (commands, block)
    end).

Definition MemberofCommand_parse (block : Block.t)
  : P (list MemberofCommand.t * Block.t) :=
  parse_lines block (λ j line '(commands, block),
    match and_then (RegExp.match_ Pat.memberof line) (λ r, 4 <=? length r) with
    | Some result =>
        let classname := at_ result 3 in
        let command := MemberofCommand.Mk (Block.id block) classname in
        ret (commands ++ [command], Block.markLineAsParsed j block)
    | None =>
        mismatch Pat.memberof_tag (spec_text "@memberof" "@memberof className") j line
                 (commands, block)
    end).

Definition LibraryCommand_parse (block : Block.t)
  : P (list LibraryCommand.t * Block.t) :=
  parse_lines block (λ j line '(commands, block),
    match RegExp.match_ Pat.library line with
    | Some result =>
        let libname := at_ result 1 in
        let command := LibraryCommand.Mk (Block.id block) libname in
        ret (commands ++ [command], Block.markLineAsParsed j block)
    | None =>
        mismatch Pat.library_tag (spec_text "@library" "@library libraryName") j line
                 (commands, block)
    end).

Definition MethodCommand_parse (block : Block.t)
  : P (list MethodCommand.t * Block.t) :=
  parse_lines block (λ j line '(commands, block),
    match RegExp.match_ Pat.method line with
    | Some result =>
        let methodname := at_ result 1 in
        let command := MethodCommand.Mk (Block.id block) methodname in
        ret (commands ++ [command], Block.markLineAsParsed j block)
    | None =>
        mismatch Pat.method_tag (spec_text "@method" "@method methodName") j line
                 (commands, block)
    end).

Definition PageCommand_parse (block : Block.t) : P (list PageCommand.t * Block.t) :=
  parse_lines block (λ j line '(commands, block),
    match RegExp.match_ Pat.page line with
    | Some result =>
        let pagename := at_ result 1 in
        let command := PageCommand.Mk (Block.id block) pagename in
        ret (commands ++ [command], Block.markLineAsParsed j block)
    | None =>
        mismatch Pat.page_tag (spec_text "@page" "@page text") j line
                 (commands, block)
    end).

(** [typeof(v)=="string" && v!=""] *)
Definition nonempty_string (v : JS.jsstr) : bool :=
  match v with Some s => negb (String.eqb s "") | None => false end.

(** [var desc] is a variable of the function, not of one round of the
    loop: a line without a description leaves it as the last line with
    one set it, and the command of that line gets the earlier text. The
    loop carries it with the commands and the block. *)
Definition ParamCommand_parse (block : Block.t) : P (list ParamCommand.t * Block.t) :=
  let lines := Block.getUnparsedLines2 false block in
  let* acc :=
    for_each lines (([], block), None) (λ jl '((commands, block), desc),
      match RegExp.match_ Pat.param jl.2 with
      | Some result =>
          let dataType := at_ result 1 in
          let paramName := at_ result 2 in
          let desc := if nonempty_string (at_ result 4) then at_ result 4 else desc in
          let command := ParamCommand.Mk (Block.id block) dataType paramName desc in
          ret ((commands ++ [command], Block.markLineAsParsed jl.1 block), desc)
      | None =>
          let* acc :=
            mismatch Pat.param_tag
                     (spec_text "@param" "@param dataType paramName [description]")
                     jl.1 jl.2 (commands, block) in
          ret (acc, desc)
      end) in
  ret acc.1.

(** Here and in [ReturnCommand.parse], [desc] is passed as a fourth
    argument that the constructor drops: what it holds, from this line or
    from an earlier one, has no effect. *)
Definition PropertyCommand_parse (block : Block.t)
  : P (list PropertyCommand.t * Block.t) :=
  parse_lines block (λ j line '(commands, block),
    match RegExp.match_ Pat.property line with
    | Some result =>
        let dataType := at_ result 1 in
        let name := at_ result 2 in
        let desc := if nonempty_string (at_ result 3) then at_ result 2 else None in
        let command := PropertyCommand.new (Block.id block) dataType name desc in
        ret (commands ++ [command], Block.markLineAsParsed j block)
    | None =>
        mismatch Pat.property_tag
                 (spec_text "@property"
                            "@property dataType propertyName [description]")
                 j line (commands, block)
    end).

Definition ReturnCommand_parse (block : Block.t)
  : P (list ReturnCommand.t * Block.t) :=
  parse_lines block (λ j line '(commands, block),
    match RegExp.match_ Pat.return_ line with
    | Some result =>
        let dataType := at_ result 1 in
        let name := at_ result 2 in
        let desc := if nonempty_string (at_ result 3) then at_ result 2 else None in
        let command := ReturnCommand.new (Block.id block) dataType name desc in
        ret (commands ++ [command], Block.markLineAsParsed j block)
    | None =>
        mismatch Pat.return_tag
                 (spec_text "@return" "@return dataType [description]") j line
                 (commands, block)
    end).

Definition SeeCommand_parse (block : Block.t) : P (list SeeCommand.t * Block.t) :=
  parse_lines block (λ j line '(commands, block),
    match RegExp.match_ Pat.see line with
    | Some result =>
        let text := at_ result 1 in
        let command := SeeCommand.Mk (Block.id block) text in
        ret (commands ++ [command], Block.markLineAsParsed j block)
    | None =>
        mismatch Pat.see_tag (spec_text "@see" "@see text") j line
                 (commands, block)
    end).

Definition TodoCommand_parse (block : Block.t) : P (list TodoCommand.t * Block.t) :=
  parse_lines block (λ j line '(commands, block),
    match RegExp.match_ Pat.todo line with
    | Some result =>
        let text := at_ result 1 in
        let command := TodoCommand.Mk (Block.id block) text in
        ret (commands ++ [command], Block.markLineAsParsed j block)
    | None =>
        mismatch Pat.todo_tag (spec_text "@todo" "@todo text") j line
                 (commands, block)
    end).

Definition VersionCommand_parse (block : Block.t)
  : P (list VersionCommand.t * Block.t) :=
  parse_lines block (λ j line '(commands, block),
    match RegExp.match_ Pat.version line with
    | Some result =>
        let text := at_ result 1 in
        let command := VersionCommand.Mk (Block.id block) text in
        ret (commands ++ [command], Block.markLineAsParsed j block)
    | None =>
        mismatch Pat.version_tag (spec_text "@version" "@version text") j line
                 (commands, block)
    end).

(** ** [parseBlocks] *)

Module BlockPat.
Import RegExp.

(* /\/\*\*\n(^(.(?!\*\/))*\n)+[\n\s\t]*\*\//gm *)
Definition multi : RegExp.t :=
  RE (seq [lit "/**"; Chr JS.nl;
           plus (Grp 1 (seq [Bol;
                             star (Grp 2 (Seq Dot (NegLook (lit "*/"))));
                             Chr JS.nl]));
           star (Set_ false [CChar JS.nl; CSpace; CChar JS.tab]);
           lit "*/"]) true.

(* /\/\/\/(.* )/g *)
Definition oneLine : RegExp.t :=
  RE (seq [lit "///"; Grp 1 (star Dot)]) false.

(* /\/\*\*[\n\t\r]*/ *)
Definition opening : RegExp.t :=
  RE (seq [lit "/**"; star (Set_ false [CChar JS.nl; CChar JS.tab; CChar JS.cr])])
     false.

(* /[\n\t\r]*\*\/$/ *)
Definition closing : RegExp.t :=
  RE (seq [star (Set_ false [CChar JS.nl; CChar JS.tab; CChar JS.cr]);
           lit "*/"; Eol]) false.

(* /^[\s\t]*\*\s{0,1}/ *)
Definition leading_star : RegExp.t :=
  RE (seq [Bol; star (Set_ false [CSpace; CChar JS.tab]); Chr "*";
           Rep 0 (Some 1) space]) false.

(* /[\n\s\t]*$/ *)
Definition trailing : RegExp.t :=
  RE (seq [star (Set_ false [CChar JS.nl; CSpace; CChar JS.tab]); Eol]) false.
End BlockPat.

(** [a.sort(cmp)] where [gt x y] tells whether the comparison function
    gives a positive number for [(x,y)]. The language asks for a stable
    sort and leaves the method open; this is the insertion sort: each
    element, from left to right, is put before the first element of the
    sorted part that is greater than it, so that equal elements keep
    their order. *)
Fixpoint sort_insert {A} (gt : A → A → bool) (x : A) (l : list A) : list A :=
  match l with
  | [] => [x]
  | y :: l' => if gt y x then x :: l else y :: sort_insert gt x l'
  end.

Definition js_sort {A} (gt : A → A → bool) (l : list A) : list A :=
  fold_left (λ acc x, sort_insert gt x acc) l [].

(** The body of the loop over the matched comment texts: clean the text,
    make the block, and run every command parser over it in the order of
    the source. The parsers read the text, the line numbers and the
    marked lines of the block and not its command arrays, which are
    filled in at the end. *)
Definition parseBlock (src file : string) (matched : string) : P Block.t :=
  let lineNumber :=
    match JS.indexOf src matched with
    | Some idx => JS.count_nl (JS.prefix idx src) + 1
    | None => 1
    end in
  let raw := matched in
  let cleaned :=
    RegExp.remove_first BlockPat.closing
      (RegExp.remove_first BlockPat.opening matched) in
  let lines := map (RegExp.remove_first BlockPat.leading_star) (JS.split_nl cleaned) in
  let text := RegExp.remove_first BlockPat.trailing (JS.join_nl lines) in
  let* b := (λ st, let '(b, g) := Block.new text raw lineNumber (globals st) in
                  (Ok b, MkPState g (errors st))) in
  let b := Block.Mk (Block.id b) (Block.rawDiff b) (Block.parsedLines b) file
                    (Block.src b) (Block.rawSrc b) (Block.lineNumber b)
                    [] [] [] [] [] [] [] [] [] [] [] [] [] [] [] [] [] [] [] in
  let* (author, b) := AuthorCommand_parse b in
  let* (brief, b) := BriefCommand_parse b in
  let* (classs, b) := ClassCommand_parse b in
  let* (desc, b) := DescriptionCommand_parse b in
  let* (event, b) := EventCommand_parse b in
  let* (example, b) := ExampleCommand_parse b in
  let* (extends, b) := ExtendsCommand_parse b in
  let* (func, b) := FunctionCommand_parse b in
  let* (library, b) := LibraryCommand_parse b in
  let* (memberof, b) := MemberofCommand_parse b in
  let* (method, b) := MethodCommand_parse b in
  let* (page, b) := PageCommand_parse b in
  let* (param, b) := ParamCommand_parse b in
  let* (property, b) := PropertyCommand_parse b in
  let* (ret_, b) := ReturnCommand_parse b in
  let* (see, b) := SeeCommand_parse b in
  let* (todo, b) := TodoCommand_parse b in
  let* (version, b) := VersionCommand_parse b in
  ret (Block.Mk (Block.id b) (Block.rawDiff b) (Block.parsedLines b) file
                (Block.src b) (Block.rawSrc b) (Block.lineNumber b)
                author brief classs desc event example extends [] func library
                memberof method page param property ret_ see todo version).

(** [parseBlocks(src,file,errors)]; the [errors] array is the one of the
    monad's state. *)
Definition parseBlocks (src file : string) : P (list Block.t) :=
  let blocks := RegExp.match_all BlockPat.multi src in
  let oneLineBlocks := RegExp.match_all BlockPat.oneLine src in
  let blocks := blocks ++ oneLineBlocks in
  let* blockObjects :=
    for_each blocks [] (λ matched blockObjects,
      let* block := parseBlock src file matched in
      ret (blockObjects ++ [block])) in
  ret (js_sort (λ b1 b2, Block.lineNumber b2 <? Block.lineNumber b1) blockObjects).

(** ** [loadBlocks]

    The file loader is a collaborator: it answers each [load(url,...)]
    once, at some later time, with an error or with the content. A run is
    the list of these answers in the order they arrive. *)

Module Loader.
(** What the loader passes to the callback of [load]: [(err,content)]. *)
Inductive answer :=
| Content (content : string)
| Failure (err : ErrorReport.t).

(** The variables [loadBlocks] closes over, and the calls of
    [callback(blocks,errors)] made so far. *)
Record state := Mk {
  numLoaded : nat;
  pstate : PState;              (* the counters and the [errors] array *)
  blocks : list Block.t;
  calls : list (list Block.t * list ErrorReport.t)
}.

Definition initial (g : Globals) : state := Mk 0 (MkPState g []) [] [].

Definition callback_if_done (urls : list string) (s : state) : state :=
  if numLoaded s =? length urls then
    Mk (numLoaded s) (pstate s) (blocks s)
       (calls s ++ [(blocks s, errors (pstate s))])
  else s.

(** The function handed to [options.fileLoader.load(url, ...)]. When
    [parseBlocks] throws, the exception leaves through the loader and
    the assignment to [blocks] and the call of [callback] do not
    happen. *)
Definition on_answer (urls : list string) (url : string) (a : answer)
           (s : state) : state :=
  let n := S (numLoaded s) in
  match a with
  | Content content =>
      match parseBlocks content url (pstate s) with
      | (Ok bs, st) => callback_if_done urls (Mk n st bs (calls s))
      | (Throw _, st) => Mk n st (blocks s) (calls s)
      end
  | Failure err =>
      callback_if_done urls
        (Mk n (MkPState (globals (pstate s)) (errors (pstate s) ++ [err]))
            (blocks s) (calls s))
  end.

(** [loadBlocks(urls,callback)] followed by the answers of the loader. *)
Definition loadBlocks (urls : list string) (answers : list (string * answer))
           (g : Globals) : state :=
  fold_left (λ s ua, on_answer urls ua.1 ua.2 s) answers (initial g).
End Loader.

(** ** Entities *)

Module Entity.
(** The callers pass the block wrapped in an array: [[block]]. *)
Record t := Mk { block : list nat; id : nat; globalId : nat }.

(** [DOCJS.Entity.call(this,block,entityName)]. A name that was left
    out is [undefined], and as a key of [entityCounter] it reads
    "undefined". *)
Definition new (block : list nat) (entityName : JS.jsstr) (g : Globals)
  : t * Globals :=
  let key := JS.ToString entityName in
  let counter :=
    match entityCounter g !! key with
    | None => <[key := 0]> (entityCounter g)
    | Some n => <[key := S n]> (entityCounter g)
    end in
  let gid := S (globalEntityCounter g) in
  (Mk block (default 0 (counter !! key)) gid,
   MkGlobals (blockIdCounter g) (errorReportIdCounter g) gid counter).
End Entity.

Module FileEntity.
Record t := Mk { entity : Entity.t; fileCommand : FileCommand.t }.
Definition new (block : list nat) (fileCommand : FileCommand.t) (g : Globals) :=
  let '(e, g) := Entity.new block None g in (Mk e fileCommand, g).
End FileEntity.

Module FunctionEntity.
Record t := Mk {
  entity : Entity.t;
  functionCommand : FunctionCommand.t;
  paramCommands : list ParamCommand.t;
  returnCommand : option ReturnCommand.t;
  briefCommand : option BriefCommand.t;
  descriptionCommand : option DescriptionCommand.t;
  exampleCommand : list ExampleCommand.t
}.
Definition new block functionCommand paramCommands returnCommand briefCommand
           descriptionCommand exampleCommand (g : Globals) : t * Globals :=
  let '(e, g) := Entity.new block None g in
  (Mk e functionCommand paramCommands returnCommand briefCommand
      descriptionCommand exampleCommand, g).
Definition getName (f : t) : JS.jsstr := FunctionCommand.getName (functionCommand f).
End FunctionEntity.

Module LibraryEntity.
Record t := Mk {
  entity : Entity.t;
  libraryCommand : LibraryCommand.t;
  versionCommand : option VersionCommand.t;
  briefCommand : option BriefCommand.t;
  descriptionCommand : option DescriptionCommand.t
}.
Definition new block libraryCommand versionCommand briefCommand
           descriptionCommand (g : Globals) : t * Globals :=
  let '(e, g) := Entity.new block None g in
  (Mk e libraryCommand versionCommand briefCommand descriptionCommand, g).
Definition getName (l : t) : JS.jsstr := LibraryCommand.getName (libraryCommand l).
End LibraryEntity.

Module MethodEntity.
Record t := Mk {
  entity : Entity.t;
  methodCommand : MethodCommand.t;
  memberofCommand : MemberofCommand.t;
  paramCommands : list ParamCommand.t;
  briefCommand : option BriefCommand.t;
  returnCommand : option ReturnCommand.t
}.
Definition new block methodCommand memberofCommand paramCommands briefCommand
           returnCommand (g : Globals) : t * Globals :=
  let '(e, g) := Entity.new block None g in
  (Mk e methodCommand memberofCommand paramCommands briefCommand returnCommand, g).
Definition getName (m : t) : JS.jsstr := MethodCommand.getName (methodCommand m).
Definition getClassName (m : t) : JS.jsstr :=
  MemberofCommand.getClassName (memberofCommand m).
End MethodEntity.

Module PropertyEntity.
Record t := Mk {
  entity : Entity.t;
  propertyCommand : PropertyCommand.t;
  memberofCommand : MemberofCommand.t;
  briefCommand : option BriefCommand.t;
  descriptionCommand : option DescriptionCommand.t
}.
Definition new block propertyCommand memberofCommand briefCommand
           descriptionCommand (g : Globals) : t * Globals :=
  let '(e, g) := Entity.new block None g in
  (Mk e propertyCommand memberofCommand briefCommand descriptionCommand, g).
Definition getName (p : t) : JS.jsstr := PropertyCommand.getName (propertyCommand p).
Definition getClassName (p : t) : JS.jsstr :=
  MemberofCommand.getClassName (memberofCommand p).
End PropertyEntity.

Module TodoEntity.
Record t := Mk { entity : Entity.t; todoCommand : TodoCommand.t }.
Definition new block todoCommand (g : Globals) : t * Globals :=
  let '(e, g) := Entity.new block None g in (Mk e todoCommand, g).
End TodoEntity.

Module ClassEntity.
Record t := Mk {
  entity : Entity.t;
  classCommand : ClassCommand.t;
  paramCommands : list ParamCommand.t;
  extendsCommand : option ExtendsCommand.t;
  briefCommand : option BriefCommand.t;
  descriptionCommand : option DescriptionCommand.t;
  exampleCommands : list ExampleCommand.t;
  methodEntities : list MethodEntity.t;
  propertyEntities : list PropertyEntity.t
}.

(** The constructor checks that [briefCommand] is a [BriefCommand] or
    [undefined]; an [option BriefCommand.t] always is. *)
Definition new block classCommand paramCommands extendsCommand briefCommand
           descriptionCommand exampleCommands (g : Globals) : t * Globals :=
  let '(e, g) := Entity.new block None g in
  (Mk e classCommand paramCommands extendsCommand briefCommand
      descriptionCommand exampleCommands [] [], g).

Definition getName (c : t) : JS.jsstr := ClassCommand.getName (classCommand c).

Definition addMethod (m : MethodEntity.t) (c : t) : t :=
  Mk (entity c) (classCommand c) (paramCommands c) (extendsCommand c)
     (briefCommand c) (descriptionCommand c) (exampleCommands c)
     (methodEntities c ++ [m]) (propertyEntities c).

Definition addProperty (p : PropertyEntity.t) (c : t) : t :=
  Mk (entity c) (classCommand c) (paramCommands c) (extendsCommand c)
     (briefCommand c) (descriptionCommand c) (exampleCommands c)
     (methodEntities c) (propertyEntities c ++ [p]).

(** [extendsCommand ? extendsCommand.getClassName() : false]; the
    caller only tests the result for truth, and [None] stands for
    [false] as well as for [undefined]. *)
Definition getExtendedClassName (c : t) : JS.jsstr :=
  match extendsCommand c with
  | Some e => ExtendsCommand.getClassName e
  | None => None
  end.
End ClassEntity.

Module PageEntity.
Record t := Mk { entity : Entity.t; pageCommand : PageCommand.t; getContent : string }.
Definition new block pageCommand content (g : Globals) : t * Globals :=
  let '(e, g) := Entity.new block None g in (Mk e pageCommand content, g).
Definition getName (p : t) : JS.jsstr := PageCommand.getName (pageCommand p).
End PageEntity.

(** ** [DOCJS.Documentation] *)

Module Documentation.
(** Class entities are changed ([addMethod], [addProperty]) after they
    were put into [classes] and into the name index, and all three see
    the change: the objects are kept in [store], in the order of their
    creation, and [classes], [name2class] and [name2entity] hold
    positions in it. *)
Record t := Mk {
  store : list ClassEntity.t;
  pages : list PageEntity.t;
  classes : list nat;
  files : list FileEntity.t;
  functions : list FunctionEntity.t;
  library : option LibraryEntity.t;
  todos : list TodoEntity.t;
  errors : list ErrorReport.t;
  methods : list MethodEntity.t;
  properties : list PropertyEntity.t;
  name2class : gmap string nat;
  name2entity : gmap string nat
}.

(** [new DOCJS.Documentation()]. The two indexes are [undefined] until
    [update] makes them; [makeEntities] reads them after [update] only,
    and the empty maps stand for them until then. *)
Definition new : t := Mk [] [] [] [] [] None [] [] [] [] ∅ ∅.

Definition push_page (e : PageEntity.t) (d : t) : t :=
  Mk (store d) (pages d ++ [e]) (classes d) (files d) (functions d) (library d)
     (todos d) (errors d) (methods d) (properties d) (name2class d) (name2entity d).

(** [doc.classes.push(entity)] for a class entity just made. *)
Definition push_class (e : ClassEntity.t) (d : t) : t :=
  Mk (store d ++ [e]) (pages d) (classes d ++ [length (store d)]) (files d)
     (functions d) (library d)
     (todos d) (errors d) (methods d) (properties d) (name2class d) (name2entity d).

Definition push_function (e : FunctionEntity.t) (d : t) : t :=
  Mk (store d) (pages d) (classes d) (files d) (functions d ++ [e]) (library d)
     (todos d) (errors d) (methods d) (properties d) (name2class d) (name2entity d).

Definition set_library (e : LibraryEntity.t) (d : t) : t :=
  Mk (store d) (pages d) (classes d) (files d) (functions d) (Some e)
     (todos d) (errors d) (methods d) (properties d) (name2class d) (name2entity d).

Definition push_todo (e : TodoEntity.t) (d : t) : t :=
  Mk (store d) (pages d) (classes d) (files d) (functions d) (library d)
     (todos d ++ [e]) (errors d) (methods d) (properties d) (name2class d)
     (name2entity d).

Definition push_error (e : ErrorReport.t) (d : t) : t :=
  Mk (store d) (pages d) (classes d) (files d) (functions d) (library d)
     (todos d) (errors d ++ [e]) (methods d) (properties d) (name2class d)
     (name2entity d).

Definition push_method (e : MethodEntity.t) (d : t) : t :=
  Mk (store d) (pages d) (classes d) (files d) (functions d) (library d)
     (todos d) (errors d) (methods d ++ [e]) (properties d) (name2class d)
     (name2entity d).

Definition push_property (e : PropertyEntity.t) (d : t) : t :=
  Mk (store d) (pages d) (classes d) (files d) (functions d) (library d)
     (todos d) (errors d) (methods d) (properties d ++ [e]) (name2class d)
     (name2entity d).

(** The class object at an address. *)
Definition class_at (d : t) (a : nat) : option ClassEntity.t := store d !! a.

(** A change of the class object at an address. *)
Definition alter_class (f : ClassEntity.t → ClassEntity.t) (a : nat) (d : t) : t :=
  Mk (alter f a (store d)) (pages d) (classes d) (files d) (functions d)
     (library d) (todos d) (errors d) (methods d) (properties d)
     (name2class d) (name2entity d).

(** [c.getName()] for the class at an address of [classes]. *)
Definition class_name (d : t) (a : nat) : JS.jsstr :=
  match class_at d a with
  | Some c => ClassEntity.getName c
  | None => None
  end.

(** [sortbyname(a,b)] gives 1, and the two are swapped, when
    [a.getName() > b.getName()]. *)
Definition sortbyname {A} (getName : A → JS.jsstr) (a b : A) : bool :=
  JS.gt (getName a) (getName b).

(** The first loop of [update]: [name2class[n] = c; name2entity[n] = c].
    For the name [__proto__] the assignment sets the prototype of the
    object; the entry under that key stands for it (see [inherited]). *)
Definition index_classes (d : t) : gmap string nat :=
  fold_left (λ m a, <[JS.ToString (class_name d a) := a]> m) (classes d) ∅.

Definition update (d : t) : t :=
  let index := index_classes d in
  Mk (store d)
     (js_sort (sortbyname PageEntity.getName) (pages d))
     (js_sort (sortbyname (class_name d)) (classes d))
     (files d)
     (js_sort (sortbyname FunctionEntity.getName) (functions d))
     (library d) (todos d) (errors d) (methods d) (properties d)
     index index.

(** [name2class] is a plain object, [{}]. It answers to the names it was
    given and, through its prototype, to the names of [Object.prototype],
    as the language definition and its annex for browsers list them; all
    of them are functions but [__proto__], which reads as the prototype
    itself. *)
Definition object_members : list string :=
  ["constructor"; "hasOwnProperty"; "isPrototypeOf"; "propertyIsEnumerable";
   "toLocaleString"; "toString"; "valueOf";
   "__defineGetter__"; "__defineSetter__"; "__lookupGetter__";
   "__lookupSetter__"; "__proto__"].

(** The properties a class entity has of its own, those that [Entity]
    and [ClassEntity] assign to [this]: [block] is an array, [id] and
    [globalId] are numbers, the others are functions. Its prototype has
    [constructor] and leads on to [Object.prototype]. *)
Definition class_members : list string :=
  ["block"; "getName"; "numMethods"; "addMethod"; "getMethod"; "numParams";
   "getParamDataType"; "getParamName"; "addParam"; "getExtendedClassName";
   "numProperties"; "addProperty"; "getPropertyName"; "getPropertyDataType";
   "getPropertyBrief"; "getBrief"; "numExamples"; "getExampleText"].

(** What a lookup in the index gives when it gives something true: a
    class entity, by its address, or a value that is no class entity (a
    function, an array, a number, [Object.prototype]). *)
Inductive found :=
| Class (a : nat)
| NotAClass.

(** [name2class[key]] for a key the object has no property of. The
    assignment [name2class["__proto__"] = c] makes no property: it sets
    the prototype of the object to [c], and the entry the index holds
    under that key is this prototype. With it, the object answers to the
    names of the class entity as well, where [id] and [globalId] are true
    when they are not zero. *)
Definition inherited (d : t) (key : string) : option found :=
  match name2class d !! "__proto__" ≫= class_at d with
  | Some c =>
      if String.eqb key "id" then
        if Entity.id (ClassEntity.entity c) =? 0 then None else Some NotAClass
      else if String.eqb key "globalId" then
        if Entity.globalId (ClassEntity.entity c) =? 0 then None else Some NotAClass
      else if bool_decide (key ∈ class_members ++ object_members) then Some NotAClass
      else None
  | None =>
      if bool_decide (key ∈ object_members) then Some NotAClass else None
  end.

(** [var c = name2class[name]; if(c) return c; else return false;]
    where [None] stands for [false]. Reading [__proto__] gives the
    prototype, which is the class entity entered under that name if
    there is one. *)
Definition nameToClass (d : t) (name : JS.jsstr) : option found :=
  match name2class d !! JS.ToString name with
  | Some a => Some (Class a)
  | None => inherited d (JS.ToString name)
  end.

(** [recurseInheritance(name,nameList)], which pushes on [nameList] and
    returns nothing. The recursion of the source has no bound; here it
    runs on [fuel] calls and gives [None] when they are used up before
    it ended. When the index gives a value that is no class entity, the
    call [c.getExtendedClassName()] throws. *)
Fixpoint recurseInheritance (fuel : nat) (d : t) (name : JS.jsstr)
         (nameList : list JS.jsstr) : option (outcome (list JS.jsstr)) :=
  match fuel with
  | O => None
  | S fuel' =>
      let nameList := nameList ++ [name] in
      match nameToClass d name with
      | None => Some (Ok nameList)
      | Some NotAClass =>
          Some (Throw "TypeError: c.getExtendedClassName is not a function")
      | Some (Class a) =>
          match class_at d a with
          | None => Some (Ok nameList)
          | Some c =>
              let extended := ClassEntity.getExtendedClassName c in
              if negb (JS.truthy extended) then Some (Ok nameList)
              else recurseInheritance fuel' d extended nameList
          end
      end
  end.

Definition getInheritanceList (fuel : nat) (d : t) (classs : ClassEntity.t)
  : option (outcome (list JS.jsstr)) :=
  recurseInheritance fuel d (ClassEntity.getName classs) [].
End Documentation.

(** ** [makeEntities] *)

(** What the loop over the blocks carries from one block to the next:
    the documentation under construction, the variable [lastClass] (the
    address of a class entity, or [undefined]) and the counters. The
    variable [entity] is only handed to [TodoEntity.setEntity], which
    assigns it to a variable no one reads; it is left out. *)
Record AsmState := MkAsm {
  doc : Documentation.t;
  lastClass : option nat;
  counters : Globals
}.

(** [doc.errors.push(new DOCJS.ErrorReport(filename,lineNumber,message))] *)
Definition report (filename : string) (lineNumber : option nat) (message : string)
           (s : AsmState) : AsmState :=
  let '(e, g) := ErrorReport.new filename lineNumber message (counters s) in
  MkAsm (Documentation.push_error e (doc s)) (lastClass s) g.

(** [if(block.memberof.length==0 && lastClass)
       block.memberof.push(new DOCJS.MemberofCommand(block,lastClass.getName()));] *)
Definition memberof_fallback (s : AsmState) (block : Block.t) : Block.t :=
  match Block.memberof block, lastClass s with
  | [], Some a =>
      Block.set_memberof
        [MemberofCommand.Mk (Block.id block) (Documentation.class_name (doc s) a)]
        block
  | _, _ => block
  end.

(** The [Page] branch. *)
Definition assemble_page (pageCommand : PageCommand.t) (block : Block.t)
           (s : AsmState) : Block.t * AsmState :=
  let lines := Block.getUnparsedLines2 false block in
  let lines_array := map snd lines in
  let block := fold_left (λ b jl, Block.markLineAsParsed jl.1 b) lines block in
  let content := JS.join_nl lines_array in
  let '(entity, g) :=
    PageEntity.new [Block.id block] pageCommand content (counters s) in
  (block, MkAsm (Documentation.push_page entity (doc s)) (lastClass s) g).

(** [block.extends[0] &&
     block.extends[0].getClassName() == block.classs[0].getName()] *)
Definition extends_itself (c0 : ClassCommand.t) (block : Block.t) : bool :=
  match Block.extends block with
  | e :: _ => JS.loose_eq (ExtendsCommand.getClassName e) (ClassCommand.getName c0)
  | [] => false
  end.

(** The [Class] branch; [c0] is [block.classs[0]]. *)
Definition assemble_class (c0 : ClassCommand.t) (block : Block.t) (s : AsmState)
  : Block.t * AsmState :=
  let nerrors := 0 in
  let '(nerrors, s) :=
    if negb (length (Block.ret block) =? 0) then
      (S nerrors,
       report (Block.filename block) (Some (Block.lineNumber block))
              "@class blocks may not contain @return" s)
    else (nerrors, s) in
  let '(nerrors, s) :=
    if extends_itself c0 block then
      (S nerrors,
       report (Block.filename block) (Some (Block.lineNumber block))
              "A class may not extend itself!" s)
    else (nerrors, s) in
  if nerrors =? 0 then
    let '(entity, g) :=
      ClassEntity.new [Block.id block] c0 (Block.param block)
                      (head (Block.extends block)) (head (Block.brief block))
                      (head (Block.desc block)) (Block.example block)
                      (counters s) in
    let d := Documentation.push_class entity (doc s) in
    (block, MkAsm d (Some (length (Documentation.store (doc s)))) g)
  else (block, s).

(** The [Library] branch. *)
Definition assemble_library (l0 : LibraryCommand.t) (block : Block.t)
           (s : AsmState) : Block.t * AsmState :=
  let '(entity, g) :=
    LibraryEntity.new [Block.id block] l0 (head (Block.version block))
                      (head (Block.brief block)) (head (Block.desc block))
                      (counters s) in
  (block, MkAsm (Documentation.set_library entity (doc s)) (lastClass s) g).

(** The [Function] branch. *)
Definition assemble_function (f0 : FunctionCommand.t) (block : Block.t)
           (s : AsmState) : Block.t * AsmState :=
  let '(entity, g) :=
    FunctionEntity.new [Block.id block] f0 (Block.param block)
                       (head (Block.ret block)) (head (Block.brief block))
                       (head (Block.desc block)) (Block.example block)
                       (counters s) in
  (block, MkAsm (Documentation.push_function entity (doc s)) (lastClass s) g).

(** The [Method] branch; [m0] is [block.method[0]]. *)
Definition assemble_method (m0 : MethodCommand.t) (block : Block.t)
           (s : AsmState) : Block.t * AsmState :=
  let block := memberof_fallback s block in
  match Block.memberof block with
  | [mo] =>
      let '(entity, g) :=
        MethodEntity.new [Block.id block] m0 mo (Block.param block)
                         (head (Block.brief block)) (head (Block.ret block))
                         (counters s) in
      (block, MkAsm (Documentation.push_method entity (doc s)) (lastClass s) g)
  | _ => (block, s)
  end.

(** The [Property] branch; [p0] is [block.property[0]]. *)
Definition assemble_property (p0 : PropertyCommand.t) (block : Block.t)
           (s : AsmState) : Block.t * AsmState :=
  let block := memberof_fallback s block in
  match Block.memberof block with
  | [mo] =>
      let '(entity, g) :=
        PropertyEntity.new [Block.id block] p0 mo (head (Block.brief block))
                           (head (Block.desc block)) (counters s) in
      (block, MkAsm (Documentation.push_property entity (doc s)) (lastClass s) g)
  | _ =>
      (block,
       report (Block.filename block) (Some (Block.lineNumber block))
              ("A @property block requires exactly 1 @memberof command, got "
               +:+ JS.num (length (Block.memberof block)) +:+ ".") s)
  end.

(** "Find block type": the chain of [if(block.x.length) ... else if]. *)
Definition assemble_primary (block : Block.t) (s : AsmState) : Block.t * AsmState :=
  match Block.page block with
  | pageCommand :: _ => assemble_page pageCommand block s
  | [] =>
  match Block.classs block with
  | c0 :: _ => assemble_class c0 block s
  | [] =>
  match Block.file block with
  | _ :: _ => (block, s)
  | [] =>
  match Block.library block with
  | l0 :: _ => assemble_library l0 block s
  | [] =>
  match Block.func block with
  | f0 :: _ => assemble_function f0 block s
  | [] =>
  match Block.method block with
  | m0 :: _ => assemble_method m0 block s
  | [] =>
  match Block.property block with
  | p0 :: _ => assemble_property p0 block s
  | [] => (block, s)
  end end end end end end end.

(** "Check for todos" *)
Definition assemble_todos (block : Block.t) (s : AsmState) : AsmState :=
  fold_left (λ s t,
               let '(todo, g) := TodoEntity.new [Block.id block] t (counters s) in
               MkAsm (Documentation.push_todo todo (doc s)) (lastClass s) g)
            (Block.todo block) s.

(** The message of the report on unparsed lines, from the entries of
    [unparsed]: a heading, then for each entry Line, the key, a colon,
    the line and a line feed. *)
Definition unparsed_message (unparsed : list (nat * string)) : string :=
  fold_left (λ message jl,
               message +:+ "Line " +:+ JS.num jl.1 +:+ ": " +:+ jl.2 +:+ JS.nls)
            unparsed
            ("There was unparsed code:" +:+ JS.nls +:+ JS.nls).

(** "Make error for unparsed code" *)
Definition report_unparsed (block : Block.t) (s : AsmState) : AsmState :=
  let unparsed := Block.getUnparsedLines2 true block in
  let count := match unparsed with [] => 0 | _ :: _ => 1 end in
  if negb (count =? 0) then
    report (Block.filename block) (Some (Block.lineNumber block))
           (unparsed_message unparsed) s
  else s.

(** The body of the loop over the blocks. *)
Definition assemble_block (s : AsmState) (block : Block.t) : AsmState :=
  let '(block, s) := assemble_primary block s in
  let s := assemble_todos block s in
  report_unparsed block s.

(** "Attach methods, properties to their classes". When the index gives
    a value that is no class entity, the call [c.addMethod(m)] throws. *)
Definition attach_method (s : AsmState) (m : MethodEntity.t) : outcome AsmState :=
  match Documentation.nameToClass (doc s) (MethodEntity.getClassName m) with
  | Some (Documentation.Class c) =>
      Ok (MkAsm (Documentation.alter_class (ClassEntity.addMethod m) c (doc s))
                (lastClass s) (counters s))
  | Some Documentation.NotAClass =>
      Throw "TypeError: c.addMethod is not a function"
  | None =>
      Ok (report "" (Some 1)
                 ("Could not add method " +:+ JS.ToString (MethodEntity.getName m)
                  +:+ " to the class " +:+ JS.ToString (MethodEntity.getClassName m)
                  +:+ ", could not find that class.") s)
  end.

(** The line number of the report is [p.block.lineNumber]; [p.block] is
    the array [[block]], which has no such property: [undefined]. *)
Definition attach_property (s : AsmState) (p : PropertyEntity.t) : outcome AsmState :=
  match Documentation.nameToClass (doc s) (PropertyEntity.getClassName p) with
  | Some (Documentation.Class c) =>
      Ok (MkAsm (Documentation.alter_class (ClassEntity.addProperty p) c (doc s))
                (lastClass s) (counters s))
  | Some Documentation.NotAClass =>
      Throw "TypeError: c.addProperty is not a function"
  | None =>
      Ok (report "" None
                 ("Could not attach property " +:+ JS.ToString (PropertyEntity.getName p)
                  +:+ " to the class " +:+ JS.ToString (PropertyEntity.getClassName p)
                  +:+ " because it could not be found.") s)
  end.

(** A loop over an array whose body may throw: the loop ends there, and
    with it the function. *)
Fixpoint attach_each {A} (f : AsmState → A → outcome AsmState) (l : list A)
         (s : AsmState) : outcome AsmState :=
  match l with
  | [] => Ok s
  | a :: l' =>
      match f s a with
      | Ok s' => attach_each f l' s'
      | Throw e => Throw e
      end
  end.

(** The state before the first block: [errors] copied into [doc.errors]. *)
Definition assemble_start (errors : list ErrorReport.t) (g : Globals) : AsmState :=
  MkAsm (fold_left (λ d e, Documentation.push_error e d) errors Documentation.new)
        None g.

Definition assemble_blocks (blocks : list Block.t) (s : AsmState) : AsmState :=
  fold_left assemble_block blocks s.

(** What follows the loop: the index, then the attachments. *)
Definition assemble_finish (s : AsmState) : outcome AsmState :=
  let s := MkAsm (Documentation.update (doc s)) (lastClass s) (counters s) in
  match attach_each attach_method (Documentation.methods (doc s)) s with
  | Ok s => attach_each attach_property (Documentation.properties (doc s)) s
  | Throw e => Throw e
  end.

(** [makeEntities(blocks,errors)]: the documentation it returns, with
    the counters as it leaves them, or what it throws. *)
Definition makeEntities (blocks : list Block.t) (errors : list ErrorReport.t)
           (g : Globals) : outcome (Documentation.t * Globals) :=
  match assemble_finish (assemble_blocks blocks (assemble_start errors g)) with
  | Ok s => Ok (doc s, counters s)
  | Throw e => Throw e
  end.

(** ** [DOCJS.Generate]

    [loadBlocks(urls,function(blocks,errors){ var doc =
    makeEntities(blocks,errors); ... })]: the documentation assembled in
    the call of the callback, which a loader that answers each request
    once makes run at most once. Rendering is a collaborator. There is
    no documentation when the callback did not run or [makeEntities]
    threw. *)
Definition Generate (urls : list string) (answers : list (string * Loader.answer))
  : option Documentation.t :=
  let s := Loader.loadBlocks urls answers initial_globals in
  match Loader.calls s with
  | [(blocks, errs)] =>
      match makeEntities blocks errs (globals (Loader.pstate s)) with
      | Ok (d, _) => Some d
      | Throw _ => None
      end
  | _ => None
  end.

(** ** Inputs used in the statements below *)

Module Inputs.
(** A block made of one line of cleaned text, fresh from the
    constructor. *)
Definition line_block (text : string) : Block.t :=
  (Block.new text text 1 initial_globals).1.

(** A file with [@class C] extending [D] and [@class D] extending [C]. *)
Definition cyclic_js : string :=
"/**
 * @class C
 * @extends D
 */
/**
 * @class D
 * @extends C
 */
".

(** A file with a class [A] and a class [B] that extends [A]. *)
Definition chain_js : string :=
"/**
 * @class A
 */
/**
 * @class B
 * @extends A
 */
".

(** Two files with one class each. *)
Definition a_js : string :=
"/**
 * @class Apple
 */
".
Definition b_js : string :=
"/**
 * @class Banana
 */
".

(** A page, then the first class and the first function of the run. *)
Definition kinds_js : string :=
"/**
 * @page About
 */
/**
 * @class Foo
 */
/**
 * @function f
 */
".

(** A method that names a class no block defines, on line 4 of its
    file. *)
Definition orphan_js : string :=
"var x;


/**
 * @method run
 * @memberof Missing
 */
".

(** A class [Baz] followed by a block with [@method bar] and no
    [@memberof]. *)
Definition baz_js : string :=
"/**
 * @class Baz
 */
/**
 * @method bar
 */
".


(** A block with [@page], [@class Foo] and [@return]. *)
Definition page_class_return_js : string :=
"/**
 * @page Notes
 * @class Foo
 * @return string
 */
".

(** A block with [@class Foo] and [@return]. *)
Definition class_return_js : string :=
"/**
 * @class Foo
 * @return string
 */
".

(** A block with a line no parser takes. *)
Definition stray_js : string :=
"/**
 * @class Foo
 * stray words
 */
".

Definition parsed (src file : string) : list Block.t :=
  match parseBlocks src file (MkPState initial_globals []) with
  | (Ok bs, _) => bs
  | (Throw _, _) => []
  end.

(** The first block parsed from a text, and the one at a position. *)
Definition first_block (src file : string) : Block.t :=
  default (line_block "") (head (parsed src file)).

Definition block_at (i : nat) (src file : string) : Block.t :=
  default (line_block "") (parsed src file !! i).


(** The state of the assembly before the first block of a run without
    load errors. *)
Definition start : AsmState := assemble_start [] initial_globals.

(** A rejected class with a todo, a class named [__proto__], a method
    without [@memberof] and a method of a class named [id]. *)
Definition prototype_js : string :=
"/**
 * @class Bad
 * @return string
 * @todo later
 */
/**
 * @class __proto__
 */
/**
 * @method q
 */
/**
 * @method m
 * @memberof id
 */
".

(** A class that extends a name the index object inherits. *)
Definition constructor_js : string :=
"/**
 * @class A
 * @extends constructor
 */
".

(** A class [Baz] with a method, and a second class [Baz] after it. *)
Definition twice_js : string :=
"/**
 * @class Baz
 */
/**
 * @method bar
 */
/**
 * @class Baz
 * @brief again
 */
".

(** Two classes, each followed by the same comment for a method. *)
Definition repeated_js : string :=
"/**
 * @class Apple
 */
/**
 * @method init
 */
/**
 * @class Banana
 */
/**
 * @method init
 */
".

(** A comment whose first line holds the text of its description. *)
Definition fix_js : string :=
"/**
 * TODO: fix me
 * @desc fix
 */
".


(** Cleaned text of two [@param] lines, the first with a description. *)
Definition described_text : string :=
"@param Number a the first
@param Number b".
End Inputs.

(** One round of [recurseInheritance]: the name is that of an indexed
    class whose [@extends] names [next], a non-empty name. *)
Definition extends_to (d : Documentation.t) (name next : JS.jsstr) : Prop :=
  ∃ a c, Documentation.nameToClass d name = Some (Documentation.Class a)
         ∧ Documentation.class_at d a = Some c
         ∧ ClassEntity.getExtendedClassName c = next
         ∧ JS.truthy next = true.

Module CycleExample.
Import Documentation.

(** The documentation of [cyclic.js]. *)
Definition cyclic_doc : Documentation.t :=
  default Documentation.new
    (Generate ["cyclic.js"] [("cyclic.js", Loader.Content Inputs.cyclic_js)]).

(** The documentation of [chain.js] and a rank for it: one for the name
    of the class at address 1, which is [B], zero for the others. *)
Definition chain_doc : Documentation.t :=
  default Documentation.new
    (Generate ["chain.js"] [("chain.js", Loader.Content Inputs.chain_js)]).

Definition chain_rank (name : JS.jsstr) : nat :=
  match nameToClass chain_doc name with
  | Some (Class 1) => 1
  | _ => 0
  end.

(** A class entity that reads like the class [B] of [chain.js]. *)
Definition class_B : ClassEntity.t :=
  ClassEntity.Mk (Entity.Mk [2] 1 2) (ClassCommand.Mk 2 (Some "B")) []
                 (Some (ExtendsCommand.Mk 2 (Some "A"))) None None [] [] [].
End CycleExample.

(** ** Reading a documentation without its ids

    Two runs that differ in how many entities and reports were made
    before give different ids to what they make next. [anon] forgets the
    ids of an entity, and [outline] is what is left of a documentation:
    its pages, classes, functions, library, methods and properties with
    the ids forgotten, and the name index. Todos and reports are not part
    of it. *)

Definition anon (e : Entity.t) : Entity.t := Entity.Mk (Entity.block e) 0 0.

Definition anon_page (p : PageEntity.t) : PageEntity.t :=
  PageEntity.Mk (anon (PageEntity.entity p)) (PageEntity.pageCommand p)
                (PageEntity.getContent p).

Definition anon_function (f : FunctionEntity.t) : FunctionEntity.t :=
  FunctionEntity.Mk (anon (FunctionEntity.entity f))
    (FunctionEntity.functionCommand f) (FunctionEntity.paramCommands f)
    (FunctionEntity.returnCommand f) (FunctionEntity.briefCommand f)
    (FunctionEntity.descriptionCommand f) (FunctionEntity.exampleCommand f).

Definition anon_library (l : LibraryEntity.t) : LibraryEntity.t :=
  LibraryEntity.Mk (anon (LibraryEntity.entity l))
    (LibraryEntity.libraryCommand l) (LibraryEntity.versionCommand l)
    (LibraryEntity.briefCommand l) (LibraryEntity.descriptionCommand l).

Definition anon_method (m : MethodEntity.t) : MethodEntity.t :=
  MethodEntity.Mk (anon (MethodEntity.entity m))
    (MethodEntity.methodCommand m) (MethodEntity.memberofCommand m)
    (MethodEntity.paramCommands m) (MethodEntity.briefCommand m)
    (MethodEntity.returnCommand m).

Definition anon_property (p : PropertyEntity.t) : PropertyEntity.t :=
  PropertyEntity.Mk (anon (PropertyEntity.entity p))
    (PropertyEntity.propertyCommand p) (PropertyEntity.memberofCommand p)
    (PropertyEntity.briefCommand p) (PropertyEntity.descriptionCommand p).

Definition anon_class (c : ClassEntity.t) : ClassEntity.t :=
  ClassEntity.Mk (anon (ClassEntity.entity c))
    (ClassEntity.classCommand c) (ClassEntity.paramCommands c)
    (ClassEntity.extendsCommand c) (ClassEntity.briefCommand c)
    (ClassEntity.descriptionCommand c) (ClassEntity.exampleCommands c)
    (map anon_method (ClassEntity.methodEntities c))
    (map anon_property (ClassEntity.propertyEntities c)).

(** A report without its sequence id. *)
Definition anon_report (e : ErrorReport.t) : ErrorReport.t :=
  ErrorReport.Mk (ErrorReport.lineNumber e) (ErrorReport.file e)
                 (ErrorReport.message e) 0.

Record Outline := MkOutline {
  o_store : list ClassEntity.t;
  o_pages : list PageEntity.t;
  o_classes : list nat;
  o_functions : list FunctionEntity.t;
  o_library : option LibraryEntity.t;
  o_methods : list MethodEntity.t;
  o_properties : list PropertyEntity.t;
  o_name2class : gmap string nat;
  o_name2entity : gmap string nat
}.

(** The entities of a documentation and its name index, as they are. *)
Definition contents (d : Documentation.t) : Outline :=
  MkOutline (Documentation.store d) (Documentation.pages d)
            (Documentation.classes d) (Documentation.functions d)
            (Documentation.library d) (Documentation.methods d)
            (Documentation.properties d) (Documentation.name2class d)
            (Documentation.name2entity d).

Definition anon_outline (o : Outline) : Outline :=
  MkOutline (map anon_class (o_store o))
            (map anon_page (o_pages o))
            (o_classes o)
            (map anon_function (o_functions o))
            (anon_library <$> o_library o)
            (map anon_method (o_methods o))
            (map anon_property (o_properties o))
            (o_name2class o)
            (o_name2entity o).

Definition outline (d : Documentation.t) : Outline := anon_outline (contents d).



(** A block that the [Method] branch takes, for the method command
    [m0]: of the kinds tested before only [@method] is in it. *)
Definition method_block (m0 : MethodCommand.t) (block : Block.t) : Prop :=
  Block.page block = [] ∧ Block.classs block = [] ∧ Block.file block = []
  ∧ Block.library block = [] ∧ Block.func block = []
  ∧ head (Block.method block) = Some m0.


(** No class of the class list is named [__proto__]: the prototype of
    the index object stays what it is. *)
Definition no_prototype_class (d : Documentation.t) : Prop :=
  Forall (λ a, JS.ToString (Documentation.class_name d a) ≠ "__proto__")
         (Documentation.classes d).


(** ** What a run keeps

    Relations between an earlier and a later state of the assembly. *)

(** From [s] to [s']: the class objects, the class list and the method
    list of [s] are still there, in place, and others may have come
    after them. *)
Definition grows (s s' : AsmState) : Prop :=
  Documentation.store (doc s) `prefix_of` Documentation.store (doc s')
  ∧ Documentation.classes (doc s) `prefix_of` Documentation.classes (doc s')
  ∧ Documentation.methods (doc s) `prefix_of` Documentation.methods (doc s').

(** Every address in the class list is that of a class object. *)
Definition addresses_ok (s : AsmState) : Prop :=
  ∀ a, a ∈ Documentation.classes (doc s) →
       a < length (Documentation.store (doc s)).




(** ** Parsing one line

    The commands a parser gives for a block of one line of cleaned text,
    and the lines it left marked; [None] when it threw. *)
Definition parse_line {C} (parse : Block.t → P (list C * Block.t)) (text : string)
  : option (list C * list nat) :=
  match (parse (Inputs.line_block text) (MkPState initial_globals [])).1 with
  | Ok (commands, block) => Some (commands, Block.parsedLines block)
  | Throw _ => None
  end.



(** A word: characters other than white space, at least one. *)
Definition word (w : string) : Prop :=
  w ≠ "" ∧ Forall (λ a, RegExp.is_space a = false) (JS.chars w).

(** The characters with a property [p] that a greedy star takes in one
    go: a run of them, and after it the end or a character without. *)
Definition run_of (p : ascii → bool) (run rest : list ascii) : Prop :=
  Forall (λ a, p a = true) run
  ∧ match rest with
    | [] => True
    | a :: _ => p a = false
    end.


(** ** The utility functions of [DOCJS.Generate] *)
Module Util.
Import RegExp.

(** A range [lo-hi] inside a character class: one item for each
    character from [lo] to [hi]. *)
Definition range (lo hi : ascii) : list cls_item :=
  map (λ n, CChar (ascii_of_nat n))
      (List.seq (nat_of_ascii lo) (S (nat_of_ascii hi - nat_of_ascii lo))).

(** [s.replace(re, by)] for a pattern with the [g] flag and a
    replacement text without a dollar sign: every match, from left to
    right, is replaced; the text between the matches stays; after an
    empty match the search moves one character on, and that character
    stays. *)
Fixpoint replace_all_go (fuel : nat) (re : RegExp.t) (by_ : list ascii)
         (bef aft : list ascii) : list ascii :=
  match fuel with
  | O => aft
  | S fuel' =>
      match search (flag_m re) (pattern re) (ncaps re) bef aft with
      | None => aft
      | Some (x, y) =>
          let skipped := take (length aft - length (after x)) aft in
          match consumed x y, after y with
          | [], [] => skipped ++ by_
          | [], a :: aft' =>
              skipped ++ by_ ++ a :: replace_all_go fuel' re by_ (a :: before y) aft'
          | _ :: _, _ =>
              skipped ++ by_ ++ replace_all_go fuel' re by_ (before y) (after y)
          end
      end
  end.

Definition replace_all (re : RegExp.t) (by_ : string) (s : string) : string :=
  JS.str (replace_all_go (S (String.length s)) re (JS.chars by_) [] (JS.chars s)).

(** [s.toLowerCase()] on code units below 256: the capital letters of
    ASCII and of Latin-1 move 32 up. *)
Definition lower_char (c : ascii) : ascii :=
  let n := nat_of_ascii c in
  if ((65 <=? n) && (n <=? 90)) || ((192 <=? n) && (n <=? 214))
     || ((216 <=? n) && (n <=? 222))
  then ascii_of_nat (n + 32) else c.

Definition toLowerCase (s : string) : string :=
  JS.str (map lower_char (JS.chars s)).

(** The patterns of [trim]: white space at the start, and at the end. *)
Definition leading_space : RegExp.t := RE (seq [Bol; space; star space]) false.
Definition trailing_space : RegExp.t := RE (seq [space; star space; Eol]) false.

(** [function trim(s){ return s.replace(/^\s\s*/, '').replace(/\s\s*$/, ''); }] *)
Definition trim (s : string) : string :=
  remove_first trailing_space (remove_first leading_space s).

(** The patterns of [ltrim] and [rtrim]. *)
Definition leading_spaces : RegExp.t := RE (seq [Bol; plus space]) false.
Definition trailing_spaces : RegExp.t := RE (seq [plus space; Eol]) false.

Definition ltrim (s : string) : string := remove_first leading_spaces s.
Definition rtrim (s : string) : string := remove_first trailing_spaces s.

(* /[^a-zA-Z0-9\/_|+ -]+/g *)
Definition not_nice : RegExp.t :=
  RE (plus (Set_ true (range "a" "z" ++ range "A" "Z" ++ range "0" "9"
                       ++ [CChar "/"; CChar "_"; CChar "|"; CChar "+"; CChar " ";
                           CChar "-"]))) false.

(* /[\s\n\t]+/g and /\s+/g *)
Definition blanks : RegExp.t :=
  RE (plus (Set_ false [CSpace; CChar JS.nl; CChar JS.tab])) false.
Definition spaces : RegExp.t := RE (plus space) false.

(* /[\/_|+ -]+/g *)
Definition separators : RegExp.t :=
  RE (plus (Set_ false [CChar "/"; CChar "_"; CChar "|"; CChar "+"; CChar " ";
                        CChar "-"])) false.

(** [toNice(s)]: the text of an anchor made from a name. *)
Definition toNice (s : string) : string :=
  let clean := replace_all not_nice "" s in
  let clean := trim (toLowerCase clean) in
  let clean := replace_all spaces "-" (replace_all blanks " " clean) in
  let clean := replace_all separators "-" clean in
  clean.
End Util.

(** ** Statements about patterns and blocks without commands *)

(** A pattern that can only match where the character [a] stands. *)
Fixpoint starts_with (a : ascii) (r : RegExp.regex) : bool :=
  match r with
  | RegExp.Chr c => Ascii.eqb c a
  | RegExp.Seq r1 _ => starts_with a r1
  | RegExp.Alt r1 r2 => starts_with a r1 && starts_with a r2
  | RegExp.Grp _ r1 => starts_with a r1
  | _ => false
  end.

(** From the state [x] the matcher came to the state [y]: it moved over
    part of the input. *)
Definition reaches (x y : RegExp.mstate) : Prop :=
  ∃ l, RegExp.after x = l ++ RegExp.after y
       ∧ RegExp.before y = rev l ++ RegExp.before x.

(** A matcher that only moves forward: when it succeeds, it has called
    its continuation on a state it reached. *)
Definition sound (m : RegExp.mstate → RegExp.cont → option RegExp.mstate) : Prop :=
  ∀ x c z, m x c = Some z → ∃ y, reaches x y ∧ c y = Some z.


(** The character every tag starts with. *)
Definition at_sign : ascii := "@"%char.

(** A block without commands and without marked lines. *)
Definition untagged (b : Block.t) : Prop :=
  b = Block.Mk (Block.id b) (Block.rawDiff b) [] (Block.filename b) (Block.src b)
        (Block.rawSrc b) (Block.lineNumber b)
        [] [] [] [] [] [] [] [] [] [] [] [] [] [] [] [] [] [] [].

(** The report on unparsed lines that a block gets when every line of
    it is unparsed, without its sequence id. *)
Definition report_of (b : Block.t) : ErrorReport.t :=
  ErrorReport.Mk (Some (Block.lineNumber b)) (Block.filename b)
                 (unparsed_message (Block.getUnparsedLines2 true b)) 0.

(** Text that follows a word on its line: it is not empty and starts
    with white space. *)
Definition follows_word (rest : string) : Prop :=
  match JS.chars rest with
  | [] => False
  | a :: _ => RegExp.is_space a = true
  end.

(** Where a block comes from: what a report on one of its lines reads. *)
Definition same_origin (b b' : Block.t) : Prop :=
  Block.filename b' = Block.filename b
  ∧ Block.lineNumber b' = Block.lineNumber b
  ∧ Block.rawDiff b' = Block.rawDiff b.

(** The text of a tag: it stays on its line and does not start with
    white space. *)
Definition plain (text : string) : Prop :=
  Forall (λ a, RegExp.is_line_terminator a = false) (JS.chars text)
  ∧ match JS.chars text with
    | [] => True
    | a :: _ => RegExp.is_space a = false
    end.

(** What may follow a word on its line: nothing, or white space and
    more. *)
Definition after_word (rest : string) : Prop :=
  match JS.chars rest with
  | [] => True
  | a :: _ => RegExp.is_space a = true
  end.

(** ** Statements about order and counters *)

(** A list in the order of a comparison function: no element is
    greater than one that comes after it. *)
Definition in_order {A} (gt : A → A → bool) (l : list A) : Prop :=
  StronglySorted (λ a b, gt a b = false) l.

(** From [st] to [st'], parse-time code made [n] blocks and some
    reports: the reports that were there are still there, in place; the
    new ones follow them and carry the next sequence ids, one after the
    other; the block counter went up by [n]; the entity counters are as
    they were. *)
Definition advances (n : nat) (st st' : PState) : Prop :=
  ∃ new,
    errors st' = errors st ++ new
    ∧ map ErrorReport.id new
      = List.seq (S (errorReportIdCounter (globals st))) (length new)
    ∧ globals st'
      = MkGlobals (blockIdCounter (globals st) + n)
                  (errorReportIdCounter (globals st) + length new)
                  (globalEntityCounter (globals st))
                  (entityCounter (globals st)).

(** Code that only reports. *)
Definition reports_only {A} (m : P A) : Prop := ∀ st, advances 0 st (m st).2.

(** Parse-time code: it makes blocks and reports. *)
Definition parse_time {A} (m : P A) : Prop := ∀ st, ∃ n, advances n st (m st).2.

(** The entities of a documentation, of every kind. *)
Definition entities (d : Documentation.t) : list Entity.t :=
  map PageEntity.entity (Documentation.pages d)
  ++ map ClassEntity.entity (Documentation.store d)
  ++ map FileEntity.entity (Documentation.files d)
  ++ map FunctionEntity.entity (Documentation.functions d)
  ++ option_list (LibraryEntity.entity <$> Documentation.library d)
  ++ map TodoEntity.entity (Documentation.todos d)
  ++ map MethodEntity.entity (Documentation.methods d)
  ++ map PropertyEntity.entity (Documentation.properties d).

(** The id the next entity gets: every constructor leaves the name
    out, and the counter is the one filed under "undefined". *)
Definition next_entity_id (g : Globals) : nat :=
  match entityCounter g !! "undefined" with
  | None => 0
  | Some n => S n
  end.

(** What the assembly keeps, from the reports [errs0] and the counters
    [g0] it started with. *)
Definition in_sequence (errs0 : list ErrorReport.t) (g0 : Globals) (s : AsmState)
  : Prop :=
  (∃ new, Documentation.errors (doc s) = errs0 ++ new
          ∧ map ErrorReport.id new
            = List.seq (S (errorReportIdCounter g0)) (length new)
          ∧ errorReportIdCounter (counters s)
            = errorReportIdCounter g0 + length new)
  ∧ (globalEntityCounter g0 ≤ globalEntityCounter (counters s)
     ∧ next_entity_id (counters s) + globalEntityCounter g0
       = next_entity_id g0 + globalEntityCounter (counters s))
  ∧ NoDup (map Entity.globalId (entities (doc s)))
  ∧ ∀ e, e ∈ entities (doc s) →
         globalEntityCounter g0 < Entity.globalId e
         ∧ Entity.globalId e ≤ globalEntityCounter (counters s)
         ∧ Entity.id e + S (globalEntityCounter g0)
           = next_entity_id g0 + Entity.globalId e.

(** ** Statements about what the assembly makes of a block *)

(** The todo entities a block gives: one for each of its todo commands,
    in order, each with the block in its [block] array. *)
Definition todos_of (b : Block.t) : list (list nat * TodoCommand.t) :=
  map (λ t, ([Block.id b], t)) (Block.todo b).

(** The block array and the command of a todo entity. *)
Definition todo_origin (t : TodoEntity.t) : list nat * TodoCommand.t :=
  (Entity.block (TodoEntity.entity t), TodoEntity.todoCommand t).

(** A block that the [Property] branch takes, for the property command
    [p0]: of the kinds tested before none is in it. *)
Definition property_block (p0 : PropertyCommand.t) (block : Block.t) : Prop :=
  Block.page block = [] ∧ Block.classs block = [] ∧ Block.file block = []
  ∧ Block.library block = [] ∧ Block.func block = [] ∧ Block.method block = []
  ∧ head (Block.property block) = Some p0.

(** What became of a property entity: its class is in the index and
    holds it, or a report says that the class could not be found; the
    report has no file name and no line number. *)
Definition settled (d : Documentation.t) (p : PropertyEntity.t) : Prop :=
  match Documentation.nameToClass d (PropertyEntity.getClassName p) with
  | Some (Documentation.Class a) =>
      ∃ c, Documentation.class_at d a = Some c
           ∧ p ∈ ClassEntity.propertyEntities c
  | Some Documentation.NotAClass => False
  | None =>
      ∃ e, e ∈ Documentation.errors d
           ∧ ErrorReport.file e = ""
           ∧ ErrorReport.lineNumber e = None
           ∧ ErrorReport.message e
             = "Could not attach property "
               +:+ JS.ToString (PropertyEntity.getName p)
               +:+ " to the class "
               +:+ JS.ToString (PropertyEntity.getClassName p)
               +:+ " because it could not be found."
  end.

(** From [s] to [s'] in the attachment loops: the index and the list of
    properties are the same, no report is lost, and each class object is
    at its address with the properties it had. *)
Definition carries (s s' : AsmState) : Prop :=
  Documentation.name2class (doc s') = Documentation.name2class (doc s)
  ∧ Documentation.properties (doc s') = Documentation.properties (doc s)
  ∧ Documentation.errors (doc s) `prefix_of` Documentation.errors (doc s')
  ∧ ∀ a c, Documentation.class_at (doc s) a = Some c →
           ∃ c', Documentation.class_at (doc s') a = Some c'
                 ∧ ∀ p, p ∈ ClassEntity.propertyEntities c →
                        p ∈ ClassEntity.propertyEntities c'.

(** Every address in the index is that of a class object. *)
Definition index_ok (s : AsmState) : Prop :=
  ∀ k a, Documentation.name2class (doc s) !! k = Some a →
         is_Some (Documentation.class_at (doc s) a).


(** A list of names in which each name is that of a class whose
    [@extends] names the next one, and the class of the last name, if
    there is one, extends nothing. *)
Definition extends_chain (d : Documentation.t) (l : list JS.jsstr) : Prop :=
  (∀ i x y, l !! i = Some x → l !! S i = Some y → extends_to d x y)
  ∧ ∀ x y, last l = Some x → ¬ extends_to d x y.

(** ** Statements about the utility functions *)

(** A text without white space at its start and at its end. *)
Definition trimmed (l : list ascii) : Prop :=
  match l with [] => True | a :: _ => RegExp.is_space a = false end
  ∧ match last l with Some a => RegExp.is_space a = false | None => True end.

(** A character of an anchor: a small letter, a digit or a hyphen. *)
Definition anchor_char (c : ascii) : bool :=
  let n := nat_of_ascii c in
  ((97 <=? n) && (n <=? 122)) || ((48 <=? n) && (n <=? 57)) || (n =? 45).

(** A character of a name after the first two steps of [toNice]: a
    character of an anchor or a separator. *)
Definition low (c : ascii) : bool :=
  anchor_char c
  || RegExp.set_has false [RegExp.CChar "/"; RegExp.CChar "_"; RegExp.CChar "|";
                           RegExp.CChar "+"; RegExp.CChar " "; RegExp.CChar "-"] c.

(** ** More inputs *)

Module Samples.
(** Cleaned text of three lines. *)
Definition three_lines : string :=
"alpha
beta gamma
delta".

(** Its last two lines. *)
Definition two_lines : string :=
"beta gamma
delta".

(** A file whose only comment holds no tag. *)
Definition words_js : string :=
"/**
 * Only words.
 */
".

(** A file without a comment. *)
Definition code_js : string := "var x = 1;".

(** A block with [@property Number x] and no [@memberof]. *)
Definition property_js : string :=
"/**
 * @property Number x
 */
".

(** A class [Foo], a property that falls to it, and a property of a
    class that no block defines. *)
Definition members_js : string :=
"/**
 * @class Foo
 */
/**
 * @property Number x
 */
/**
 * @property Number y
 * @memberof Missing
 */
".


(** The documentation of [kinds.js]. *)
Definition kinds_doc : Documentation.t :=
  default Documentation.new
    (Generate ["kinds.js"] [("kinds.js", Loader.Content Inputs.kinds_js)]).
End Samples.

(** * Properties *)

(** ** Loading several files *)

(** Whatever was parsed before, an answer with content that parses
    leaves in [blocks] the blocks of that file alone. *)
Lemma on_answer_blocks urls url content s bs st :
  parseBlocks content url (Loader.pstate s) = (Ok bs, st) →
  Loader.blocks (Loader.on_answer urls url (Loader.Content content) s) = bs.
Proof.
  intros H. unfold Loader.on_answer. rewrite H.
  unfold Loader.callback_if_done. by case_match.
Qed.

(** C3 (what the code does): two files are requested and both
    loads succeed; the single call of the callback receives the block of
    the file that answered last and not the block of the other file,
    where the concatenation would hold the blocks of both. *)
Theorem C3_callback_gets_last_file_only :
  let s := Loader.loadBlocks ["a.js"; "b.js"]
             [("a.js", Loader.Content Inputs.a_js);
              ("b.js", Loader.Content Inputs.b_js)] initial_globals in
  map (λ call, map Block.filename call.1) (Loader.calls s) = [["b.js"]]
  ∧ map Block.filename (Inputs.parsed Inputs.a_js "a.js"
                        ++ Inputs.parsed Inputs.b_js "b.js") = ["a.js"; "b.js"].
Proof. vm_compute. split; reflexivity. Qed.

(** ** The two spellings of memberof *)

(** C7 (what the code does): the line [@memberOf Foo] is
    marked consumed and gives one Memberof command, whose class name is
    [undefined] and not [Foo]. *)
Theorem C7_memberOf_capital_has_no_class_name :
  (MemberofCommand_parse (Inputs.line_block "@memberOf Foo")
                         (MkPState initial_globals [])).1
  = Ok ([MemberofCommand.Mk 1 None],
        Block.markLineAsParsed 0 (Inputs.line_block "@memberOf Foo")).
Proof. vm_compute. reflexivity. Qed.

(** ** Entity ids *)

(** Every constructor calls [Entity] without a name, so each entity
    draws its id from the counter filed under "undefined". *)
Lemma Entity_new_unnamed block g :
  (Entity.new block None g).1
  = Entity.Mk block
      (match entityCounter g !! "undefined" with Some n => S n | None => 0 end)
      (S (globalEntityCounter g)).
Proof.
  unfold Entity.new. simpl.
  destruct (entityCounter g !! "undefined") as [n|] eqn:E;
    rewrite lookup_insert_eq; reflexivity.
Qed.

(** Whatever the counters are, a class entity made right after a page
    entity gets the type-local id after that of the page, and the global
    id after that of the page. *)
Lemma class_after_page_shares_counter g b1 pc content b2 cc ps ex br de exs :
  let '(p, g1) := PageEntity.new b1 pc content g in
  let '(c, _) := ClassEntity.new b2 cc ps ex br de exs g1 in
  Entity.id (ClassEntity.entity c) = S (Entity.id (PageEntity.entity p))
  ∧ Entity.globalId (ClassEntity.entity c)
    = S (Entity.globalId (PageEntity.entity p)).
Proof.
  unfold PageEntity.new, ClassEntity.new, Entity.new. cbn.
  destruct (entityCounter g !! "undefined") as [n|] eqn:E;
    rewrite !lookup_insert_eq; cbn; done.
Qed.

(** C8 (what the code does): a page, then the first class and
    the first function of the run; the global ids are 1, 2, 3, and the
    type-local ids are 0, 1, 2: the first class and the first function do
    not get the id 0. *)
Theorem C8_first_of_a_kind_is_not_zero :
  (λ d, (map PageEntity.entity (Documentation.pages d),
         map ClassEntity.entity (Documentation.store d),
         map FunctionEntity.entity (Documentation.functions d)))
    <$> Generate ["k.js"] [("k.js", Loader.Content Inputs.kinds_js)]
  = Some ([Entity.Mk [1] 0 1], [Entity.Mk [2] 1 2], [Entity.Mk [3] 2 3]).
Proof. vm_compute. reflexivity. Qed.

(** ** Where a report points *)

(** Whatever the method and its block, the report on a class that is
    not in the index has the empty file name and the line number 1. *)
Lemma attach_method_miss s m :
  Documentation.nameToClass (doc s) (MethodEntity.getClassName m) = None →
  ∃ e s', attach_method s m = Ok s'
          ∧ Documentation.errors (doc s') = Documentation.errors (doc s) ++ [e]
          ∧ ErrorReport.file e = "" ∧ ErrorReport.lineNumber e = Some 1.
Proof.
  intros H. unfold attach_method. rewrite H. by eexists _, _.
Qed.

(** C9 (what the code does): the method block stands on line 4
    of [o.js] and names a class that is not in the index; the report has
    the empty file name and the line number 1. *)
Theorem C9_method_report_has_no_origin :
  Documentation.errors
    <$> Generate ["o.js"] [("o.js", Loader.Content Inputs.orphan_js)]
  = Some [ErrorReport.Mk (Some 1) ""
            "Could not add method run to the class Missing, could not find that class."
            1]
  ∧ map (λ b, (Block.filename b, Block.lineNumber b))
        (Inputs.parsed Inputs.orphan_js "o.js") = [("o.js", 4)].
Proof. vm_compute. split; reflexivity. Qed.

(** ** The inheritance list *)

Section Inheritance.
Import Documentation.
Variable d : Documentation.t.

Lemma recurse_step name next fuel nameList :
  extends_to d name next →
  recurseInheritance (S fuel) d name nameList
  = recurseInheritance fuel d next (nameList ++ [name]).
Proof.
  intros (a & c & Ha & Hc & He & Ht). cbn [recurseInheritance].
  rewrite Ha, Hc, He, Ht. reflexivity.
Qed.

(** When [name] does not lead on, one call ends: it returns, or it
    throws when the index gives a value that is no class. *)
Lemma recurse_stop name fuel nameList :
  (∀ next, ¬ extends_to d name next) →
  nameToClass d name ≠ Some NotAClass →
  recurseInheritance (S fuel) d name nameList = Some (Ok (nameList ++ [name])).
Proof.
  intros Hno Hcl. cbn [recurseInheritance].
  destruct (nameToClass d name) as [[a|]|] eqn:Ha; [|done|reflexivity].
  destruct (class_at d a) as [c|] eqn:Hc; [|reflexivity].
  destruct (JS.truthy (ClassEntity.getExtendedClassName c)) eqn:Ht;
    [|reflexivity].
  exfalso. apply (Hno (ClassEntity.getExtendedClassName c)).
  exists a, c. auto.
Qed.

(** A set of names that [@extends] never leaves is never left: from
    any of its names the recursion uses up whatever fuel it is given. *)
Lemma recurse_in_cycle (inside : JS.jsstr → Prop) :
  (∀ name, inside name → ∃ next, extends_to d name next ∧ inside next) →
  ∀ fuel name nameList,
    inside name → recurseInheritance fuel d name nameList = None.
Proof.
  intros Hclosed fuel. induction fuel as [|fuel IH]; intros name nameList Hin.
  - reflexivity.
  - destruct (Hclosed name Hin) as (next & Hstep & Hnext).
    rewrite (recurse_step _ _ _ _ Hstep). apply IH, Hnext.
Qed.

(** With a rank that goes down along [@extends], [rank name + 1] calls
    are enough, and the call returns when every name that is looked up
    is that of a class or of nothing. *)
Lemma recurse_ranked (rank : JS.jsstr → nat) :
  (∀ name next, extends_to d name next → rank next < rank name) →
  (∀ name next, extends_to d name next → nameToClass d next ≠ Some NotAClass) →
  ∀ fuel name nameList,
    rank name < fuel →
    nameToClass d name ≠ Some NotAClass →
    ∃ l, recurseInheritance fuel d name nameList
         = Some (Ok (nameList ++ name :: l)).
Proof.
  intros Hrank Hcls fuel.
  induction fuel as [|fuel IH]; intros name nameList Hlt Hcl.
  - lia.
  - cbn [recurseInheritance].
    destruct (nameToClass d name) as [[a|]|] eqn:Ha; [|done|by exists []].
    destruct (class_at d a) as [c|] eqn:Hc; [|by exists []].
    destruct (JS.truthy (ClassEntity.getExtendedClassName c)) eqn:Ht;
      [|by exists []].
    cbn [negb].
    assert (Hs : extends_to d name (ClassEntity.getExtendedClassName c))
      by (exists a, c; auto).
    destruct (IH (ClassEntity.getExtendedClassName c) (nameList ++ [name]))
      as [l Hl]; [apply Hrank in Hs; lia|by apply (Hcls name)|].
    exists (ClassEntity.getExtendedClassName c :: l).
    rewrite Hl, <- app_assoc. reflexivity.
Qed.
End Inheritance.


(** C2 (counterexample): in the documentation of [cyclic.js] the class
    [C] extends [D] and the class [D] extends [C], both are in the index,
    and for neither does [getInheritanceList] return, whatever the number
    of calls it is allowed. *)
Lemma C2_cycle_never_returns :
  map (λ c, (ClassEntity.getName c, ClassEntity.getExtendedClassName c))
      (Documentation.store CycleExample.cyclic_doc)
  = [(Some "C", Some "D"); (Some "D", Some "C")]
  ∧ ∀ c, c ∈ Documentation.store CycleExample.cyclic_doc →
         ¬ ∃ fuel l,
             Documentation.getInheritanceList fuel CycleExample.cyclic_doc c
             = Some l.
Proof.
  assert (Hstore :
            map (λ c, (ClassEntity.getName c, ClassEntity.getExtendedClassName c))
                (Documentation.store CycleExample.cyclic_doc)
            = [(Some "C", Some "D"); (Some "D", Some "C")])
    by (vm_compute; reflexivity).
  split; [exact Hstore|].
  intros c Hc (fuel & l & Hl).
  assert (Hname : ClassEntity.getName c = Some "C"
                  ∨ ClassEntity.getName c = Some "D").
  { apply list_elem_of_In in Hc.
    apply (in_map (λ c, (ClassEntity.getName c,
                         ClassEntity.getExtendedClassName c))) in Hc.
    rewrite Hstore in Hc. simpl in Hc.
    destruct Hc as [Hc|[Hc|[]]]; injection Hc as Hc _; auto. }
  unfold Documentation.getInheritanceList in Hl.
  rewrite (recurse_in_cycle CycleExample.cyclic_doc
             (λ n, n = Some "C" ∨ n = Some "D")) in Hl; [discriminate| |exact Hname].
  intros name [-> | ->].
  - exists (Some "D"). split; [|by right].
    eexists 0, _.
    split; [vm_compute; reflexivity|].
    split; [vm_compute; reflexivity|].
    split; vm_compute; reflexivity.
  - exists (Some "C"). split; [|by left].
    eexists 1, _.
    split; [vm_compute; reflexivity|].
    split; [vm_compute; reflexivity|].
    split; vm_compute; reflexivity.
Qed.

(** C2 (amended): when the names that [@extends] links can be ranked so
    that a class ranks above the class it extends, which rules a cycle
    out, and when the index answers the name of the class and every name
    some class extends with a class entity or with nothing (none of them
    is a name the index object inherits, such as [constructor] or
    [toString], that no class bears), [getInheritanceList] returns within
    [rank + 1] calls of [recurseInheritance], and the list starts with
    the name of the class. *)
Theorem C2_ranked_inheritance_list_returns
        (d : Documentation.t) (rank : JS.jsstr → nat) (classs : ClassEntity.t) :
  (∀ name next, extends_to d name next → rank next < rank name) →
  Documentation.nameToClass d (ClassEntity.getName classs)
    ≠ Some Documentation.NotAClass →
  (∀ name next, extends_to d name next →
                Documentation.nameToClass d next ≠ Some Documentation.NotAClass) →
  ∃ l, Documentation.getInheritanceList
         (S (rank (ClassEntity.getName classs))) d classs
       = Some (Ok (ClassEntity.getName classs :: l)).
Proof.
  intros Hrank Hcl Hcls. unfold Documentation.getInheritanceList.
  destruct (recurse_ranked d rank Hrank Hcls
              (S (rank (ClassEntity.getName classs)))
              (ClassEntity.getName classs) []) as [l Hl]; [lia|exact Hcl|].
  exists l. exact Hl.
Qed.

(** The documentation of [chain.js], where [B] extends [A]. *)
Lemma C2_ranked_inheritance_list_witness :
  ∃ l, Documentation.getInheritanceList
         (S (CycleExample.chain_rank (ClassEntity.getName CycleExample.class_B)))
         CycleExample.chain_doc CycleExample.class_B
       = Some (Ok (ClassEntity.getName CycleExample.class_B :: l)).
Proof.
  assert (Hstep : ∀ name next,
             extends_to CycleExample.chain_doc name next →
             Documentation.nameToClass CycleExample.chain_doc name
             = Some (Documentation.Class 1) ∧ next = Some "A").
  { intros name next (a & c & Ha & Hc & He & Ht).
    destruct a as [|[|a]]; vm_compute in Hc; [| |discriminate];
      injection Hc as <-; vm_compute in He; subst next; [discriminate|].
    by split. }
  apply (C2_ranked_inheritance_list_returns
           CycleExample.chain_doc CycleExample.chain_rank CycleExample.class_B).
  - intros name next [Ha ->]%Hstep.
    unfold CycleExample.chain_rank. rewrite Ha. vm_compute. lia.
  - vm_compute. discriminate.
  - intros name next [_ ->]%Hstep. vm_compute. discriminate.
Defined.

(** Without the two conditions on the index the call may throw: in
    [c.js] the class [A] extends [constructor], a name no class bears
    and the index object inherits; the index answers it with a function,
    and [c.getExtendedClassName()] is no function of it. *)
Lemma inherited_name_throws :
  ∃ d c, Generate ["c.js"] [("c.js", Loader.Content Inputs.constructor_js)] = Some d
         ∧ Documentation.class_at d 0 = Some c
         ∧ ClassEntity.getName c = Some "A"
         ∧ ClassEntity.getExtendedClassName c = Some "constructor"
         ∧ ∀ fuel, Documentation.getInheritanceList (S (S fuel)) d c
                   = Some (Throw "TypeError: c.getExtendedClassName is not a function").
Proof.
  eexists _, _. split; [vm_compute; reflexivity|].
  split; [reflexivity|]. split; [reflexivity|]. split; [reflexivity|].
  intros fuel. reflexivity.
Qed.

(** ** One block of the assembly *)

Lemma report_doc f l m s :
  doc (report f l m s)
  = Documentation.push_error
      (ErrorReport.Mk l f m (S (errorReportIdCounter (counters s)))) (doc s).
Proof. reflexivity. Qed.

Lemma report_lastClass f l m s : lastClass (report f l m s) = lastClass s.
Proof. reflexivity. Qed.

Lemma assemble_todos_frame block s :
  lastClass (assemble_todos block s) = lastClass s
  ∧ Documentation.errors (doc (assemble_todos block s)) = Documentation.errors (doc s)
  ∧ contents (doc (assemble_todos block s)) = contents (doc s).
Proof.
  unfold assemble_todos. generalize (Block.todo block) as ts.
  intros ts. revert s. induction ts as [|t ts IH]; intros s; [done|].
  cbn [fold_left]. destruct (IH (let '(todo, g) :=
           TodoEntity.new [Block.id block] t (counters s) in
         MkAsm (Documentation.push_todo todo (doc s)) (lastClass s) g)) as (H1 & H2 & H3).
  rewrite H1, H2, H3. done.
Qed.

(** The message on unparsed lines begins with its heading. *)
Lemma unparsed_message_heading unparsed :
  ∃ tail, unparsed_message unparsed = String "T" tail.
Proof.
  unfold unparsed_message.
  assert (H : ∀ l acc, (∃ t, acc = String "T" t) →
     ∃ tail, fold_left (λ message (jl : nat * string),
               message +:+ "Line " +:+ JS.num jl.1 +:+ ": " +:+ jl.2 +:+ JS.nls) l acc = String "T" tail).
  { induction l as [|x l IH]; intros acc [t ->]; [by eexists|].
    cbn [fold_left]. apply IH. cbn. by eexists. }
  apply H. cbn. by eexists.
Qed.

Lemma report_unparsed_errors block s :
  lastClass (report_unparsed block s) = lastClass s
  ∧ contents (doc (report_unparsed block s)) = contents (doc s)
  ∧ ∃ residual,
      Documentation.errors (doc (report_unparsed block s))
      = Documentation.errors (doc s) ++ residual
      ∧ (residual = [] ∧ Block.getUnparsedLines2 true block = []
         ∨ Block.getUnparsedLines2 true block ≠ [] ∧
           residual = [ErrorReport.Mk (Some (Block.lineNumber block))
                         (Block.filename block)
                         (unparsed_message (Block.getUnparsedLines2 true block))
                         (S (errorReportIdCounter (counters s)))]).
Proof.
  unfold report_unparsed.
  destruct (Block.getUnparsedLines2 true block) as [|x l] eqn:E; cbn.
  - split; [done|]. split; [done|]. exists []. rewrite app_nil_r. auto.
  - split; [done|]. split; [done|]. eexists. split; [reflexivity|]. right. done.
Qed.

(** C5 (amended): for every block that has no page command and has a
    class command and a return command, the assembly of the block adds
    no class entity, and among the reports it adds there is exactly one
    on the class/return conflict: the first one, with the file name and
    the line number of the block. *)
Theorem C5_class_with_return_is_rejected
        (s : AsmState) (block : Block.t) (c0 : ClassCommand.t) (cs : list ClassCommand.t) :
  Block.page block = [] →
  Block.classs block = c0 :: cs →
  Block.ret block ≠ [] →
  let s' := assemble_block s block in
  Documentation.store (doc s') = Documentation.store (doc s)
  ∧ Documentation.classes (doc s') = Documentation.classes (doc s)
  ∧ ∃ rest,
      Documentation.errors (doc s')
      = Documentation.errors (doc s)
        ++ ErrorReport.Mk (Some (Block.lineNumber block)) (Block.filename block)
             "@class blocks may not contain @return"
             (S (errorReportIdCounter (counters s)))
           :: rest
      ∧ ∀ e, e ∈ rest →
             ErrorReport.message e ≠ "@class blocks may not contain @return".
Proof.
  intros Hpage Hclass Hret s'. subst s'.
  unfold assemble_block, assemble_primary. rewrite Hpage, Hclass.
  unfold assemble_class.
  destruct (Block.ret block) as [|r rs] eqn:Er; [done|]. cbn [length Nat.eqb negb].
  set (s1 := report _ _ _ s).
  set (s2 := if extends_itself c0 block then _ else _).
  assert (Hs2 : ∃ n st, s2 = (S n, st) ∧ lastClass st = lastClass s
     ∧ Documentation.store (doc st) = Documentation.store (doc s)
     ∧ Documentation.classes (doc st) = Documentation.classes (doc s)
     ∧ ∃ rest, Documentation.errors (doc st) = Documentation.errors (doc s)
        ++ ErrorReport.Mk (Some (Block.lineNumber block)) (Block.filename block)
             "@class blocks may not contain @return"
             (S (errorReportIdCounter (counters s))) :: rest
        ∧ ∀ e, e ∈ rest → ErrorReport.message e ≠ "@class blocks may not contain @return").
  { subst s2. destruct (extends_itself c0 block).
    - eexists _, _. split; [reflexivity|]. subst s1. cbn.
      split; [done|]. split; [done|]. split; [done|].
      eexists [_]. rewrite <- app_assoc. split; [reflexivity|].
      intros e ->%list_elem_of_singleton. cbn. discriminate.
    - eexists _, _. split; [reflexivity|]. subst s1. cbn.
      split; [done|]. split; [done|]. split; [done|].
      exists []. split; [reflexivity|]. intros e []%elem_of_nil. }
  destruct Hs2 as (n & st & -> & Hl & Hst & Hcl & rest & Herr & Hrest).
  cbn [Nat.eqb].
  destruct (assemble_todos_frame block st) as (T1 & T2 & T3).
  destruct (report_unparsed_errors block (assemble_todos block st))
    as (U1 & U2 & residual & U3 & U4).
  apply (f_equal o_store) in T3 as T3s. apply (f_equal o_classes) in T3 as T3c.
  apply (f_equal o_store) in U2 as U2s. apply (f_equal o_classes) in U2 as U2c.
  cbn in T3s, T3c, U2s, U2c.
  split; [congruence|]. split; [congruence|].
  exists (rest ++ residual). split.
  - rewrite U3, T2, Herr, <- app_assoc. reflexivity.
  - intros e [He|He]%elem_of_app; [by apply Hrest|].
    destruct U4 as [[-> _]|[_ ->]]; [by apply elem_of_nil in He|].
    apply list_elem_of_singleton in He as ->. cbn.
    destruct (unparsed_message_heading (Block.getUnparsedLines2 true block))
      as [tail ->]. discriminate.
Qed.

(** The block of [c.js], with [@class Foo] and [@return string]. *)
Lemma C5_class_with_return_witness :
  Documentation.classes
    (doc (assemble_block Inputs.start
            (Inputs.first_block Inputs.class_return_js "c.js")))
  = Documentation.classes (doc Inputs.start).
Proof.
  pose proof (C5_class_with_return_is_rejected
                Inputs.start (Inputs.first_block Inputs.class_return_js "c.js")
                (ClassCommand.Mk 1 (Some "Foo")) []) as H.
  cbv zeta in H.
  destruct H as (_ & H & _);
    [vm_compute; reflexivity | vm_compute; reflexivity
     | vm_compute; discriminate | exact H].
Defined.

(** C5 (counterexample): the block of [p.js] has a page command, the
    class command of [Foo] and a return command; it is assembled as a
    page, and no report at all is produced. *)
Lemma C5_page_block_gets_no_report :
  map (λ b, (length (Block.page b),
             map ClassCommand.getName (Block.classs b),
             length (Block.ret b)))
      (Inputs.parsed Inputs.page_class_return_js "p.js")
  = [(1, [Some "Foo"], 1)]
  ∧ Documentation.errors
      <$> Generate ["p.js"] [("p.js", Loader.Content Inputs.page_class_return_js)]
    = Some [].
Proof. split; vm_compute; reflexivity. Qed.

(** ** Runs that differ in their ids only *)

Ltac outline_eq H :=
  unfold outline, contents, anon_outline in H; cbn in H;
  injection H as ? ? ? ? ? ? ? ? ?.

















(** Without a class named [__proto__], what the index answers to a
    name it was not given depends on the name alone. *)
Lemma inherited_plain d key :
  Documentation.name2class d !! "__proto__" = None →
  Documentation.inherited d key
  = if bool_decide (key ∈ Documentation.object_members)
    then Some Documentation.NotAClass else None.
Proof. intros H. unfold Documentation.inherited. by rewrite H. Qed.









Lemma index_no_prototype d :
  no_prototype_class d → Documentation.index_classes d !! "__proto__" = None.
Proof.
  unfold no_prototype_class, Documentation.index_classes.
  assert (H : ∀ l (m : gmap string nat),
             m !! "__proto__" = None →
             Forall (λ a, JS.ToString (Documentation.class_name d a) ≠ "__proto__") l →
             fold_left (λ m a, <[JS.ToString (Documentation.class_name d a) := a]> m)
                       l m !! "__proto__" = None).
  { induction l as [|a l IH]; intros m Hm Hl; [done|].
    apply Forall_cons in Hl as [Ha Hl]. cbn [fold_left]. apply IH; [|done].
    by rewrite lookup_insert_ne. }
  apply H. apply lookup_empty.
Qed.





(** ** Marked and unmarked lines *)

Lemma lineIsParsed_true b i : Block.lineIsParsed b i = true ↔ i ∈ Block.parsedLines b.
Proof. unfold Block.lineIsParsed. by rewrite bool_decide_eq_true. Qed.

Lemma lineIsParsed_false b i : Block.lineIsParsed b i = false ↔ i ∉ Block.parsedLines b.
Proof. unfold Block.lineIsParsed. by rewrite bool_decide_eq_false. Qed.

Lemma markLineAsParsed_NoDup i b :
  NoDup (Block.parsedLines b) → NoDup (Block.parsedLines (Block.markLineAsParsed i b)).
Proof.
  intros H. unfold Block.markLineAsParsed.
  destruct (Block.lineIsParsed b i) eqn:E; [done|].
  apply lineIsParsed_false in E. cbn.
  apply NoDup_app. split; [done|]. split; [|apply NoDup_singleton].
  intros x Hx ->%list_elem_of_singleton. done.
Qed.

Lemma markLineAsParsed_src i b : Block.src (Block.markLineAsParsed i b) = Block.src b.
Proof. unfold Block.markLineAsParsed. by destruct (Block.lineIsParsed b i). Qed.

(** The entries of the unparsed lines: each unmarked line once, under
    its own index. *)
Lemma unparsed_from_elem b i0 ls j l :
  (j, l) ∈ Block.unparsed_from b i0 ls
  ↔ i0 ≤ j ∧ ls !! (j - i0) = Some l ∧ Block.lineIsParsed b j = false.
Proof.
  revert i0. induction ls as [|x ls IH]; intros i0; cbn.
  - split; [by intros ?%elem_of_nil|]. by intros (_ & ? & _).
  - destruct (Block.lineIsParsed b i0) eqn:E.
    + rewrite IH. split.
      * intros (H1 & H2 & H3). split; [lia|]. split; [|done].
        replace (j - i0) with (S (j - S i0)) by lia. done.
      * intros (H1 & H2 & H3).
        assert (j ≠ i0) by congruence.
        split; [lia|]. split; [|done].
        replace (j - i0) with (S (j - S i0)) in H2 by lia. done.
    + rewrite elem_of_cons, IH. split.
      * intros [[= -> ->]|(H1 & H2 & H3)].
        -- rewrite Nat.sub_diag. done.
        -- split; [lia|]. split; [|done].
           replace (j - i0) with (S (j - S i0)) by lia. done.
      * intros (H1 & H2 & H3).
        destruct (decide (j = i0)) as [->|Hne].
        -- left. rewrite Nat.sub_diag in H2. cbn in H2. congruence.
        -- right. split; [lia|]. split; [|done].
           replace (j - i0) with (S (j - S i0)) in H2 by lia. done.
Qed.

Lemma unparsed_from_keys b i0 ls :
  NoDup (map fst (Block.unparsed_from b i0 ls))
  ∧ ∀ k, k ∈ map fst (Block.unparsed_from b i0 ls) → i0 ≤ k.
Proof.
  revert i0. induction ls as [|x ls IH]; intros i0; cbn.
  - split; [constructor|]. by intros k ?%elem_of_nil.
  - destruct (IH (S i0)) as [Hnd Hge].
    destruct (Block.lineIsParsed b i0).
    + split; [done|]. intros k Hk. apply Hge in Hk. lia.
    + cbn. split.
      * constructor; [|done]. intros Hin%Hge. lia.
      * intros k [->|Hk%Hge]%elem_of_cons; lia.
Qed.

Lemma localToGlobal_inj b i j :
  Block.localToGlobalLineNumber b i = Block.localToGlobalLineNumber b j → i = j.
Proof. unfold Block.localToGlobalLineNumber. lia. Qed.

Lemma unparsed_lines2_keys b :
  map fst (Block.getUnparsedLines2 true b)
  = map (Block.localToGlobalLineNumber b) (map fst (Block.unparsed b)).
Proof.
  unfold Block.getUnparsedLines2. rewrite !map_map. reflexivity.
Qed.

(** A line of the cleaned text is marked and absent from the entries, or
    unmarked and entered exactly once, under its global line number and
    with its text. *)
Lemma line_marked_or_entered b i line :
  Block.getLine b i = Some line →
  let key := Block.localToGlobalLineNumber b i in
  let entries := Block.getUnparsedLines2 true b in
  ((i ∈ Block.parsedLines b) ∧ (key ∉ map fst entries))
  ∨ ((i ∉ Block.parsedLines b)
     ∧ count_occ Nat.eq_dec (map fst entries) key = 1
     ∧ (key, line) ∈ entries).
Proof.
  intros Hline key entries.
  assert (Hin : ∀ j, (Block.localToGlobalLineNumber b j ∈ map fst entries)
                     → j ∉ Block.parsedLines b).
  { intros j Hj. subst entries. rewrite unparsed_lines2_keys in Hj.
    apply list_elem_of_In, in_map_iff in Hj as (j' & Hj' & Hin).
    apply localToGlobal_inj in Hj' as ->.
    apply in_map_iff in Hin as ([j0 l0] & Hfst & Hin). cbn in Hfst. subst j0.
    apply list_elem_of_In, unparsed_from_elem in Hin as (_ & _ & Hp).
    by apply lineIsParsed_false. }
  destruct (decide (i ∈ Block.parsedLines b)) as [Hp|Hp].
  - left. split; [done|]. intros Hk. by apply Hin in Hk.
  - right. split; [done|].
    assert (Hmem : (key, line) ∈ entries).
    { subst entries key. unfold Block.getUnparsedLines2.
      apply list_elem_of_In, in_map_iff. exists (i, line). split; [done|].
      apply list_elem_of_In, unparsed_from_elem.
      split; [lia|]. rewrite Nat.sub_0_r. split; [exact Hline|].
      by apply lineIsParsed_false. }
    split; [|done].
    apply NoDup_count_occ'.
    + apply NoDup_ListNoDup. subst entries. rewrite unparsed_lines2_keys.
      apply (@NoDup_fmap_2 _ _ (Block.localToGlobalLineNumber b)
                           (localToGlobal_inj b)).
      apply unparsed_from_keys.
    + apply list_elem_of_In in Hmem. apply (in_map fst) in Hmem. exact Hmem.
Qed.

(** ** What the parsers keep of a block *)

Lemma for_each_inv {A S} (I : S → Prop) (body : A → S → P S) :
  (∀ a acc st r st', I acc → body a acc st = (Ok r, st') → I r) →
  ∀ l acc st r st', I acc → for_each l acc body st = (Ok r, st') → I r.
Proof.
  intros Hbody. induction l as [|a l IH]; intros acc st r st' HI H; cbn in H.
  - unfold ret in H. by simplify_eq.
  - unfold bind in H. destruct (body a acc st) as [[acc'|e] st1] eqn:E; [|done].
    eapply IH; [|exact H]. eapply Hbody; eauto.
Qed.

Lemma bind_Ok {A B} (m : P A) (f : A → P B) st r st' :
  bind m f st = (Ok r, st') →
  ∃ a st1, m st = (Ok a, st1) ∧ f a st1 = (Ok r, st').
Proof.
  unfold bind. destruct (m st) as [[a|e] st1]; [|done]. eauto.
Qed.

Section Marks.
(** A property of blocks that marking a line keeps. *)
Variable J : Block.t → Prop.
Hypothesis J_mark : ∀ i b, J b → J (Block.markLineAsParsed i b).

Lemma parse_lines_inv {C} block
      (body : nat → string → list C * Block.t → P (list C * Block.t)) st r st' :
  (∀ j line acc st r st', J acc.2 → body j line acc st = (Ok r, st') → J r.2) →
  J block → parse_lines block body st = (Ok r, st') → J r.2.
Proof.
  intros Hbody HJ H. unfold parse_lines in H.
  apply (for_each_inv (λ acc : list C * Block.t, J acc.2)
           (λ jl acc, body jl.1 jl.2 acc)
           (λ jl acc st0 r0 st0', Hbody jl.1 jl.2 acc st0 r0 st0')
           _ ([], block) _ _ _ HJ H).
Qed.

Lemma mismatch_inv {C} tag text j line (acc : list C * Block.t) st r st' :
  J acc.2 → mismatch tag text j line acc st = (Ok r, st') → J r.2.
Proof.
  unfold mismatch, bind, ret, push_error. intros HJ H.
  destruct (RegExp.test tag line); cbn in H; by simplify_eq.
Qed.

Ltac line_parser :=
  intros HJ H; eapply parse_lines_inv; [|exact HJ|exact H];
  clear HJ H; intros j line [commands block] ? ? ? HJ H; cbn in HJ;
  repeat case_match; try (by eapply mismatch_inv; eauto);
  unfold ret, bind in H; simplify_eq; cbn; by apply J_mark.

Lemma AuthorCommand_parse_inv b st r st' :
  J b → AuthorCommand_parse b st = (Ok r, st') → J r.2.
Proof. line_parser. Qed.

Lemma BriefCommand_parse_inv b st r st' :
  J b → BriefCommand_parse b st = (Ok r, st') → J r.2.
Proof. line_parser. Qed.

Lemma ClassCommand_parse_inv b st r st' :
  J b → ClassCommand_parse b st = (Ok r, st') → J r.2.
Proof. line_parser. Qed.

Lemma EventCommand_parse_inv b st r st' :
  J b → EventCommand_parse b st = (Ok r, st') → J r.2.
Proof. line_parser. Qed.

Lemma ExtendsCommand_parse_inv b st r st' :
  J b → ExtendsCommand_parse b st = (Ok r, st') → J r.2.
Proof. line_parser. Qed.

Lemma FunctionCommand_parse_inv b st r st' :
  J b → FunctionCommand_parse b st = (Ok r, st') → J r.2.
Proof.
  intros HJ H; eapply parse_lines_inv; [|exact HJ|exact H].
  clear HJ H; intros j line [commands block] ? ? ? HJ H; cbn in HJ.
  destruct (RegExp.match_ Pat.function line); [|by eapply mismatch_inv; eauto].
  unfold bind, FunctionCommand.new, ret, throw in H.
  repeat case_match; simplify_eq; cbn; by apply J_mark.
Qed.

Lemma MemberofCommand_parse_inv b st r st' :
  J b → MemberofCommand_parse b st = (Ok r, st') → J r.2.
Proof. line_parser. Qed.

Lemma LibraryCommand_parse_inv b st r st' :
  J b → LibraryCommand_parse b st = (Ok r, st') → J r.2.
Proof. line_parser. Qed.

Lemma MethodCommand_parse_inv b st r st' :
  J b → MethodCommand_parse b st = (Ok r, st') → J r.2.
Proof. line_parser. Qed.

Lemma PageCommand_parse_inv b st r st' :
  J b → PageCommand_parse b st = (Ok r, st') → J r.2.
Proof. line_parser. Qed.

Lemma ParamCommand_parse_inv b st r st' :
  J b → ParamCommand_parse b st = (Ok r, st') → J r.2.
Proof.
  intros HJ H. unfold ParamCommand_parse in H.
  apply bind_Ok in H as (acc & st1 & H & Hr). unfold ret in Hr.
  injection Hr as <- <-. revert H.
  apply (for_each_inv (λ acc : list ParamCommand.t * Block.t * JS.jsstr, J acc.1.2));
    [|exact HJ].
  intros [j line] [[commands block] desc] ? ? ? HJ' H. cbn in HJ', H.
  destruct (RegExp.match_ Pat.param line).
  - unfold ret in H. simplify_eq. cbn. by apply J_mark.
  - apply bind_Ok in H as (acc' & ? & E & H). unfold ret in H. simplify_eq. cbn.
    eapply mismatch_inv; [|exact E]. exact HJ'.
Qed.

Lemma PropertyCommand_parse_inv b st r st' :
  J b → PropertyCommand_parse b st = (Ok r, st') → J r.2.
Proof. line_parser. Qed.

Lemma ReturnCommand_parse_inv b st r st' :
  J b → ReturnCommand_parse b st = (Ok r, st') → J r.2.
Proof. line_parser. Qed.

Lemma SeeCommand_parse_inv b st r st' :
  J b → SeeCommand_parse b st = (Ok r, st') → J r.2.
Proof. line_parser. Qed.

Lemma TodoCommand_parse_inv b st r st' :
  J b → TodoCommand_parse b st = (Ok r, st') → J r.2.
Proof. line_parser. Qed.

Lemma VersionCommand_parse_inv b st r st' :
  J b → VersionCommand_parse b st = (Ok r, st') → J r.2.
Proof. line_parser. Qed.

Lemma markLineOf_inv l b : J b → J (markLineOf l b).
Proof. unfold markLineOf. destruct (Block.getLineNumber b l); auto. Qed.

Lemma fold_markLineOf_inv ls b :
  J b → J (fold_left (λ b l, markLineOf l b) ls b).
Proof.
  revert b. induction ls as [|l ls IH]; intros b HJ; cbn; [done|].
  apply IH. by apply markLineOf_inv.
Qed.

Lemma DescriptionCommand_parse_inv b st r st' :
  J b → DescriptionCommand_parse b st = (Ok r, st') → J r.2.
Proof.
  unfold DescriptionCommand_parse, ret, throw. intros HJ H.
  repeat case_match; simplify_eq; cbn; [|done].
  by apply fold_markLineOf_inv.
Qed.

Lemma markChunkAsParsed_inv chunk b : J b → J (Block.markChunkAsParsed chunk b).
Proof.
  unfold Block.markChunkAsParsed. intros HJ.
  destruct (JS.indexOf (Block.src b) chunk) as [idx|]; [|done].
  generalize (seq (JS.count_nl (JS.substring 0 idx (Block.src b)))
    (S (JS.count_nl (JS.substring idx (idx + String.length chunk) (Block.src b))
          + JS.count_nl (JS.substring 0 idx (Block.src b)))
     - JS.count_nl (JS.substring 0 idx (Block.src b)))) as ls.
  intros ls. revert b HJ.
  induction ls as [|l ls IH]; intros b HJ; cbn; [done|].
  apply IH. by apply J_mark.
Qed.

Lemma ExampleCommand_parse_inv b st r st' :
  J b → ExampleCommand_parse b st = (Ok r, st') → J r.2.
Proof.
  unfold ExampleCommand_parse, ret, throw. intros HJ H.
  repeat case_match; simplify_eq; cbn; [|done].
  by apply markChunkAsParsed_inv.
Qed.
End Marks.

(** One parser call in the chain of [parseBlock]: the call returned, and
    the invariant [HJ] moves to the block it returned. *)
Ltac parser_step lem H HJ Hmark :=
  let E := fresh "E" in
  let c := fresh "c" in
  let b := fresh "b" in
  apply bind_Ok in H as ([c b] & ? & E & H);
  apply (lem _ Hmark _ _ _ _ HJ) in E; clear HJ; rename E into HJ; cbn in HJ.

(** A block that comes out of [parseBlock] has each of its marked lines
    marked once. *)
Lemma parseBlock_NoDup src file matched st block st' :
  parseBlock src file matched st = (Ok block, st') →
  NoDup (Block.parsedLines block).
Proof.
  unfold parseBlock. intros H.
  apply bind_Ok in H as (b0 & st0 & E0 & H).
  assert (H0 : NoDup (Block.parsedLines b0)).
  { unfold Block.new in E0. cbn in E0. simplify_eq. cbn. constructor. }
  clear E0.
  set (J := λ b, NoDup (Block.parsedLines b)).
  assert (Hmark : ∀ i b, J b → J (Block.markLineAsParsed i b))
    by (intros; by apply markLineAsParsed_NoDup).
  match type of H with
  | bind (_ ?b) _ _ = _ => assert (HJ : J b) by exact H0
  end.
  clear H0.
  parser_step AuthorCommand_parse_inv H HJ Hmark.
  parser_step BriefCommand_parse_inv H HJ Hmark.
  parser_step ClassCommand_parse_inv H HJ Hmark.
  parser_step DescriptionCommand_parse_inv H HJ Hmark.
  parser_step EventCommand_parse_inv H HJ Hmark.
  parser_step ExampleCommand_parse_inv H HJ Hmark.
  parser_step ExtendsCommand_parse_inv H HJ Hmark.
  parser_step FunctionCommand_parse_inv H HJ Hmark.
  parser_step LibraryCommand_parse_inv H HJ Hmark.
  parser_step MemberofCommand_parse_inv H HJ Hmark.
  parser_step MethodCommand_parse_inv H HJ Hmark.
  parser_step PageCommand_parse_inv H HJ Hmark.
  parser_step ParamCommand_parse_inv H HJ Hmark.
  parser_step PropertyCommand_parse_inv H HJ Hmark.
  parser_step ReturnCommand_parse_inv H HJ Hmark.
  parser_step SeeCommand_parse_inv H HJ Hmark.
  parser_step TodoCommand_parse_inv H HJ Hmark.
  parser_step VersionCommand_parse_inv H HJ Hmark.
  unfold ret in H. simplify_eq. exact HJ.
Qed.

Lemma assemble_primary_NoDup block s :
  NoDup (Block.parsedLines block) →
  NoDup (Block.parsedLines (assemble_primary block s).1).
Proof.
  intros H. unfold assemble_primary.
  destruct (Block.page block) as [|p0 ?].
  2:{ unfold assemble_page. cbn.
      generalize (Block.getUnparsedLines2 false block) as ls. intros ls.
      revert block H. induction ls as [|jl ls IH]; intros block H; cbn; [done|].
      apply IH. by apply markLineAsParsed_NoDup. }
  destruct (Block.classs block) as [|c0 ?].
  2:{ unfold assemble_class. by repeat case_match. }
  destruct (Block.file block) as [|? ?]; [|done].
  destruct (Block.library block) as [|l0 ?]; [|done].
  destruct (Block.func block) as [|f0 ?]; [|done].
  assert (Hf : NoDup (Block.parsedLines (memberof_fallback s block))).
  { unfold memberof_fallback. by repeat case_match. }
  destruct (Block.method block) as [|m0 ?].
  2:{ unfold assemble_method. by repeat case_match. }
  destruct (Block.property block) as [|p0 ?]; [done|].
  unfold assemble_property. by repeat case_match.
Qed.

(** For every block that [parseBlock] returns, once the block is
    assembled, the assembly has added at most one report on unparsed
    lines, the last of its reports; and each line of the cleaned text is
    either marked, once, and absent from that report, or not marked and
    entered exactly once in the report, under its global line number and
    with its text. Whether the marked line is the line a parser read is
    another matter: see the theorem that follows. *)
Lemma line_marked_or_reported_once
        (src file matched : string) (st st' : PState) (block : Block.t)
        (s : AsmState) :
  parseBlock src file matched st = (Ok block, st') →
  let block' := (assemble_primary block s).1 in
  let entries := Block.getUnparsedLines2 true block' in
  ∃ residual,
    Documentation.errors (doc (assemble_block s block))
    = Documentation.errors (doc (assemble_primary block s).2) ++ residual
    ∧ (residual = [] ∧ entries = []
       ∨ ∃ e, residual = [e]
              ∧ ErrorReport.file e = Block.filename block'
              ∧ ErrorReport.message e = unparsed_message entries)
    ∧ ∀ i line,
        Block.getLine block' i = Some line →
        let key := Block.localToGlobalLineNumber block' i in
        (count_occ Nat.eq_dec (Block.parsedLines block') i = 1
         ∧ (key ∉ map fst entries))
        ∨ ((i ∉ Block.parsedLines block')
           ∧ residual ≠ []
           ∧ count_occ Nat.eq_dec (map fst entries) key = 1
           ∧ (key, line) ∈ entries).
Proof.
  intros Hparse block' entries.
  apply parseBlock_NoDup in Hparse.
  apply (assemble_primary_NoDup _ s) in Hparse. fold block' in Hparse.
  unfold assemble_block.
  destruct (assemble_primary block s) as [b1 s1] eqn:E1. cbn in block'.
  subst block'.
  destruct (assemble_todos_frame b1 s1) as (_ & T2 & _).
  destruct (report_unparsed_errors b1 (assemble_todos b1 s1))
    as (_ & _ & residual & U3 & U4).
  exists residual. rewrite U3, T2. split; [done|].
  fold entries in U4. split.
  { destruct U4 as [[-> ?]|[? ->]]; [by left|]. right. by eexists. }
  intros i line Hline.
  destruct (line_marked_or_entered b1 i line Hline) as [[Hp Hk]|(Hp & Hc & Hm)].
  - left. split; [|exact Hk].
    apply NoDup_count_occ'; [by apply NoDup_ListNoDup|by apply list_elem_of_In].
  - right. split; [exact Hp|]. split; [|by split].
    destruct U4 as [[_ Hnil]|[_ ->]]; [|done].
    fold entries in Hm. rewrite Hnil in Hm. by apply elem_of_nil in Hm.
Qed.

(** The block of [s.js], whose second line no parser takes. *)
Lemma stray_line_is_reported :
  let block := Inputs.first_block Inputs.stray_js "s.js" in
  Block.getLine (assemble_primary block Inputs.start).1 1 = Some "stray words"
  ∧ ∃ residual,
      Documentation.errors (doc (assemble_block Inputs.start block))
      = Documentation.errors (doc (assemble_primary block Inputs.start).2)
        ++ residual
      ∧ length residual = 1.
Proof.
  intros block. split; [vm_compute; reflexivity|].
  pose (matched := default "" (head (RegExp.match_all BlockPat.multi
                                                      Inputs.stray_js))).
  pose (st := MkPState initial_globals []).
  destruct (line_marked_or_reported_once
              Inputs.stray_js "s.js" matched st
              (parseBlock Inputs.stray_js "s.js" matched st).2
              block Inputs.start)
    as (residual & Herr & Hres & _).
  - vm_compute. reflexivity.
  - exists residual. split; [exact Herr|].
    destruct Hres as [[_ Hnil]|(e & -> & _)]; [|reflexivity].
    vm_compute in Hnil. discriminate.
Qed.

(** C1 (what the code does): the comment of [fix.js] has the lines
    [TODO: fix me] and [@desc fix]. [DescriptionCommand.parse] reads the
    second line, takes [fix] as the content, and marks the line that
    [getLineNumber] finds for this text: the first line of the block that
    contains it, which is the line before. No other parser makes a
    command of the block. So the first line, which no parser read, is
    marked and stands in no report, and the second line, which was read,
    is the one reported as unparsed. *)
Theorem C1_description_marks_another_line :
  let block := Inputs.first_block Inputs.fix_js "fix.js" in
  Block.lines block = ["TODO: fix me"; "@desc fix"]
  ∧ block = Block.Mk 1 0 [0] "fix.js" (Block.src block) (Block.rawSrc block) 1
                     [] [] [] [DescriptionCommand.Mk 1 (Some "fix")]
                     [] [] [] [] [] [] [] [] [] [] [] [] [] [] []
  ∧ Block.getLineNumber (Inputs.line_block (Block.src block)) "fix" = Some 0
  ∧ Block.getUnparsedLines2 true block = [(3, "@desc fix")]
  ∧ Generate ["fix.js"] [("fix.js", Loader.Content Inputs.fix_js)]
    = Some (Documentation.Mk [] [] [] [] [] None []
              [ErrorReport.Mk (Some 1) "fix.js"
                              "There was unparsed code:

Line 3: @desc fix
" 1]
              [] [] ∅ ∅).
Proof. vm_compute. repeat split; reflexivity. Qed.

(** ** What the assembly never takes back *)

Lemma grows_refl s : grows s s.
Proof. unfold grows; split; [|split]; reflexivity. Qed.

Lemma grows_trans s1 s2 s3 : grows s1 s2 → grows s2 s3 → grows s1 s3.
Proof.
  intros (A1 & A2 & A3) (B1 & B2 & B3).
  split; [|split]; etrans; eauto.
Qed.

Lemma grows_contents s s' :
  contents (doc s') = contents (doc s) → grows s s'.
Proof.
  intros H. unfold contents in H. injection H as H1 _ H3 _ _ H6 _ _ _.
  unfold grows. by rewrite H1, H3, H6.
Qed.

Lemma addresses_ok_contents s s' :
  contents (doc s') = contents (doc s) → addresses_ok s → addresses_ok s'.
Proof.
  intros H. unfold contents in H. injection H as H1 _ H3 _ _ H6 _ _ _.
  unfold addresses_ok. by rewrite H1, H3.
Qed.

Lemma report_contents f l m s : contents (doc (report f l m s)) = contents (doc s).
Proof. reflexivity. Qed.

(** The class branch on an accepted block. *)
Lemma assemble_class_accepted c0 block s :
  Block.ret block = [] → extends_itself c0 block = false →
  ∃ e g,
    assemble_class c0 block s
    = (block, MkAsm (Documentation.push_class e (doc s))
                    (Some (length (Documentation.store (doc s)))) g)
    ∧ ClassEntity.getName e = ClassCommand.getName c0
    ∧ ClassEntity.methodEntities e = [].
Proof.
  intros Hr He. unfold assemble_class. rewrite Hr, He. cbn.
  eexists _, _. split; [reflexivity|]. done.
Qed.

Lemma assemble_primary_grows block s :
  grows s (assemble_primary block s).2
  ∧ (addresses_ok s → addresses_ok (assemble_primary block s).2).
Proof.
  assert (Hsame : ∀ s',
            Documentation.store (doc s') = Documentation.store (doc s) →
            Documentation.classes (doc s') = Documentation.classes (doc s) →
            Documentation.methods (doc s') = Documentation.methods (doc s) →
            grows s s' ∧ (addresses_ok s → addresses_ok s')).
  { intros s' H1 H2 H3. unfold grows, addresses_ok. rewrite H1, H2, H3.
    split; [split; [|split]; reflexivity|done]. }
  unfold assemble_primary.
  destruct (Block.page block) as [|p0 ?].
  2:{ cbn. split.
      - unfold grows; cbn; split; [|split]; reflexivity.
      - intros H a Ha. by apply H. }
  destruct (Block.classs block) as [|c0 ?].
  2:{ unfold assemble_class.
      destruct (negb (length (Block.ret block) =? 0)), (extends_itself c0 block);
        cbn -[report]; try (by apply Hsame).
      split.
      - unfold grows; cbn; split; [|split]; try reflexivity; apply prefix_app_r; reflexivity.
      - intros H a Ha. cbn in *. rewrite length_app. cbn.
        apply elem_of_app in Ha as [Ha|Ha%list_elem_of_singleton].
        + apply H in Ha. lia.
        + lia. }
  destruct (Block.file block) as [|? ?]; [|by apply Hsame].
  destruct (Block.library block) as [|l0 ?]; [|by apply Hsame].
  destruct (Block.func block) as [|f0 ?]; [|by apply Hsame].
  destruct (Block.method block) as [|m0 ?].
  2:{ unfold assemble_method.
      destruct (Block.memberof (memberof_fallback s block)) as [|mo [|? ?]];
        cbn; try (by apply Hsame).
      split.
      - unfold grows; cbn; split; [|split]; try reflexivity; apply prefix_app_r; reflexivity.
      - intros H a Ha. by apply H. }
  destruct (Block.property block) as [|p0 ?]; [by apply Hsame|].
  unfold assemble_property.
  destruct (Block.memberof (memberof_fallback s block)) as [|mo [|? ?]];
    cbn -[report]; by apply Hsame.
Qed.

Lemma assemble_rest_contents block s :
  contents (doc (report_unparsed block (assemble_todos block s)))
  = contents (doc s).
Proof.
  destruct (assemble_todos_frame block s) as (_ & _ & T).
  destruct (report_unparsed_errors block (assemble_todos block s)) as (_ & U & _).
  congruence.
Qed.

Lemma assemble_block_grows s block :
  grows s (assemble_block s block)
  ∧ (addresses_ok s → addresses_ok (assemble_block s block)).
Proof.
  unfold assemble_block.
  destruct (assemble_primary_grows block s) as [Hg Ha].
  destruct (assemble_primary block s) as [b1 s1]. cbn in Hg, Ha.
  pose proof (assemble_rest_contents b1 s1) as Hc.
  split.
  - eapply grows_trans; [exact Hg|]. by apply grows_contents.
  - intros H. eapply addresses_ok_contents; [exact Hc|]. by apply Ha.
Qed.

Lemma assemble_blocks_grows blocks s :
  grows s (assemble_blocks blocks s)
  ∧ (addresses_ok s → addresses_ok (assemble_blocks blocks s)).
Proof.
  unfold assemble_blocks. revert s.
  induction blocks as [|b bs IH]; intros s; cbn.
  - split; [apply grows_refl|done].
  - destruct (assemble_block_grows s b) as [G1 A1].
    destruct (IH (assemble_block s b)) as [G2 A2].
    split; [by eapply grows_trans|auto].
Qed.

Lemma assemble_start_ok errors g : addresses_ok (assemble_start errors g).
Proof.
  unfold addresses_ok, assemble_start. cbn.
  assert (H : ∀ d, Documentation.classes
                     (fold_left (λ d e, Documentation.push_error e d) errors d)
                   = Documentation.classes d).
  { induction errors as [|e es IH]; intros d; cbn; [done|]. by rewrite IH. }
  rewrite H. cbn. by intros a ?%elem_of_nil.
Qed.

(** ** The index and the attachments *)

Lemma sort_insert_elem {A} (gt : A → A → bool) x y l :
  y ∈ sort_insert gt x l ↔ y = x ∨ y ∈ l.
Proof.
  induction l as [|z l IH]; cbn.
  - rewrite list_elem_of_singleton, elem_of_nil. tauto.
  - destruct (gt z x); rewrite !elem_of_cons; [|rewrite IH]; tauto.
Qed.

Lemma js_sort_elem {A} (gt : A → A → bool) y l :
  y ∈ js_sort gt l ↔ y ∈ l.
Proof.
  unfold js_sort.
  assert (H : ∀ acc, y ∈ fold_left (λ acc x, sort_insert gt x acc) l acc
                     ↔ y ∈ l ∨ y ∈ acc).
  { induction l as [|x l IH]; intros acc; cbn.
    - rewrite elem_of_nil. tauto.
    - rewrite IH, sort_insert_elem, elem_of_cons. tauto. }
  rewrite H, elem_of_nil. tauto.
Qed.






(** What every step of an attachment loop keeps, the loop keeps when it
    returns. *)
Lemma attach_each_keeps {A} (R : AsmState → AsmState → Prop)
      (f : AsmState → A → outcome AsmState) l :
  (∀ s, R s s) →
  (∀ s1 s2 s3, R s1 s2 → R s2 s3 → R s1 s3) →
  (∀ s x s', f s x = Ok s' → R s s') →
  ∀ s s', attach_each f l s = Ok s' → R s s'.
Proof.
  intros Hrefl Htrans Hf. induction l as [|x l IH]; intros s s'; cbn [attach_each].
  - intros [= <-]. apply Hrefl.
  - destruct (f s x) as [s1|e] eqn:E; [|done].
    intros H. eapply Htrans; [by eapply Hf|by apply IH].
Qed.


(** Of the classes of one name, the index keeps the last. *)
Lemma index_fold_last (key : nat → string) l (m0 : gmap string nat) k :
  fold_left (λ m a, <[key a := a]> m) l m0 !! k
  = match last (filter (λ a, key a = k) l) with
    | Some a => Some a
    | None => m0 !! k
    end.
Proof.
  revert m0. induction l as [|a l IH]; intros m0; cbn [fold_left]; [done|].
  rewrite IH. destruct (decide (key a = k)) as [E|E].
  - rewrite filter_cons_True by done. rewrite last_cons.
    destruct (last _); [done|]. rewrite <- E. apply lookup_insert_eq.
  - rewrite filter_cons_False by done.
    destruct (last _); [done|]. by rewrite lookup_insert_ne.
Qed.

(** The index gives a class entity exactly for the names it was given. *)
Lemma nameToClass_Class d name a :
  Documentation.nameToClass d name = Some (Documentation.Class a)
  ↔ Documentation.name2class d !! JS.ToString name = Some a.
Proof.
  unfold Documentation.nameToClass, Documentation.inherited.
  destruct (Documentation.name2class d !! JS.ToString name) as [b|].
  - split; congruence.
  - split; [|done].
    destruct (_ ≫= _); repeat case_match; done.
Qed.



















(** When a later block defines a class of the same name, the index keeps
    the later class: in [t.js] the method [bar] follows the first class
    [Baz] and is attached to the second one, the class entity of the
    third block. *)
Lemma method_goes_to_the_later_class :
  (λ d, (map (λ c, (ClassEntity.getName c, Entity.block (ClassEntity.entity c),
                    map MethodEntity.getName (ClassEntity.methodEntities c)))
             (Documentation.store d),
         Documentation.nameToClass d (Some "Baz")))
    <$> Generate ["t.js"] [("t.js", Loader.Content Inputs.twice_js)]
  = Some ([(Some "Baz", [1], []); (Some "Baz", [3], [Some "bar"])],
          Some (Documentation.Class 1)).
Proof. vm_compute. reflexivity. Qed.

(** The order of the blocks handed to [makeEntities] is that of
    [parseBlocks]: a block stands where its text occurs first in the
    file. In [r.js] the comment of the method [init] stands after the
    class [Apple] and again after the class [Banana]; both blocks get
    line 4, the second one comes before the block of [Banana], and both
    methods are attached to [Apple]. *)
Lemma repeated_comment_is_moved :
  map (λ b, (Block.id b, Block.lineNumber b,
             map ClassCommand.getName (Block.classs b),
             map MethodCommand.getName (Block.method b)))
      (Inputs.parsed Inputs.repeated_js "r.js")
  = [(1, 1, [Some "Apple"], []); (2, 4, [], [Some "init"]);
     (4, 4, [], [Some "init"]); (3, 7, [Some "Banana"], [])]
  ∧ (λ d, map (λ c, (ClassEntity.getName c,
                     map (λ m, Entity.block (MethodEntity.entity m))
                         (ClassEntity.methodEntities c)))
              (Documentation.store d))
      <$> Generate ["r.js"] [("r.js", Loader.Content Inputs.repeated_js)]
    = Some [(Some "Apple", [[2]; [4]]); (Some "Banana", [])].
Proof. split; vm_compute; reflexivity. Qed.

(** ** Matching a run of characters *)

Import RegExp.

Arguments consumed : simpl never.

Lemma consumed_run bef bef' run rest caps caps' :
  consumed (MState bef (run ++ rest) caps) (MState bef' rest caps') = run.
Proof.
  unfold consumed. cbn. rewrite length_app.
  replace (length run + length rest - length rest) with (length run) by lia.
  by rewrite take_app_length.
Qed.

Lemma repeat_matcher_unfold fuel m gs min max x (c : cont) :
  repeat_matcher (S fuel) m gs min max x c
  = match max with
    | Some O => c x
    | _ =>
        let d : cont := λ y,
          if (min =? 0) && (length (after y) =? length (after x)) then None
          else repeat_matcher fuel m gs (pred min) (pred <$> max) y c in
        let xr := clear_caps gs x in
        if min =? 0 then
          match m xr d with
          | Some z => Some z
          | None => c x
          end
        else m xr d
    end.
Proof. reflexivity. Qed.

Section Runs.
Variable m : mstate → cont → option mstate.
Variable p : ascii → bool.
Hypothesis m_step : ∀ x c, m x c = step1 p x c.

(** A greedy star over single characters takes the whole run when what
    follows the star matches after it. *)
Lemma star_run run rest input bef caps (c : cont) r fuel :
  input = run ++ rest →
  run_of p run rest →
  length run < fuel →
  c (MState (rev run ++ bef) rest caps) = Some r →
  repeat_matcher fuel m [] 0 None (MState bef input caps) c = Some r.
Proof.
  intros -> [Hrun Hrest]. revert bef fuel.
  induction Hrun as [|a run Ha Hrun IH]; intros bef fuel Hfuel Hc.
  - destruct fuel as [|fuel]; [lia|].
    rewrite repeat_matcher_unfold. cbn [clear_caps fold_right Nat.eqb].
    rewrite m_step.
    unfold step1. cbn. destruct rest as [|b rest]; [exact Hc|].
    rewrite Hrest. exact Hc.
  - destruct fuel as [|fuel]; [cbn in Hfuel; lia|].
    rewrite repeat_matcher_unfold. cbn [clear_caps fold_right Nat.eqb].
    rewrite m_step.
    unfold step1 at 1. cbn [after before RegExp.caps app]. rewrite Ha.
    cbn [andb length Init.Nat.pred fmap option_fmap option_map].
    replace (length (run ++ rest) =? S (length (run ++ rest))) with false
      by (symmetry; apply Nat.eqb_neq; lia).
    rewrite (IH (a :: bef) fuel); [done|cbn in Hfuel; lia|].
    cbn in Hc. by rewrite <- app_assoc in Hc.
Qed.

(** The same for a greedy plus, over a run that is not empty. *)
Lemma plus_run run rest input bef caps (c : cont) r fuel :
  input = run ++ rest →
  run_of p run rest →
  run ≠ [] →
  length run < fuel →
  c (MState (rev run ++ bef) rest caps) = Some r →
  repeat_matcher fuel m [] 1 None (MState bef input caps) c = Some r.
Proof.
  intros -> [Hrun Hrest] Hne Hfuel Hc.
  destruct run as [|a run]; [done|].
  apply Forall_cons in Hrun as [Ha Hrun].
  destruct fuel as [|fuel]; [cbn in Hfuel; lia|].
  rewrite repeat_matcher_unfold. cbn [clear_caps fold_right Nat.eqb].
  rewrite m_step.
  unfold step1 at 1. cbn [after before RegExp.caps app]. rewrite Ha.
  cbn [andb length Init.Nat.pred fmap option_fmap option_map].
  apply (star_run run rest); [done|by split|cbn in Hfuel; lia|].
  cbn in Hc. by rewrite <- app_assoc in Hc.
Qed.
End Runs.

Arguments repeat_matcher : simpl never.

Lemma set_has_space a : set_has false [CSpace] a = is_space a.
Proof. unfold set_has. cbn. by rewrite orb_false_r. Qed.

Lemma set_has_nonspace a : set_has true [CSpace] a = negb (is_space a).
Proof. unfold set_has. cbn. by rewrite orb_false_r. Qed.

Lemma chars_app s t : JS.chars (s +:+ t) = JS.chars s ++ JS.chars t.
Proof.
  unfold JS.chars. induction s as [|a s IH]; [done|].
  simpl. f_equal. exact IH.
Qed.

Lemma str_chars s : JS.str (JS.chars s) = s.
Proof. apply string_of_list_ascii_of_string. Qed.

(** A word is a run of characters other than white space up to the
    end or up to a blank. *)
Lemma word_run w rest :
  word w →
  match rest with [] => True | a :: _ => is_space a = true end →
  run_of (set_has true [CSpace]) (JS.chars w) rest.
Proof.
  intros [_ Hw] Hrest. split.
  - eapply Forall_impl; [exact Hw|]. intros a Ha. cbn in Ha.
    by rewrite set_has_nonspace, Ha.
  - destruct rest as [|a rest]; [done|]. by rewrite set_has_nonspace, Hrest.
Qed.

(** One blank before a word is a run of white space. *)
Lemma blank_run w rest :
  word w → run_of (set_has false [CSpace]) [" "%char] (JS.chars w ++ rest).
Proof.
  intros [Hne Hw]. split; [by repeat constructor|].
  destruct w as [|a w]; [done|].
  unfold JS.chars in *. cbn [list_ascii_of_string app] in *.
  apply Forall_cons in Hw as [Ha _]. by rewrite set_has_space.
Qed.

Lemma word_chars w : word w → JS.chars w ≠ [].
Proof. intros [Hne _]. by destruct w. Qed.

Lemma search_here ml r n bef aft y :
  matcher ml r (MState bef aft (replicate n None)) Some = Some y →
  search ml r n bef aft = Some (MState bef aft (replicate n None), y).
Proof. intros H. destruct aft; cbn [search]; by rewrite H. Qed.

Lemma step_is_step1 p : ∀ x c, (λ (x : mstate) (c : cont), step1 p x c) x c = step1 p x c.
Proof. reflexivity. Qed.

Lemma consumed_all bef bef' input caps caps' :
  consumed (MState bef input caps) (MState bef' [] caps') = input.
Proof. unfold consumed. cbn. rewrite Nat.sub_0_r. apply firstn_all. Qed.

Lemma consumed_to_end x y : after y = [] → consumed x y = after x.
Proof.
  intros H. unfold consumed. rewrite H. cbn. rewrite Nat.sub_0_r.
  apply firstn_all.
Qed.

(** The end of a proof that a pattern matches a line: what is left of
    the optional parts is evaluated, and the captures are read. *)
Ltac finish_match :=
  repeat (rewrite repeat_matcher_unfold; cbn);
  reflexivity.

Lemma consumed_same bef bef' l caps caps' :
  consumed (MState bef l caps) (MState bef' l caps') = [].
Proof. unfold consumed. cbn. by rewrite Nat.sub_diag. Qed.

Ltac expose_captures :=
  unfold result_array;
  rewrite consumed_to_end by reflexivity;
  cbn -[JS.chars JS.str consumed].

Ltac close_captures :=
  rewrite ?consumed_same, ?consumed_all, ?consumed_run, ?str_chars;
  reflexivity.

Ltac read_captures := expose_captures; close_captures.

Lemma match_return dt :
  word dt →
  RegExp.match_ Pat.return_ ("@return " +:+ dt)
  = Some [Some ("@return " +:+ dt); Some dt; None].
Proof.
  intros Hdt.
  unfold match_, Pat.return_, Pat.re. cbn [flag_m pattern].
  unfold ncaps. cbn [pattern groups seq lit app list_max fold_right Nat.max].
  erewrite search_here.
  2:{ rewrite chars_app. cbn.
      rewrite repeat_matcher_unfold. cbn.
      eapply (plus_run _ _ (step_is_step1 _) [" "%char] (JS.chars dt));
        [reflexivity| |done|cbn; lia|].
      { rewrite <- (app_nil_r (JS.chars dt)). by apply blank_run. }
      cbn.
      eapply (star_run _ _ (step_is_step1 _) (JS.chars dt) []);
        [by rewrite app_nil_r|by apply word_run|lia|].
      cbn. finish_match. }
  read_captures.
Qed.

Lemma match_param dt name :
  word dt → word name →
  RegExp.match_ Pat.param ("@param " +:+ dt +:+ " " +:+ name)
  = Some [Some ("@param " +:+ dt +:+ " " +:+ name); Some dt; Some name;
          None; None].
Proof.
  intros Hdt Hname.
  unfold match_, Pat.param, Pat.re. cbn [flag_m pattern].
  unfold ncaps. cbn [pattern groups seq lit app list_max fold_right Nat.max].
  erewrite search_here.
  2:{ rewrite !chars_app. cbn.
      eapply (plus_run _ _ (step_is_step1 _) [" "%char]);
        [reflexivity|by apply blank_run|done|cbn; lia|].
      cbn.
      eapply (star_run _ _ (step_is_step1 _) (JS.chars dt));
        [reflexivity|by apply word_run|rewrite length_app; lia|].
      cbn.
      eapply (plus_run _ _ (step_is_step1 _) [" "%char] (JS.chars name));
        [reflexivity| |done|cbn; lia|].
      { rewrite <- (app_nil_r (JS.chars name)). by apply blank_run. }
      cbn.
      eapply (plus_run _ _ (step_is_step1 _) (JS.chars name) []);
        [by rewrite app_nil_r|by apply word_run|by apply word_chars|lia|].
      cbn. finish_match. }
  read_captures.
Qed.

Lemma first_alternative (o k : option mstate) r :
  o = Some r → match o with Some z => Some z | None => k end = Some r.
Proof. by intros ->. Qed.

Lemma match_function name :
  word name →
  RegExp.match_ Pat.function ("@function " +:+ name)
  = Some [Some ("@function " +:+ name); Some "@function"; Some "@function";
          None; Some name; None; None].
Proof.
  intros Hname.
  unfold match_, Pat.function, Pat.re. cbn [flag_m pattern].
  unfold ncaps. cbn [pattern groups seq lit app list_max fold_right Nat.max].
  erewrite search_here.
  2:{ rewrite !chars_app. cbn. unfold set_cap. cbn.
      apply first_alternative.
      eapply (plus_run _ _ (step_is_step1 _) [" "%char] (JS.chars name));
        [reflexivity| |done|cbn; lia|].
      { rewrite <- (app_nil_r (JS.chars name)). by apply blank_run. }
      cbn.
      eapply (plus_run _ _ (step_is_step1 _) (JS.chars name) []);
        [by rewrite app_nil_r|by apply word_run|by apply word_chars|lia|].
      cbn. finish_match. }
  expose_captures.
  change ("@"%char :: "f"%char :: "u"%char :: "n"%char :: "c"%char :: "t"%char
          :: "i"%char :: "o"%char :: "n"%char :: " "%char :: JS.chars name)
    with (JS.chars "@function" ++ " "%char :: JS.chars name).
  close_captures.
Qed.

(** ** One-line blocks *)

Lemma split_nl_go_none cur l :
  Forall (λ a, a ≠ JS.nl) l → JS.split_nl_go cur l = [rev cur ++ l].
Proof.
  intros H. revert cur. induction H as [|a l Ha Hl IH]; intros cur; cbn.
  - by rewrite app_nil_r.
  - destruct (Ascii.eqb_spec a JS.nl) as [->|_]; [done|].
    rewrite IH. cbn. by rewrite <- app_assoc.
Qed.

Lemma single_line text :
  Forall (λ a, a ≠ JS.nl) (JS.chars text) →
  Block.getUnparsedLines2 false (Inputs.line_block text) = [(0, text)].
Proof.
  intros H. unfold Block.getUnparsedLines2, Block.unparsed, Block.lines.
  cbn [Inputs.line_block Block.new fst Block.src].
  unfold JS.split_nl. rewrite (split_nl_go_none [] _ H). cbn [rev app map].
  rewrite str_chars. reflexivity.
Qed.

Lemma word_no_nl w : word w → Forall (λ a, a ≠ JS.nl) (JS.chars w).
Proof.
  intros [_ H]. eapply Forall_impl; [exact H|].
  intros a Ha ->. cbn in Ha. discriminate.
Qed.

Ltac no_newline :=
  rewrite ?chars_app;
  repeat (apply Forall_app; split);
  try (by apply word_no_nl);
  repeat constructor; discriminate.

Lemma parse_line_return dt :
  word dt →
  parse_line ReturnCommand_parse ("@return " +:+ dt)
  = Some ([ReturnCommand.Mk 1 (Some dt) None], [0]).
Proof.
  intros Hdt. unfold parse_line, ReturnCommand_parse, parse_lines.
  rewrite single_line by no_newline.
  cbn [for_each]. unfold bind at 1. cbn [fst snd].
  rewrite match_return by done. reflexivity.
Qed.

Lemma parse_line_param dt name :
  word dt → word name →
  parse_line ParamCommand_parse ("@param " +:+ dt +:+ " " +:+ name)
  = Some ([ParamCommand.Mk 1 (Some dt) (Some name) None], [0]).
Proof.
  intros Hdt Hname. unfold parse_line, ParamCommand_parse, parse_lines.
  rewrite single_line by no_newline.
  cbn [for_each]. unfold bind at 1. cbn [fst snd].
  rewrite match_param by done. reflexivity.
Qed.

Lemma parse_line_function name :
  word name →
  parse_line FunctionCommand_parse ("@function " +:+ name)
  = Some ([FunctionCommand.Mk 1 (Some name) None], [0]).
Proof.
  intros Hname. unfold parse_line, FunctionCommand_parse, parse_lines.
  rewrite single_line by no_newline.
  cbn [for_each]. unfold bind at 1. cbn [fst snd].
  rewrite match_function by done. reflexivity.
Qed.

Lemma match_returns dt :
  word dt →
  RegExp.match_ Pat.return_ ("@returns " +:+ dt)
  = Some [Some ("@returns " +:+ dt); Some dt; None].
Proof.
  intros Hdt.
  unfold match_, Pat.return_, Pat.re. cbn [flag_m pattern].
  unfold ncaps. cbn [pattern groups seq lit app list_max fold_right Nat.max].
  erewrite search_here.
  2:{ rewrite chars_app. cbn.
      rewrite repeat_matcher_unfold. cbn.
      replace (length (JS.chars dt) =? S (length (JS.chars dt))) with false
        by (symmetry; apply Nat.eqb_neq; lia).
      apply first_alternative.
      rewrite repeat_matcher_unfold. cbn.
      eapply (plus_run _ _ (step_is_step1 _) [" "%char] (JS.chars dt));
        [reflexivity| |done|cbn; lia|].
      { rewrite <- (app_nil_r (JS.chars dt)). by apply blank_run. }
      cbn.
      eapply (star_run _ _ (step_is_step1 _) (JS.chars dt) []);
        [by rewrite app_nil_r|by apply word_run|lia|].
      cbn. finish_match. }
  read_captures.
Qed.

Lemma match_fn name :
  word name →
  RegExp.match_ Pat.function ("@fn " +:+ name)
  = Some [Some ("@fn " +:+ name); Some "@fn"; None; Some "@fn"; Some name;
          None; None].
Proof.
  intros Hname.
  unfold match_, Pat.function, Pat.re. cbn [flag_m pattern].
  unfold ncaps. cbn [pattern groups seq lit app list_max fold_right Nat.max].
  erewrite search_here.
  2:{ rewrite !chars_app. cbn. unfold set_cap. cbn.
      eapply (plus_run _ _ (step_is_step1 _) [" "%char] (JS.chars name));
        [reflexivity| |done|cbn; lia|].
      { rewrite <- (app_nil_r (JS.chars name)). by apply blank_run. }
      cbn.
      eapply (plus_run _ _ (step_is_step1 _) (JS.chars name) []);
        [by rewrite app_nil_r|by apply word_run|by apply word_chars|lia|].
      cbn. finish_match. }
  expose_captures.
  change ("@"%char :: "f"%char :: "n"%char :: " "%char :: JS.chars name)
    with (JS.chars "@fn" ++ " "%char :: JS.chars name).
  close_captures.
Qed.

Lemma parse_line_returns dt :
  word dt →
  parse_line ReturnCommand_parse ("@returns " +:+ dt)
  = Some ([ReturnCommand.Mk 1 (Some dt) None], [0]).
Proof.
  intros Hdt. unfold parse_line, ReturnCommand_parse, parse_lines.
  rewrite single_line by no_newline.
  cbn [for_each]. unfold bind at 1. cbn [fst snd].
  rewrite match_returns by done. reflexivity.
Qed.

Lemma parse_line_fn name :
  word name →
  parse_line FunctionCommand_parse ("@fn " +:+ name)
  = Some ([FunctionCommand.Mk 1 (Some name) None], [0]).
Proof.
  intros Hname. unfold parse_line, FunctionCommand_parse, parse_lines.
  rewrite single_line by no_newline.
  cbn [for_each]. unfold bind at 1. cbn [fst snd].
  rewrite match_fn by done. reflexivity.
Qed.

(** ** The two spellings of memberof, for every class name *)

Lemma match_memberof_lower name :
  word name →
  RegExp.match_ Pat.memberof ("@memberof " +:+ name)
  = Some [Some ("@memberof " +:+ name); None; Some "@memberof"; Some name].
Proof.
  intros Hname.
  unfold match_, Pat.memberof, Pat.re. cbn [flag_m pattern].
  unfold ncaps. cbn [pattern groups seq lit app list_max fold_right Nat.max].
  erewrite search_here.
  2:{ rewrite !chars_app. cbn. unfold set_cap. cbn.
      eapply (plus_run _ _ (step_is_step1 _) [" "%char] (JS.chars name));
        [reflexivity| |done|cbn; lia|].
      { rewrite <- (app_nil_r (JS.chars name)). by apply blank_run. }
      cbn.
      eapply (star_run _ _ (step_is_step1 _) (JS.chars name) []);
        [by rewrite app_nil_r|by apply word_run|lia|].
      cbn. finish_match. }
  expose_captures.
  change ("@"%char :: "m"%char :: "e"%char :: "m"%char :: "b"%char :: "e"%char
          :: "r"%char :: "o"%char :: "f"%char :: " "%char :: JS.chars name)
    with (JS.chars "@memberof" ++ " "%char :: JS.chars name).
  close_captures.
Qed.

Lemma match_memberof_capital name :
  RegExp.match_ Pat.memberof ("@memberOf " +:+ name)
  = Some [Some "@memberOf"; Some "@memberOf"; None; None].
Proof.
  unfold match_, Pat.memberof, Pat.re. cbn [flag_m pattern].
  unfold ncaps. cbn [pattern groups seq lit app list_max fold_right Nat.max].
  erewrite search_here.
  2:{ rewrite !chars_app. cbn. reflexivity. }
  unfold result_array. cbn -[JS.chars JS.str consumed].
  change (JS.chars ("@memberOf " +:+ name))
    with (JS.chars "@memberOf" ++ " "%char :: JS.chars name).
  unfold set_cap. cbn -[JS.chars JS.str consumed].
  change ("@"%char :: "m"%char :: "e"%char :: "m"%char :: "b"%char :: "e"%char
          :: "r"%char :: "O"%char :: "f"%char :: " "%char :: JS.chars name)
    with (JS.chars "@memberOf" ++ " "%char :: JS.chars name).
  rewrite !consumed_run. reflexivity.
Qed.

(** The spelling [@memberof] gives the class name. *)
Lemma parse_line_memberof_lower name :
  word name →
  parse_line MemberofCommand_parse ("@memberof " +:+ name)
  = Some ([MemberofCommand.Mk 1 (Some name)], [0]).
Proof.
  intros Hname. unfold parse_line, MemberofCommand_parse, parse_lines.
  rewrite single_line by no_newline.
  cbn [for_each]. unfold bind at 1. cbn [fst snd].
  rewrite match_memberof_lower by done. reflexivity.
Qed.

(** The spelling [@memberOf] gives [undefined], whatever the name. *)
Lemma parse_line_memberof_capital name :
  word name →
  parse_line MemberofCommand_parse ("@memberOf " +:+ name)
  = Some ([MemberofCommand.Mk 1 None], [0]).
Proof.
  intros Hname. unfold parse_line, MemberofCommand_parse, parse_lines.
  rewrite single_line by no_newline.
  cbn [for_each]. unfold bind at 1. cbn [fst snd].
  rewrite match_memberof_capital by done. reflexivity.
Qed.

(** ** The lines of a block *)

Lemma chars_str l : JS.chars (JS.str l) = l.
Proof. apply list_ascii_of_string_of_list_ascii. Qed.

Lemma split_nl_go_nonempty cur l : JS.split_nl_go cur l ≠ [].
Proof.
  revert cur. induction l as [|c l IH]; intros cur; cbn; [done|].
  destruct (Ascii.eqb c JS.nl); [done|apply IH].
Qed.

Lemma str_app l1 l2 : JS.str (l1 ++ l2) = JS.str l1 +:+ JS.str l2.
Proof.
  induction l1 as [|a l1 IH]; [done|].
  change (String a (JS.str (l1 ++ l2)) = String a (JS.str l1 +:+ JS.str l2)).
  by rewrite IH.
Qed.

Lemma join_split_go cur l :
  JS.join_nl (map JS.str (JS.split_nl_go cur l)) = JS.str (rev cur ++ l).
Proof.
  revert cur. induction l as [|c l IH]; intros cur; cbn.
  - by rewrite app_nil_r.
  - destruct (Ascii.eqb c JS.nl) eqn:E.
    + apply Ascii.eqb_eq in E. subst c. cbn.
      specialize (IH []). cbn in IH.
      destruct (map JS.str (JS.split_nl_go [] l)) eqn:E2.
      { apply map_eq_nil in E2. by apply split_nl_go_nonempty in E2. }
      rewrite <- E2 in *. clear E2.
      rewrite IH. rewrite str_app. cbn.
      destruct (map JS.str (JS.split_nl_go [] l)) eqn:E3; reflexivity.
    + rewrite IH. cbn. by rewrite <- app_assoc.
Qed.

Lemma join_split s : JS.join_nl (JS.split_nl s) = s.
Proof. unfold JS.split_nl. rewrite join_split_go. cbn. apply str_chars. Qed.

(** is_prefix / indexOf *)
Lemma is_prefix_spec p l : JS.is_prefix p l = true ↔ ∃ post, l = p ++ post.
Proof.
  revert l. induction p as [|a p IH]; intros l; cbn.
  - split; [by eexists|done].
  - destruct l as [|b l].
    + split; [done|]. by intros (post & [=]).
    + destruct (Ascii.eqb a b) eqn:E.
      * apply Ascii.eqb_eq in E. subst b. rewrite IH. split.
        -- intros (post & ->). by eexists.
        -- intros (post & [= ->]). by eexists.
      * apply Ascii.eqb_neq in E. split; [done|]. intros (post & [= -> _]). done.
Qed.

Lemma indexOf_from_spec i p l k :
  JS.indexOf_from i p l = Some k →
  ∃ pre post, l = pre ++ p ++ post ∧ k = i + length pre.
Proof.
  revert i. induction l as [|a l IH]; intros i; cbn.
  - destruct (JS.is_prefix p []) eqn:E; [|done].
    intros [= <-]. apply is_prefix_spec in E as (post & E).
    exists [], post. cbn. split; [done|lia].
  - destruct (JS.is_prefix p (a :: l)) eqn:E.
    + intros [= <-]. apply is_prefix_spec in E as (post & E).
      exists [], post. cbn. split; [done|lia].
    + intros H. apply IH in H as (pre & post & -> & ->).
      exists (a :: pre), post. cbn. split; [done|lia].
Qed.

Lemma indexOf_from_occurs i p pre post :
  JS.indexOf_from i p (pre ++ p ++ post) ≠ None.
Proof.
  revert i. induction pre as [|a pre IH]; intros i.
  - cbn [app]. assert (E : JS.is_prefix p (p ++ post) = true)
      by (apply is_prefix_spec; by eexists).
    destruct (p ++ post); cbn; cbn in E; rewrite E; done.
  - cbn. destruct (JS.is_prefix p (a :: pre ++ p ++ post)); [done|apply IH].
Qed.

Lemma count_nl_str l : JS.count_nl (JS.str l) = length (filter (λ c, c = JS.nl) l).
Proof. unfold JS.count_nl. by rewrite chars_str. Qed.

Lemma split_nl_go_length cur l :
  length (JS.split_nl_go cur l) = S (length (filter (λ c, c = JS.nl) l)).
Proof.
  revert cur. induction l as [|c l IH]; intros cur; [done|].
  destruct (decide (c = JS.nl)) as [->|E].
  - rewrite filter_cons_True by done. cbn. by rewrite IH.
  - rewrite filter_cons_False by done. cbn [JS.split_nl_go].
    apply Ascii.eqb_neq in E. rewrite E. apply IH.
Qed.

Lemma getNumLines_count b : Block.getNumLines b = S (JS.count_nl (Block.src b)).
Proof.
  unfold Block.getNumLines, Block.lines, JS.split_nl, JS.count_nl.
  rewrite length_map. apply split_nl_go_length.
Qed.

Lemma first_line_rest cur post :
  ∃ b, head (JS.split_nl_go cur post) = Some (rev cur ++ b).
Proof.
  revert cur. induction post as [|c post IH]; intros cur; cbn.
  - exists []. by rewrite app_nil_r.
  - destruct (Ascii.eqb c JS.nl).
    + exists []. by rewrite app_nil_r.
    + destruct (IH (c :: cur)) as (b & Hb). exists (c :: b).
      rewrite Hb. cbn. by rewrite <- app_assoc.
Qed.

Lemma first_line cur p post :
  Forall (λ a, a ≠ JS.nl) p →
  ∃ b, head (JS.split_nl_go cur (p ++ post)) = Some (rev cur ++ p ++ b).
Proof.
  intros Hp. revert cur. induction Hp as [|x p Hx Hp IH]; intros cur.
  - apply first_line_rest.
  - cbn. apply Ascii.eqb_neq in Hx. rewrite Hx.
    destruct (IH (x :: cur)) as (b & Hb). exists b. rewrite Hb. cbn.
    by rewrite <- app_assoc.
Qed.

Lemma split_nl_go_skip cur pre rest :
  ∃ cur', JS.split_nl_go cur (pre ++ rest) !! length (filter (λ c, c = JS.nl) pre)
          = head (JS.split_nl_go cur' rest).
Proof.
  revert cur. induction pre as [|c pre IH]; intros cur.
  - exists cur. cbn. by destruct (JS.split_nl_go cur rest).
  - destruct (decide (c = JS.nl)) as [->|E].
    + rewrite filter_cons_True by done. cbn. apply IH.
    + rewrite filter_cons_False by done. cbn [app JS.split_nl_go].
      apply Ascii.eqb_neq in E. rewrite E. apply IH.
Qed.

(** The line in which a text without line feed starts. *)
Lemma split_nl_go_lookup cur pre p post :
  Forall (λ a, a ≠ JS.nl) p →
  ∃ a b, JS.split_nl_go cur (pre ++ p ++ post)
           !! length (filter (λ c, c = JS.nl) pre) = Some (a ++ p ++ b).
Proof.
  intros Hp. destruct (split_nl_go_skip cur pre (p ++ post)) as (cur' & ->).
  destruct (first_line cur' p post Hp) as (b & ->). by eexists _, _.
Qed.

(** X1: [Block.getLineNumber(s)], when [s] occurs in the cleaned text: the
    number it returns is that of a line of the block, and if [s] holds no
    line feed, that line contains [s]. *)
Theorem X1_getLineNumber_in_range b s n :
  Block.getLineNumber b s = Some n →
  n < Block.getNumLines b
  ∧ (Forall (λ a, a ≠ JS.nl) (JS.chars s) →
     ∃ line, Block.getLine b n = Some line ∧ JS.indexOf line s ≠ None).
Proof.
  unfold Block.getLineNumber.
  destruct (JS.indexOf (Block.src b) s) as [idx|] eqn:E; [|done].
  intros [= <-].
  apply indexOf_from_spec in E as (pre & post & Hsrc & ->).
  change (0 + length pre) with (length pre).
  assert (Hn : JS.count_nl (JS.prefix (length pre) (Block.src b))
               = length (filter (λ c, c = JS.nl) pre)).
  { unfold JS.prefix. rewrite count_nl_str, Hsrc. by rewrite take_app_length. }
  rewrite Hn. split.
  - rewrite getNumLines_count. unfold JS.count_nl. rewrite Hsrc.
    rewrite filter_app, length_app. lia.
  - intros Hs. unfold Block.getLine, Block.lines, JS.split_nl.
    rewrite Hsrc. destruct (split_nl_go_lookup [] pre _ post Hs) as (a & c & H).
    rewrite list_lookup_fmap, H. cbn. eexists. split; [done|].
    unfold JS.indexOf. rewrite chars_str. apply indexOf_from_occurs.
Qed.

(** The text [gamma] stands in line 1 of a block of three lines. *)
Lemma X1_getLineNumber_in_range_witness :
  let b := Inputs.line_block Samples.three_lines in
  Block.getLineNumber b "gamma" = Some 1
  ∧ 1 < Block.getNumLines b
  ∧ (Forall (λ a, a ≠ JS.nl) (JS.chars "gamma") →
     ∃ line, Block.getLine b 1 = Some line ∧ JS.indexOf line "gamma" ≠ None).
Proof.
  cbv zeta. split; [vm_compute; reflexivity|].
  apply (X1_getLineNumber_in_range (Inputs.line_block Samples.three_lines) "gamma" 1).
  vm_compute. reflexivity.
Defined.

Lemma lineIsParsed_mark i b j :
  Block.lineIsParsed (Block.markLineAsParsed i b) j
  = Block.lineIsParsed b j || bool_decide (i = j).
Proof.
  unfold Block.markLineAsParsed.
  destruct (Block.lineIsParsed b i) eqn:E.
  - destruct (decide (i = j)) as [->|Hne].
    + rewrite E. done.
    + rewrite (bool_decide_eq_false_2 _ Hne). by rewrite orb_false_r.
  - unfold Block.lineIsParsed. cbn.
    apply eq_true_iff_eq.
    rewrite orb_true_iff, !bool_decide_eq_true, elem_of_app, list_elem_of_singleton.
    split; (intros [?|?]; [by left|by right]).
Qed.

Lemma rawDiff_mark i b : Block.rawDiff (Block.markLineAsParsed i b) = Block.rawDiff b.
Proof. unfold Block.markLineAsParsed. by destruct (Block.lineIsParsed b i). Qed.

Lemma mark_chunk_fold l b j :
  Block.lineIsParsed
    (fold_left (λ b i, Block.markLineAsParsed (i + Block.rawDiff b) b) l b) j = true
  ↔ Block.lineIsParsed b j = true ∨ ∃ i, i ∈ l ∧ i + Block.rawDiff b = j.
Proof.
  revert b. induction l as [|x l IH]; intros b; cbn.
  - split; [by left|]. intros [?|(i & Hi%elem_of_nil & _)]; done.
  - rewrite IH, lineIsParsed_mark, rawDiff_mark, orb_true_iff, bool_decide_eq_true.
    split.
    + intros [[?|?]|(i & Hi & ?)]; [by left| |].
      * right. exists x. split; [left|done].
      * right. exists i. split; [by right|done].
    + intros [?|(i & [->|Hi]%elem_of_cons & ?)]; [by left; left|by left; right|].
      right. by exists i.
Qed.

Lemma String_length_chars s : String.length s = length (JS.chars s).
Proof. induction s as [|a s IH]; cbn; [done|]. by rewrite IH. Qed.

Lemma substring_occurrence s pre p post :
  JS.chars s = pre ++ JS.chars p ++ post →
  JS.substring (length pre) (length pre + String.length p) s = p.
Proof.
  intros H. unfold JS.substring. rewrite H.
  replace (length pre + String.length p - length pre) with (length (JS.chars p))
    by (rewrite String_length_chars; lia).
  rewrite drop_app_length, take_app_length. apply str_chars.
Qed.

(** X2: [Block.markChunkAsParsed(chunk)], when the chunk occurs in the
    cleaned text at [idx]: the lines that are marked afterwards are those
    that were marked and the lines from [first] to [last], where [first]
    is the number of line feeds before [idx] plus [rawDiff], and [last]
    is [first] plus the number of line feeds of the chunk. *)
Theorem X2_markChunkAsParsed_lines chunk b idx j :
  JS.indexOf (Block.src b) chunk = Some idx →
  let first := JS.count_nl (JS.prefix idx (Block.src b)) + Block.rawDiff b in
  let last := first + JS.count_nl chunk in
  Block.lineIsParsed (Block.markChunkAsParsed chunk b) j = true
  ↔ Block.lineIsParsed b j = true ∨ first ≤ j ≤ last.
Proof.
  intros H. cbv zeta. unfold Block.markChunkAsParsed. rewrite H.
  pose proof H as H'.
  apply indexOf_from_spec in H' as (pre & post & Hsrc & ->).
  change (0 + length pre) with (length pre).
  rewrite (substring_occurrence _ _ _ _ Hsrc).
  replace (JS.substring 0 (length pre) (Block.src b))
    with (JS.prefix (length pre) (Block.src b))
    by (unfold JS.substring, JS.prefix; by rewrite Nat.sub_0_r).
  rewrite mark_chunk_fold.
  set (first := JS.count_nl (JS.prefix (length pre) (Block.src b))).
  set (n := JS.count_nl chunk).
  split; (intros [?|Hr]; [by left|right]).
  - destruct Hr as (i & Hi & <-). apply elem_of_seq in Hi. lia.
  - exists (j - Block.rawDiff b). split; [|lia]. apply elem_of_seq. lia.
Qed.

(** The last two lines of a block of three lines, both marked at once. *)
Lemma X2_markChunkAsParsed_lines_witness :
  let b := Inputs.line_block Samples.three_lines in
  JS.indexOf (Block.src b) Samples.two_lines = Some 6
  ∧ (Block.lineIsParsed (Block.markChunkAsParsed Samples.two_lines b) 2 = true
     ↔ Block.lineIsParsed b 2 = true ∨ 1 ≤ 2 ≤ 2).
Proof.
  cbv zeta. split; [vm_compute; reflexivity|].
  apply (X2_markChunkAsParsed_lines Samples.two_lines
           (Inputs.line_block Samples.three_lines) 6 2).
  vm_compute. reflexivity.
Defined.

Lemma unparsed_from_unmarked b i ls :
  Block.parsedLines b = [] → map snd (Block.unparsed_from b i ls) = ls.
Proof.
  intros Hb. revert i. induction ls as [|l ls IH]; intros i; [done|].
  cbn [Block.unparsed_from].
  assert (E : Block.lineIsParsed b i = false).
  { unfold Block.lineIsParsed. rewrite Hb. apply bool_decide_eq_false, not_elem_of_nil. }
  rewrite E. cbn [map snd]. by rewrite IH.
Qed.

(** X3: A block fresh from the constructor has no marked line: its unparsed
    lines, joined by line feeds, are the cleaned text it was made of. *)
Theorem X3_fresh_block_text src rawSrc lineNumber g :
  JS.join_nl (Block.getUnparsedLines (Block.new src rawSrc lineNumber g).1) = src.
Proof.
  unfold Block.getUnparsedLines, Block.unparsed.
  rewrite unparsed_from_unmarked by done. apply join_split.
Qed.

Lemma unparsed_from_mark i b k ls :
  Block.unparsed_from (Block.markLineAsParsed i b) k ls
  = filter (λ e, e.1 ≠ i) (Block.unparsed_from b k ls).
Proof.
  revert k. induction ls as [|l ls IH]; intros k; [done|].
  cbn [Block.unparsed_from]. rewrite lineIsParsed_mark, IH.
  destruct (Block.lineIsParsed b k) eqn:E; cbn [orb]; [done|].
  destruct (decide (i = k)) as [->|Hne].
  - rewrite bool_decide_eq_true_2 by done.
    by rewrite filter_cons_False by (cbn; intros H; by apply H).
  - rewrite bool_decide_eq_false_2 by done.
    by rewrite filter_cons_True by (cbn; congruence).
Qed.

(** X4: [Block.markLineAsParsed(i)]: afterwards a line is marked when it was
    marked or is line [i], and [getUnparsedLines2()] has lost the entry
    of line [i] and kept every other entry, in order. *)
Theorem X4_marking_takes_the_line_out i b :
  (∀ j, Block.lineIsParsed (Block.markLineAsParsed i b) j
        = Block.lineIsParsed b j || bool_decide (i = j))
  ∧ Block.getUnparsedLines2 false (Block.markLineAsParsed i b)
    = filter (λ e, e.1 ≠ i) (Block.getUnparsedLines2 false b).
Proof.
  split; [intros j; apply lineIsParsed_mark|].
  unfold Block.getUnparsedLines2, Block.unparsed, Block.lines.
  rewrite markLineAsParsed_src, unparsed_from_mark.
  generalize (Block.unparsed_from b 0 (JS.split_nl (Block.src b))). intros l.
  induction l as [|[k x] l IH]; [done|]. cbn [map fst snd].
  destruct (decide (k = i)) as [->|Hne].
  - rewrite !filter_cons_False by (cbn; intros H; by apply H). exact IH.
  - rewrite !filter_cons_True by done. cbn [map fst snd]. by rewrite IH.
Qed.

(** ** What a pattern can match, and text without tags *)

Lemma reaches_refl x : reaches x x.
Proof. by exists []. Qed.

Lemma reaches_trans x y z : reaches x y → reaches y z → reaches x z.
Proof.
  intros (l1 & H1 & H2) (l2 & H3 & H4). exists (l1 ++ l2).
  rewrite H1, H3, H4, H2, rev_app_distr, <- !app_assoc. done.
Qed.

Lemma clear_caps_after gs x : after (clear_caps gs x) = after x.
Proof. induction gs as [|g gs IH]; cbn; [done|]. exact IH. Qed.
Lemma clear_caps_before gs x : before (clear_caps gs x) = before x.
Proof. induction gs as [|g gs IH]; cbn; [done|]. exact IH. Qed.

Lemma repeat_matcher_sound fuel m gs min max :
  sound m → sound (repeat_matcher fuel m gs min max).
Proof.
  intros Hm. revert min max.
  induction fuel as [|fuel IH]; intros min max x c z; [done|].
  rewrite repeat_matcher_unfold.
  assert (Hd : ∀ y', reaches (clear_caps gs x) y' →
     (if (min =? 0) && (length (after y') =? length (after x)) then None
      else repeat_matcher fuel m gs (Init.Nat.pred min) (Init.Nat.pred <$> max) y' c) = Some z →
     ∃ y, reaches x y ∧ c y = Some z).
  { intros y' (l & H1 & H2) H.
    destruct ((min =? 0) && (length (after y') =? length (after x))); [done|].
    apply IH in H as (y & Hr & Hc). exists y. split; [|done].
    eapply reaches_trans; [|exact Hr]. exists l.
    by rewrite <- (clear_caps_after gs x), <- (clear_caps_before gs x). }
  assert (Hstep : ∀ o, m (clear_caps gs x)
     (λ y, if (min =? 0) && (length (after y) =? length (after x)) then None
           else repeat_matcher fuel m gs (Init.Nat.pred min) (Init.Nat.pred <$> max) y c) = Some o →
     ∃ y, reaches x y ∧ c y = Some o).
  { intros o H. apply Hm in H as (y' & Hr & H).
    destruct ((min =? 0) && (length (after y') =? length (after x))) eqn:E; [done|].
    apply IH in H as (y & Hr' & Hc). exists y. split; [|done].
    eapply reaches_trans; [|exact Hr']. destruct Hr as (l & H1 & H2). exists l.
    by rewrite <- (clear_caps_after gs x), <- (clear_caps_before gs x). }
  clear Hd.
  destruct max as [[|k]|].
  - intros H. exists x. split; [apply reaches_refl|done].
  - cbv zeta. destruct (min =? 0).
    + destruct (m _ _) as [o|] eqn:E.
      * intros [= <-]. by apply Hstep.
      * intros H. exists x. split; [apply reaches_refl|done].
    + apply Hstep.
  - cbv zeta. destruct (min =? 0).
    + destruct (m _ _) as [o|] eqn:E.
      * intros [= <-]. by apply Hstep.
      * intros H. exists x. split; [apply reaches_refl|done].
    + apply Hstep.
Qed.

Lemma step1_sound p : sound (step1 p).
Proof.
  intros x c z. unfold step1. destruct (after x) as [|a rest] eqn:E; [done|].
  destruct (p a); [|done]. intros H. eexists. split; [|exact H].
  exists [a]. cbn. by rewrite E.
Qed.

Lemma matcher_sound ml r : sound (matcher ml r).
Proof.
  induction r as [| | | | | |r1 IH1 r2 IH2|r1 IH1 r2 IH2|i r IH|min max r IH|r IH];
    intros x k z; cbn [matcher].
  - intros H. exists x. split; [apply reaches_refl|done].
  - apply step1_sound.
  - apply step1_sound.
  - apply step1_sound.
  - destruct (at_bol ml x); [|done]. intros H. exists x. split; [apply reaches_refl|done].
  - destruct (at_eol ml x); [|done]. intros H. exists x. split; [apply reaches_refl|done].
  - intros H. apply IH1 in H as (y1 & Hr1 & H). apply IH2 in H as (y2 & Hr2 & H).
    exists y2. split; [by eapply reaches_trans|done].
  - destruct (matcher ml r1 x k) as [o|] eqn:E.
    + intros [= <-]. by apply IH1.
    + apply IH2.
  - intros H. apply IH in H as (y & Hr & H). eexists. split; [|exact H].
    destruct Hr as (l & H1 & H2). by exists l.
  - apply repeat_matcher_sound. exact IH.
  - destruct (matcher ml r x Some); [done|]. intros H. exists x. split; [apply reaches_refl|done].
Qed.

Lemma starts_with_fail ml a r x k :
  starts_with a r = true → head (after x) ≠ Some a → matcher ml r x k = None.
Proof.
  revert x k. induction r as [| | | | | |r1 IH1 r2 IH2|r1 IH1 r2 IH2|i r IH| |];
    intros x k Hs Hx; cbn in Hs; try done; cbn [matcher].
  - apply Ascii.eqb_eq in Hs. subst. unfold step1.
    destruct (after x) as [|b rest]; [done|].
    destruct (Ascii.eqb_spec a b) as [->|]; [|done]. by cbn in Hx.
  - by apply IH1.
  - apply andb_true_iff in Hs as [H1 H2]. rewrite IH1 by done. by apply IH2.
  - by apply IH.
Qed.

Lemma search_absent ml a r n bef aft :
  starts_with a r = true → a ∉ aft → search ml r n bef aft = None.
Proof.
  intros Hs. revert bef. induction aft as [|b aft IH]; intros bef Ha; cbn [search].
  - by rewrite (starts_with_fail ml a).
  - rewrite (starts_with_fail ml a); [|done|].
    + apply IH. intros ?. apply Ha. by right.
    + cbn. intros [= ->]. apply Ha. by left.
Qed.

(** Matching fails on text without the character the pattern starts with. *)
Lemma match_absent a re s :
  starts_with a (pattern re) = true → a ∉ JS.chars s → match_ re s = None.
Proof.
  intros Hs Ha. unfold match_. by rewrite (search_absent _ a).
Qed.

Lemma test_absent a re s :
  starts_with a (pattern re) = true → a ∉ JS.chars s → test re s = false.
Proof. intros Hs Ha. unfold test. by rewrite (match_absent a). Qed.

Lemma elem_of_rev {A} (x : A) l : x ∈ rev l ↔ x ∈ l.
Proof. rewrite !list_elem_of_In. symmetry. apply in_rev. Qed.

Lemma split_nl_go_chars cur l seg c :
  seg ∈ JS.split_nl_go cur l → c ∈ seg → c ∈ cur ∨ c ∈ l.
Proof.
  revert cur. induction l as [|x l IH]; intros cur; cbn.
  - intros ->%list_elem_of_singleton Hc. left. by apply elem_of_rev.
  - destruct (Ascii.eqb x JS.nl).
    + intros [->|Hs]%elem_of_cons Hc.
      * left. by apply elem_of_rev.
      * destruct (IH _ Hs Hc) as [?%elem_of_nil|?]; [done|]. right. by right.
    + intros Hs Hc. destruct (IH _ Hs Hc) as [[->|?]%elem_of_cons|?].
      * right. by left.
      * by left.
      * right. by right.
Qed.

Lemma split_nl_absent a s line :
  a ∉ JS.chars s → line ∈ JS.split_nl s → a ∉ JS.chars line.
Proof.
  intros Ha Hl Hc. unfold JS.split_nl in Hl.
  apply list_elem_of_fmap in Hl as (seg & -> & Hseg).
  rewrite chars_str in Hc.
  destruct (split_nl_go_chars _ _ _ _ Hseg Hc) as [?%elem_of_nil|?]; done.
Qed.

Lemma join_nl_absent a ls :
  a ≠ JS.nl → (∀ l, l ∈ ls → a ∉ JS.chars l) → a ∉ JS.chars (JS.join_nl ls).
Proof.
  intros Hnl. induction ls as [|x ls IH]; intros H.
  - cbn. apply not_elem_of_nil.
  - destruct ls as [|y ls].
    + cbn. apply H. by left.
    + change (JS.join_nl (x :: y :: ls)) with (x +:+ String JS.nl (JS.join_nl (y :: ls))).
      rewrite chars_app. intros [Hx|Hx]%elem_of_app.
      * revert Hx. apply H. by left.
      * change (JS.chars (String JS.nl (JS.join_nl (y :: ls))))
          with (JS.nl :: JS.chars (JS.join_nl (y :: ls))) in Hx.
        apply elem_of_cons in Hx as [->|Hx]; [done|].
        revert Hx. apply IH. intros l Hl. apply H. by right.
Qed.

Lemma unparsed_from_line b i ls j l :
  (j, l) ∈ Block.unparsed_from b i ls → l ∈ ls.
Proof.
  intros (_ & H & _)%unparsed_from_elem. by eapply list_elem_of_lookup_2.
Qed.

Lemma unparsed2_absent a b j line :
  a ∉ JS.chars (Block.src b) →
  (j, line) ∈ Block.getUnparsedLines2 false b → a ∉ JS.chars line.
Proof.
  intros Ha H. unfold Block.getUnparsedLines2 in H.
  apply list_elem_of_fmap in H as ([j' l'] & [= -> ->] & H).
  apply unparsed_from_line in H. by eapply split_nl_absent.
Qed.

Lemma unparsed_text_absent a b :
  a ≠ JS.nl → a ∉ JS.chars (Block.src b) →
  a ∉ JS.chars (JS.join_nl (Block.getUnparsedLines b)).
Proof.
  intros Hnl Ha. apply join_nl_absent; [done|].
  intros l Hl. unfold Block.getUnparsedLines in Hl.
  apply list_elem_of_fmap in Hl as ([j' l'] & -> & H).
  apply unparsed_from_line in H. by eapply split_nl_absent.
Qed.

(** A loop whose body leaves everything as it is. *)
Lemma for_each_nothing {A S} (l : list A) (acc : S) (body : A → S → P S) st :
  (∀ a, a ∈ l → body a acc st = (Ok acc, st)) →
  for_each l acc body st = (Ok acc, st).
Proof.
  induction l as [|a l IH]; intros H; cbn [for_each]; [done|].
  unfold bind. rewrite H by (by left). apply IH. intros a' Ha'. apply H. by right.
Qed.

Ltac line_parser_nothing :=
  intros Ha; unfold parse_lines; apply for_each_nothing;
  intros [j line] Hin; cbn [fst snd];
  pose proof (unparsed2_absent _ _ _ _ Ha Hin) as Hl;
  rewrite (match_absent at_sign) by (done || reflexivity);
  cbn [and_then]; unfold mismatch;
  rewrite (test_absent at_sign) by (done || reflexivity);
  reflexivity.

Section NoTag.
Variable b : Block.t.
Variable st : PState.
Hypothesis Hb : at_sign ∉ JS.chars (Block.src b).

Lemma AuthorCommand_parse_nothing : AuthorCommand_parse b st = (Ok ([], b), st).
Proof. revert Hb. unfold AuthorCommand_parse. line_parser_nothing. Qed.
Lemma BriefCommand_parse_nothing : BriefCommand_parse b st = (Ok ([], b), st).
Proof. revert Hb. unfold BriefCommand_parse. line_parser_nothing. Qed.
Lemma ClassCommand_parse_nothing : ClassCommand_parse b st = (Ok ([], b), st).
Proof. revert Hb. unfold ClassCommand_parse. line_parser_nothing. Qed.
Lemma EventCommand_parse_nothing : EventCommand_parse b st = (Ok ([], b), st).
Proof. revert Hb. unfold EventCommand_parse. line_parser_nothing. Qed.
Lemma ExtendsCommand_parse_nothing : ExtendsCommand_parse b st = (Ok ([], b), st).
Proof. revert Hb. unfold ExtendsCommand_parse. line_parser_nothing. Qed.
Lemma FunctionCommand_parse_nothing : FunctionCommand_parse b st = (Ok ([], b), st).
Proof. revert Hb. unfold FunctionCommand_parse. line_parser_nothing. Qed.
Lemma MemberofCommand_parse_nothing : MemberofCommand_parse b st = (Ok ([], b), st).
Proof. revert Hb. unfold MemberofCommand_parse. line_parser_nothing. Qed.
Lemma LibraryCommand_parse_nothing : LibraryCommand_parse b st = (Ok ([], b), st).
Proof. revert Hb. unfold LibraryCommand_parse. line_parser_nothing. Qed.
Lemma MethodCommand_parse_nothing : MethodCommand_parse b st = (Ok ([], b), st).
Proof. revert Hb. unfold MethodCommand_parse. line_parser_nothing. Qed.
Lemma PageCommand_parse_nothing : PageCommand_parse b st = (Ok ([], b), st).
Proof. revert Hb. unfold PageCommand_parse. line_parser_nothing. Qed.
Lemma ParamCommand_parse_nothing : ParamCommand_parse b st = (Ok ([], b), st).
Proof.
  unfold ParamCommand_parse, bind.
  rewrite (for_each_nothing _ (([], b), None)); [reflexivity|].
  intros [j line] Hin. cbn [fst snd].
  pose proof (unparsed2_absent _ _ _ _ Hb Hin) as Hl.
  rewrite (match_absent at_sign) by (done || reflexivity).
  unfold mismatch, bind. rewrite (test_absent at_sign) by (done || reflexivity).
  reflexivity.
Qed.
Lemma PropertyCommand_parse_nothing : PropertyCommand_parse b st = (Ok ([], b), st).
Proof. revert Hb. unfold PropertyCommand_parse. line_parser_nothing. Qed.
Lemma ReturnCommand_parse_nothing : ReturnCommand_parse b st = (Ok ([], b), st).
Proof. revert Hb. unfold ReturnCommand_parse. line_parser_nothing. Qed.
Lemma SeeCommand_parse_nothing : SeeCommand_parse b st = (Ok ([], b), st).
Proof. revert Hb. unfold SeeCommand_parse. line_parser_nothing. Qed.
Lemma TodoCommand_parse_nothing : TodoCommand_parse b st = (Ok ([], b), st).
Proof. revert Hb. unfold TodoCommand_parse. line_parser_nothing. Qed.
Lemma VersionCommand_parse_nothing : VersionCommand_parse b st = (Ok ([], b), st).
Proof. revert Hb. unfold VersionCommand_parse. line_parser_nothing. Qed.

Lemma DescriptionCommand_parse_nothing : DescriptionCommand_parse b st = (Ok ([], b), st).
Proof.
  unfold DescriptionCommand_parse.
  rewrite (match_absent at_sign); [reflexivity|reflexivity|].
  by apply unparsed_text_absent.
Qed.

Lemma ExampleCommand_parse_nothing : ExampleCommand_parse b st = (Ok ([], b), st).
Proof.
  unfold ExampleCommand_parse.
  rewrite (match_absent at_sign); [|reflexivity|by apply unparsed_text_absent].
  rewrite (test_absent at_sign); [reflexivity|reflexivity|by apply unparsed_text_absent].
Qed.
End NoTag.

(** What a search returns: the state where the match starts and the
    state where it ends, both inside the input. *)
Lemma search_sound ml r n bef aft x y :
  search ml r n bef aft = Some (x, y) →
  (∃ l, aft = l ++ after x ∧ before x = rev l ++ bef) ∧ reaches x y.
Proof.
  revert bef. induction aft as [|a aft IH]; intros bef; cbn [search].
  - destruct (matcher _ _ _ _) as [z|] eqn:E; [|done].
    intros [= <- <-]. split; [by exists []|].
    apply matcher_sound in E as (y' & Hr & [= <-]). done.
  - destruct (matcher _ _ _ _) as [z|] eqn:E.
    + intros [= <- <-]. split; [by exists []|].
      apply matcher_sound in E as (y' & Hr & [= <-]). done.
    + intros H. apply IH in H as ((l & H1 & H2) & Hr). split; [|done].
      exists (a :: l). cbn. rewrite H1, H2, <- app_assoc. done.
Qed.

Lemma remove_first_absent a re s :
  a ∉ JS.chars s → a ∉ JS.chars (remove_first re s).
Proof.
  intros Ha. unfold remove_first.
  destruct (search _ _ _ _ _) as [[x y]|] eqn:E; [|done].
  apply search_sound in E as ((l & H1 & H2) & (l' & H3 & H4)).
  rewrite chars_str, H2, app_nil_r, rev_involutive.
  rewrite H1, H3 in Ha. intros [?|?]%elem_of_app; apply Ha;
    rewrite !elem_of_app; auto.
Qed.

Lemma consumed_reaches x y : reaches x y → ∃ l, consumed x y = l ∧ after x = l ++ after y.
Proof.
  intros (l & H1 & H2). exists l. split; [|done]. unfold consumed.
  rewrite H1, length_app.
  replace (length l + length (after y) - length (after y)) with (length l) by lia.
  by rewrite take_app_length.
Qed.

Lemma match_all_go_absent a fuel re bef aft m :
  a ∉ aft → m ∈ match_all_go fuel re bef aft → a ∉ JS.chars m.
Proof.
  revert bef aft. induction fuel as [|fuel IH]; intros bef aft Ha; cbn [match_all_go].
  - by intros ?%elem_of_nil.
  - destruct (search _ _ _ _ _) as [[x y]|] eqn:E; [|by intros ?%elem_of_nil].
    apply search_sound in E as ((l & H1 & H2) & Hr).
    destruct (consumed_reaches _ _ Hr) as (l' & Hc & H3).
    assert (Hm : a ∉ JS.chars (JS.str (consumed x y))).
    { rewrite chars_str, Hc. intros ?. apply Ha. rewrite H1, H3, !elem_of_app. auto. }
    assert (Hy : a ∉ after y).
    { intros ?. apply Ha. rewrite H1, H3, !elem_of_app. auto. }
    destruct (consumed x y) as [|c0 cs] eqn:Ec.
    + destruct (after y) as [|a0 aft'] eqn:Ey.
      * by intros ->%list_elem_of_singleton.
      * intros [->|Hin]%elem_of_cons; [done|].
        eapply IH; [|exact Hin]. intros ?. apply Hy. by right.
    + intros [->|Hin]%elem_of_cons; [done|]. by eapply IH.
Qed.

Lemma match_all_absent a re s m :
  a ∉ JS.chars s → m ∈ match_all re s → a ∉ JS.chars m.
Proof. intros Ha. unfold match_all. by apply match_all_go_absent. Qed.

Lemma split_nl_chars_absent a s :
  a ∉ JS.chars s → ∀ l, l ∈ JS.split_nl s → a ∉ JS.chars l.
Proof. intros Ha l Hl. by eapply split_nl_absent. Qed.

Lemma parseBlock_untagged src file matched st :
  at_sign ∉ JS.chars matched →
  ∃ b, parseBlock src file matched st
       = (Ok b, MkPState (MkGlobals (S (blockIdCounter (globals st)))
                                    (errorReportIdCounter (globals st))
                                    (globalEntityCounter (globals st))
                                    (entityCounter (globals st)))
                         (errors st))
       ∧ untagged b ∧ Block.filename b = file.
Proof.
  intros Ha. unfold parseBlock.
  set (text := remove_first BlockPat.trailing _).
  assert (Ht : at_sign ∉ JS.chars text).
  { subst text. apply remove_first_absent, join_nl_absent; [done|].
    intros l (l0 & -> & Hl0)%list_elem_of_fmap.
    apply remove_first_absent. revert Hl0. apply split_nl_chars_absent.
    by do 2 apply remove_first_absent. }
  set (ln := match JS.indexOf src matched with Some idx => _ | None => 1 end).
  unfold bind at 1. cbn [Block.new fst snd Block.id Block.rawDiff Block.parsedLines
                                   Block.src Block.rawSrc Block.lineNumber].
  set (b := Block.Mk _ _ [] file text matched ln [] [] [] [] [] [] [] [] [] [] [] [] [] [] [] [] [] [] []).
  set (st1 := MkPState _ (errors st)).
  assert (Hb : at_sign ∉ JS.chars (Block.src b)) by done.
  unfold bind.
  rewrite (AuthorCommand_parse_nothing b st1 Hb).
  rewrite (BriefCommand_parse_nothing b st1 Hb).
  rewrite (ClassCommand_parse_nothing b st1 Hb).
  rewrite (DescriptionCommand_parse_nothing b st1 Hb).
  rewrite (EventCommand_parse_nothing b st1 Hb).
  rewrite (ExampleCommand_parse_nothing b st1 Hb).
  rewrite (ExtendsCommand_parse_nothing b st1 Hb).
  rewrite (FunctionCommand_parse_nothing b st1 Hb).
  rewrite (LibraryCommand_parse_nothing b st1 Hb).
  rewrite (MemberofCommand_parse_nothing b st1 Hb).
  rewrite (MethodCommand_parse_nothing b st1 Hb).
  rewrite (PageCommand_parse_nothing b st1 Hb).
  rewrite (ParamCommand_parse_nothing b st1 Hb).
  rewrite (PropertyCommand_parse_nothing b st1 Hb).
  rewrite (ReturnCommand_parse_nothing b st1 Hb).
  rewrite (SeeCommand_parse_nothing b st1 Hb).
  rewrite (TodoCommand_parse_nothing b st1 Hb).
  rewrite (VersionCommand_parse_nothing b st1 Hb).
  eexists. split; [reflexivity|]. split; reflexivity.
Qed.

Lemma parseBlocks_loop_untagged src file (ms : list string) acc st :
  (∀ m, m ∈ ms → at_sign ∉ JS.chars m) →
  (∀ b, b ∈ acc → untagged b ∧ Block.filename b = file) →
  ∃ bs st', for_each ms acc (λ matched blockObjects,
               let* block := parseBlock src file matched in
               ret (blockObjects ++ [block])) st = (Ok bs, st')
            ∧ errors st' = errors st
            ∧ length bs = length acc + length ms
            ∧ ∀ b, b ∈ bs → untagged b ∧ Block.filename b = file.
Proof.
  revert acc st. induction ms as [|m ms IH]; intros acc st Hms Hacc.
  - exists acc, st. cbn. split; [done|]. split; [done|]. split; [lia|done].
  - cbn [for_each]. unfold bind at 1. unfold bind at 1.
    destruct (parseBlock_untagged src file m st) as (b & -> & Hb & Hf).
    { apply Hms. by left. }
    cbn [ret].
    edestruct (IH (acc ++ [b])) as (bs & st' & -> & He & Hlen & Hbs).
    { intros m' Hm'. apply Hms. by right. }
    { intros b' [?|Hb']%elem_of_app; [by apply Hacc|].
      apply list_elem_of_singleton in Hb'. by subst b'. }
    exists bs, st'. split; [done|]. split; [exact He|].
    split; [rewrite Hlen, length_app; cbn; lia|done].
Qed.

(** X5: [parseBlocks] on a text without the character [@]: it returns, no
    report is added, and every block it returns is without commands and
    without marked lines and carries the file name. *)
Theorem X5_parseBlocks_without_tags src file st :
  at_sign ∉ JS.chars src →
  ∃ bs st', parseBlocks src file st = (Ok bs, st')
            ∧ errors st' = errors st
            ∧ ∀ b, b ∈ bs → untagged b ∧ Block.filename b = file.
Proof.
  intros Ha. unfold parseBlocks.
  edestruct (parseBlocks_loop_untagged src file
               (match_all BlockPat.multi src ++ match_all BlockPat.oneLine src) [] st)
    as (bs & st' & H & He & _ & Hbs).
  { intros m [?|?]%elem_of_app; by eapply match_all_absent. }
  { by intros b ?%elem_of_nil. }
  cbv zeta. unfold bind at 1. rewrite H. cbn [ret].
  eexists _, st'. split; [reflexivity|]. split; [done|].
  intros b Hb%js_sort_elem. by apply Hbs.
Qed.

(** A comment of words alone. *)
Lemma X5_parseBlocks_without_tags_witness :
  ∃ bs st', parseBlocks Samples.words_js "words.js" (MkPState initial_globals [])
            = (Ok bs, st')
            ∧ errors st' = errors (MkPState initial_globals [])
            ∧ ∀ b, b ∈ bs → untagged b ∧ Block.filename b = "words.js".
Proof.
  apply (X5_parseBlocks_without_tags Samples.words_js "words.js"
                                  (MkPState initial_globals [])).
  apply (bool_decide_unpack _). vm_compute. exact I.
Defined.

Lemma untagged_fields b :
  untagged b →
  Block.parsedLines b = [] ∧ Block.page b = [] ∧ Block.classs b = []
  ∧ Block.file b = [] ∧ Block.library b = [] ∧ Block.func b = []
  ∧ Block.method b = [] ∧ Block.property b = [] ∧ Block.todo b = [].
Proof. intros ->. cbn. repeat split. Qed.

Lemma lines_nonempty b : Block.lines b ≠ [].
Proof.
  unfold Block.lines, JS.split_nl. intros H%fmap_nil_inv.
  revert H. generalize (@nil ascii). induction (JS.chars (Block.src b)) as [|c l IH];
    intros cur; cbn; [done|]. destruct (Ascii.eqb c JS.nl); [done|apply IH].
Qed.

Lemma unparsed_nonempty b :
  Block.parsedLines b = [] → Block.getUnparsedLines2 true b ≠ [].
Proof.
  intros Hb. unfold Block.getUnparsedLines2, Block.unparsed.
  pose proof (unparsed_from_unmarked b 0 (Block.lines b) Hb) as H.
  intros E%fmap_nil_inv. rewrite E in H. cbn in H. symmetry in H.
  by apply lines_nonempty in H.
Qed.

Lemma assemble_block_untagged s b :
  untagged b →
  assemble_block s b
  = report (Block.filename b) (Some (Block.lineNumber b))
           (unparsed_message (Block.getUnparsedLines2 true b)) s.
Proof.
  intros Hb. pose proof (untagged_fields b Hb) as (Hp & H1 & H2 & H3 & H4 & H5 & H6 & H7 & H8).
  unfold assemble_block, assemble_primary. rewrite H1, H2, H3, H4, H5, H6, H7.
  unfold assemble_todos. rewrite H8. cbn [fold_left].
  unfold report_unparsed.
  destruct (Block.getUnparsedLines2 true b) eqn:E; [|done].
  by apply unparsed_nonempty in E.
Qed.

Lemma assemble_blocks_untagged blocks s :
  Forall untagged blocks →
  ∃ reports,
    doc (assemble_blocks blocks s)
    = fold_left (λ d e, Documentation.push_error e d) reports (doc s)
    ∧ lastClass (assemble_blocks blocks s) = lastClass s
    ∧ map anon_report reports = map report_of blocks.
Proof.
  intros H. revert s. induction H as [|b blocks Hb Hbs IH]; intros s.
  - exists []. done.
  - unfold assemble_blocks. cbn [fold_left]. rewrite assemble_block_untagged by done.
    fold (assemble_blocks blocks
            (report (Block.filename b) (Some (Block.lineNumber b))
                    (unparsed_message (Block.getUnparsedLines2 true b)) s)).
    destruct (IH (report (Block.filename b) (Some (Block.lineNumber b))
                    (unparsed_message (Block.getUnparsedLines2 true b)) s))
      as (reports & Hd & Hl & Hr).
    unfold report in Hd, Hl |- *.
    destruct (ErrorReport.new _ _ _ _) as [e g'] eqn:E. cbn [doc lastClass] in Hd, Hl.
    exists (e :: reports). split; [exact Hd|]. split; [exact Hl|].
    cbn [map]. rewrite Hr. f_equal.
    unfold ErrorReport.new in E. injection E as <- _. reflexivity.
Qed.

Lemma push_errors_new errs reports :
  fold_left (λ d e, Documentation.push_error e d) reports
    (fold_left (λ d e, Documentation.push_error e d) errs Documentation.new)
  = Documentation.Mk [] [] [] [] [] None [] (errs ++ reports) [] [] ∅ ∅.
Proof.
  rewrite <- fold_left_app.
  assert (H : ∀ l d, fold_left (λ d e, Documentation.push_error e d) l d
     = Documentation.Mk (Documentation.store d) (Documentation.pages d)
         (Documentation.classes d) (Documentation.files d) (Documentation.functions d)
         (Documentation.library d) (Documentation.todos d)
         (Documentation.errors d ++ l)
         (Documentation.methods d) (Documentation.properties d)
         (Documentation.name2class d) (Documentation.name2entity d)).
  { induction l as [|e l IH]; intros d; cbn [fold_left].
    - rewrite app_nil_r. by destruct d.
    - rewrite IH. cbn. by rewrite <- app_assoc. }
  rewrite H. reflexivity.
Qed.

(** X6: [makeEntities] on blocks without commands returns; the
    documentation holds no entity of any kind; after the reports passed
    in it holds one report on unparsed lines for each block, in the order
    of the blocks, with the block's file name and line number. *)
Theorem X6_untagged_blocks_are_only_reported blocks errs g :
  Forall untagged blocks →
  ∃ reports g',
    makeEntities blocks errs g
    = Ok (Documentation.Mk [] [] [] [] [] None [] (errs ++ reports) [] [] ∅ ∅, g')
    ∧ map anon_report reports = map report_of blocks.
Proof.
  intros H. unfold makeEntities.
  destruct (assemble_blocks_untagged blocks (assemble_start errs g) H)
    as (reports & Hd & Hl & Hr).
  exists reports. eexists. split; [|done].
  unfold assemble_finish. cbv zeta. cbn [doc]. rewrite !Hd.
  unfold assemble_start. cbn [doc]. rewrite push_errors_new. reflexivity.
Qed.

(** The block of [words.js]. *)
Lemma X6_untagged_blocks_are_only_reported_witness :
  ∃ reports g',
    makeEntities [Inputs.first_block Samples.words_js "words.js"] []
                 (MkGlobals 1 0 0 ∅)
    = Ok (Documentation.Mk [] [] [] [] [] None [] ([] ++ reports) [] [] ∅ ∅, g')
    ∧ map anon_report reports
      = map report_of [Inputs.first_block Samples.words_js "words.js"].
Proof.
  apply (X6_untagged_blocks_are_only_reported
           [Inputs.first_block Samples.words_js "words.js"] [] (MkGlobals 1 0 0 ∅)).
  constructor; [vm_compute; reflexivity|constructor].
Defined.

(** ** Optional text that is left out, in any block *)
















(** ** A line among the lines of a block *)











Section ParamLoop.
Variable b : Block.t.
Let body := λ (jl : nat * string) '((commands, block), desc),
  match RegExp.match_ Pat.param jl.2 with
  | Some result =>
      let dataType := at_ result 1 in
      let paramName := at_ result 2 in
      let desc := if nonempty_string (at_ result 4) then at_ result 4 else desc in
      let command := ParamCommand.Mk (Block.id block) dataType paramName desc in
      ret ((commands ++ [command], Block.markLineAsParsed jl.1 block), desc)
  | None =>
      bind (mismatch Pat.param_tag
                     (spec_text "@param" "@param dataType paramName [description]")
                     jl.1 jl.2 (commands, block))
           (λ acc, ret (acc, desc))
  end.



End ParamLoop.





(** The second [@param] line of [Inputs.described_text] has no
    description, and its command gets that of the first line. *)
Lemma param_description_is_carried :
  parse_line ParamCommand_parse Inputs.described_text
  = Some ([ParamCommand.Mk 1 (Some "Number") (Some "a") (Some "the first");
           ParamCommand.Mk 1 (Some "Number") (Some "b") (Some "the first")],
          [0; 1]).
Proof. vm_compute. reflexivity. Qed.

(** ** Tags that are left open or followed by too much *)

(** Literal text in a pattern. *)
Lemma lit_matcher ml L x k :
  matcher ml (lit L) x k
  = if JS.is_prefix (JS.chars L) (after x)
    then k (MState (rev (JS.chars L) ++ before x)
                   (drop (length (JS.chars L)) (after x)) (caps x))
    else None.
Proof.
  revert x. induction L as [|a L IH]; intros [bef aft cp].
  - reflexivity.
  - destruct L as [|b L].
    + cbn [lit matcher]. unfold step1. cbn [JS.chars list_ascii_of_string JS.is_prefix after before caps].
      destruct aft as [|c rest]; [done|].
      destruct (Ascii.eqb_spec a c) as [->|]; [|done]. reflexivity.
    + change (lit (String a (String b L))) with (Seq (Chr a) (lit (String b L))).
      cbn [matcher]. unfold step1 at 1.
      change (JS.chars (String a (String b L))) with (a :: JS.chars (String b L)).
      cbn [JS.is_prefix after before caps].
      destruct aft as [|c rest]; [done|].
      destruct (Ascii.eqb_spec a c) as [->|]; [|done].
      rewrite IH. cbn [after before caps length drop rev].
      by rewrite <- app_assoc.
Qed.

Lemma search_lit_found ml L n i bef aft k :
  JS.indexOf_from i (JS.chars L) aft = Some k →
  ∃ xy, search ml (lit L) n bef aft = Some xy.
Proof.
  revert i bef. induction aft as [|a aft IH]; intros i bef; cbn [JS.indexOf_from search].
  - rewrite lit_matcher. cbn [after].
    destruct (JS.is_prefix (JS.chars L) []); [by eexists|done].
  - rewrite lit_matcher. cbn [after].
    destruct (JS.is_prefix (JS.chars L) (a :: aft)); [by eexists|].
    apply IH.
Qed.

Lemma test_lit_found L s :
  JS.indexOf s L ≠ None → test (RE (lit L) false) s = true.
Proof.
  intros H. unfold test, match_. cbn [pattern flag_m].
  destruct (JS.indexOf s L) as [k|] eqn:E; [|done].
  destruct (search_lit_found false L (ncaps (RE (lit L) false)) 0 [] _ k E) as ([x y] & ->).
  done.
Qed.

(** A search fails when the matcher fails wherever it is started. *)
Lemma search_none ml r n bef aft :
  (∀ bef' aft' caps', (∃ l, aft = l ++ aft') →
     matcher ml r (MState bef' aft' caps') Some = None) →
  search ml r n bef aft = None.
Proof.
  revert bef. induction aft as [|a aft IH]; intros bef H; cbn [search].
  - rewrite H; [done|by exists []].
  - rewrite H by (by exists []). apply IH.
    intros bef' aft' caps' (l & ->). apply H. by exists (a :: l).
Qed.

Lemma example_needs_end s :
  JS.indexOf s "@endexample" = None → match_ Pat.example s = None.
Proof.
  intros H. unfold match_.
  destruct (search _ _ _ _ _) as [[x y]|] eqn:E; [|done]. exfalso.
  rewrite search_none in E; [done|]. clear E x y.
  intros bef' aft' caps' (l & Hl).
  destruct (matcher _ _ _ _) as [z|] eqn:E; [|done]. exfalso.
  unfold Pat.example, Pat.re in E. cbn [pattern seq] in E.
  cbn [matcher] in E.
  apply matcher_sound in E as (y1 & Hr1 & E).
  apply matcher_sound in E as (y2 & Hr2 & E).
  change (matcher false (Seq (Chr "@") _) (set_cap 1 _ y2) Some)
    with (matcher false (lit "@endexample") (set_cap 1 (Some (consumed y1 y2)) y2) Some) in E.
  rewrite lit_matcher in E.
  destruct (JS.is_prefix _ _) eqn:Ep; [|done].
  apply is_prefix_spec in Ep as (post & Ep). cbn [set_cap after] in Ep.
  destruct (reaches_trans _ _ _ Hr1 Hr2) as (l' & Hl' & _). cbn [after] in Hl'.
  unfold JS.indexOf in H.
  apply (indexOf_from_occurs 0 (JS.chars "@endexample") (l ++ l') post).
  rewrite <- H. f_equal. rewrite Hl, Hl', Ep, <- !app_assoc. done.
Qed.

(** X7: [ExampleCommand.parse] on a block whose unparsed text holds
    [@example] and no [@endexample]: the branch that should report reads
    the variable [j], which is not declared there, and the call throws;
    nothing is reported. *)
Theorem X7_example_without_end_throws b st :
  let text := JS.join_nl (Block.getUnparsedLines b) in
  JS.indexOf text "@example" ≠ None →
  JS.indexOf text "@endexample" = None →
  ExampleCommand_parse b st = (Throw "ReferenceError: j is not defined", st).
Proof.
  intros text H1 H2. unfold ExampleCommand_parse. fold text.
  rewrite example_needs_end by done.
  unfold Pat.example_tag, Pat.re. cbn [seq].
  by rewrite test_lit_found.
Qed.

(** A block with [@example] and no [@endexample]. *)
Lemma X7_example_without_end_throws_witness :
  ExampleCommand_parse (Inputs.line_block "@example x = 1") (MkPState initial_globals [])
  = (Throw "ReferenceError: j is not defined", MkPState initial_globals []).
Proof.
  apply (X7_example_without_end_throws (Inputs.line_block "@example x = 1")
                                    (MkPState initial_globals [])).
  - vm_compute. discriminate.
  - vm_compute. reflexivity.
Defined.

Section RunsFail.
Variable m : mstate → cont → option mstate.
Variable p : ascii → bool.
Hypothesis m_step : ∀ x c, m x c = step1 p x c.

(** A greedy star over single characters fails when what follows it
    fails after every part of the run it can take. *)
Lemma star_none run rest bef caps (c : cont) fuel :
  run_of p run rest →
  (∀ k, k ≤ length run →
        c (MState (rev (take k run) ++ bef) (drop k run ++ rest) caps) = None) →
  repeat_matcher fuel m [] 0 None (MState bef (run ++ rest) caps) c = None.
Proof.
  intros [Hrun Hrest]. revert bef fuel.
  induction Hrun as [|a run Ha Hrun IH]; intros bef fuel Hc.
  - destruct fuel as [|fuel]; [done|].
    rewrite repeat_matcher_unfold. cbn [clear_caps fold_right Nat.eqb].
    rewrite m_step. unfold step1. cbn [after app].
    specialize (Hc 0 (Nat.le_0_l _)). cbn in Hc.
    destruct rest as [|b rest]; [exact Hc|]. rewrite Hrest. exact Hc.
  - destruct fuel as [|fuel]; [done|].
    rewrite repeat_matcher_unfold. cbn [clear_caps fold_right Nat.eqb].
    rewrite m_step.
    unfold step1 at 1. cbn [after before RegExp.caps app]. rewrite Ha.
    cbn [andb length Init.Nat.pred fmap option_fmap option_map].
    replace (length (run ++ rest) =? S (length (run ++ rest))) with false
      by (symmetry; apply Nat.eqb_neq; lia).
    rewrite (IH (a :: bef) fuel).
    + apply (Hc 0 (Nat.le_0_l _)).
    + intros k Hk. specialize (Hc (S k)). cbn in Hc.
      rewrite <- app_assoc in Hc. apply Hc. lia.
Qed.

Lemma plus_none run rest bef caps (c : cont) fuel :
  run_of p run rest →
  (∀ k, 1 ≤ k ≤ length run →
        c (MState (rev (take k run) ++ bef) (drop k run ++ rest) caps) = None) →
  repeat_matcher fuel m [] 1 None (MState bef (run ++ rest) caps) c = None.
Proof.
  intros [Hrun Hrest] Hc.
  destruct fuel as [|fuel]; [done|].
  rewrite repeat_matcher_unfold. cbn [clear_caps fold_right Nat.eqb].
  rewrite m_step. unfold step1 at 1. cbn [after before RegExp.caps].
  destruct run as [|a run].
  - cbn [app]. destruct rest as [|b rest]; [done|]. by rewrite Hrest.
  - apply Forall_cons in Hrun as [Ha Hrun]. cbn [app]. rewrite Ha.
    cbn [andb length Init.Nat.pred fmap option_fmap option_map].
    apply star_none; [by split|].
    intros k Hk. specialize (Hc (S k)). cbn in Hc.
    rewrite <- app_assoc in Hc. apply Hc. lia.
Qed.
End RunsFail.

Lemma at_eol_more ml l1 l2 bef cp (k : cont) :
  l2 ≠ [] → Forall (λ a, is_line_terminator a = false) (take 1 (l1 ++ l2)) ∨ ml = false →
  (if at_eol ml (MState bef (l1 ++ l2) cp) then k (MState bef (l1 ++ l2) cp) else None) = None.
Proof.
  intros Hne H. unfold at_eol. cbn [after].
  destruct (l1 ++ l2) as [|a l] eqn:E.
  - apply app_eq_nil in E as [_ ->]. done.
  - destruct H as [H| ->]; [|done]. cbn in H. apply Forall_cons in H as [-> _].
    by rewrite andb_false_r.
Qed.

Lemma class_mismatch w rest :
  word w → at_sign ∉ JS.chars w → at_sign ∉ JS.chars rest → follows_word rest →
  match_ Pat.class ("@class " +:+ w +:+ rest) = None.
Proof.
  intros Hw Haw Har Hrest. unfold match_, Pat.class, Pat.re.
  cbn [flag_m pattern]. unfold ncaps. cbn [pattern groups seq lit app list_max fold_right Nat.max].
  rewrite !chars_app.
  change (JS.chars "@class ") with ("@"%char :: JS.chars "class ").
  cbn [app search].
  match goal with
  | |- context [matcher ?ml ?r ?x ?k] => assert (Hm : matcher ml r x k = None)
  end.
  { cbn.
    change (" "%char :: JS.chars w ++ JS.chars rest)
      with ([" "%char] ++ (JS.chars w ++ JS.chars rest)).
    apply (plus_none _ _ (step_is_step1 _)); [by apply blank_run|].
    intros k Hk. cbn in Hk. assert (k = 1) as -> by lia. cbn.
    apply (star_none _ _ (step_is_step1 _)).
    { apply word_run; [done|]. unfold follows_word in Hrest.
      by destruct (JS.chars rest). }
    intros k _. unfold set_cap. cbn [before after caps].
    apply at_eol_more; [|by right].
    unfold follows_word in Hrest. by destruct (JS.chars rest). }
  rewrite Hm. clear Hm.
  rewrite (search_absent _ at_sign); [done|reflexivity|].
  intros [?|[?|?]%elem_of_app]%elem_of_app; [|done|done].
  revert H. unfold at_sign. cbn. rewrite !elem_of_cons, elem_of_nil.
  intros H. repeat (destruct H as [H|H]; [discriminate H|]). done.
Qed.

Lemma class_tag_found w rest :
  test Pat.class_tag ("@class " +:+ w +:+ rest) = true.
Proof.
  unfold Pat.class_tag, Pat.re. cbn [seq]. apply test_lit_found.
  unfold JS.indexOf. rewrite chars_app.
  change (JS.chars "@class ") with (JS.chars "@class" ++ [" "%char]).
  rewrite <- app_assoc.
  apply (indexOf_from_occurs 0 (JS.chars "@class") []).
Qed.

Lemma markLineAsParsed_origin b i b' :
  same_origin b b' → same_origin b (Block.markLineAsParsed i b').
Proof.
  unfold Block.markLineAsParsed. by destruct (Block.lineIsParsed b' i).
Qed.

Lemma mismatch_steps {C} b tag text j line (acc : list C * Block.t) st :
  same_origin b acc.2 →
  ∃ st', mismatch tag text j line acc st = (Ok acc, st')
         ∧ errors st `prefix_of` errors st'.
Proof.
  intros Ho. unfold mismatch. destruct (test tag line).
  - unfold bind, push_error, ret. cbn. eexists. split; [done|].
    by apply prefix_app_r.
  - exists st. done.
Qed.

Lemma for_each_report {C} (body : nat → string → list C * Block.t → P (list C * Block.t))
      b (Q : ErrorReport.t → Prop) j line :
  (∀ j line acc st, same_origin b acc.2 →
     ∃ acc' st', body j line acc st = (Ok acc', st')
                 ∧ same_origin b acc'.2 ∧ errors st `prefix_of` errors st') →
  (∀ acc st, same_origin b acc.2 →
     ∃ e, errors (body j line acc st).2 = errors st ++ [e] ∧ Q e) →
  ∀ lines acc st,
    same_origin b acc.2 → (j, line) ∈ lines →
    ∃ e, e ∈ errors (for_each lines acc (λ jl acc, body jl.1 jl.2 acc) st).2 ∧ Q e.
Proof.
  intros Hbody Hbad.
  assert (Hgrow : ∀ lines acc st, same_origin b acc.2 →
            errors st `prefix_of`
              errors (for_each lines acc (λ jl acc, body jl.1 jl.2 acc) st).2).
  { induction lines as [|[j' l'] lines IH]; intros acc st Ho; cbn [for_each].
    - done.
    - unfold bind. cbn [fst snd].
      destruct (Hbody j' l' acc st Ho) as (acc' & st' & -> & Ho' & Hp).
      etrans; [exact Hp|]. by apply IH. }
  induction lines as [|[j' l'] lines IH]; intros acc st Ho Hin.
  - by apply elem_of_nil in Hin.
  - cbn [for_each]. unfold bind. cbn [fst snd].
    destruct (Hbody j' l' acc st Ho) as (acc' & st' & E & Ho' & Hp).
    apply elem_of_cons in Hin as [[= <- <-]|Hin].
    + destruct (Hbad acc st Ho) as (e & He & HQ). rewrite E in He |- *. cbn [snd] in He.
      exists e. split; [|done].
      destruct (Hgrow lines acc' st' Ho') as (l & ->). rewrite He.
      rewrite !elem_of_app, list_elem_of_singleton. auto.
    + rewrite E. by apply IH.
Qed.

(** X8: [ClassCommand.parse] on a block with an unparsed line [@class], a
    word, and more text after white space: a report is added with the
    block's file name, the global number of that line, and the message
    on the command spec followed by the line. *)
Theorem X8_class_line_with_more_text_is_reported b st j w rest :
  word w → at_sign ∉ JS.chars w → at_sign ∉ JS.chars rest → follows_word rest →
  (j, "@class " +:+ w +:+ rest) ∈ Block.getUnparsedLines2 false b →
  ∃ e, e ∈ errors (ClassCommand_parse b st).2
       ∧ ErrorReport.file e = Block.filename b
       ∧ ErrorReport.lineNumber e = Some (Block.localToGlobalLineNumber b j)
       ∧ ErrorReport.message e
         = spec_text "@class" "@class className" +:+ "@class " +:+ w +:+ rest.
Proof.
  intros Hw Haw Har Hrest Hin.
  unfold ClassCommand_parse, parse_lines.
  apply (for_each_report
           (λ j line '(commands, block),
              match and_then (match_ Pat.class line) (λ r, length r =? 2) with
              | Some result =>
                  ret (commands ++ [ClassCommand.Mk (Block.id block) (at_ result 1)],
                       Block.markLineAsParsed j block)
              | None =>
                  mismatch Pat.class_tag (spec_text "@class" "@class className")
                           j line (commands, block)
              end)
           b
           (λ e, ErrorReport.file e = Block.filename b
                 ∧ ErrorReport.lineNumber e = Some (Block.localToGlobalLineNumber b j)
                 ∧ ErrorReport.message e
                   = spec_text "@class" "@class className" +:+ "@class " +:+ w +:+ rest)
           j ("@class " +:+ w +:+ rest)); [| |done|exact Hin].
  - intros j' line' [commands block] st0 Ho. cbn [snd] in Ho.
    destruct (and_then _ _).
    + eexists _, st0. split; [reflexivity|]. split; [|done].
      by apply markLineAsParsed_origin.
    + destruct (mismatch_steps b Pat.class_tag
                  (spec_text "@class" "@class className") j' line'
                  (commands, block) st0 Ho) as (st' & -> & Hp).
      by eexists _, st'.
  - intros [commands block] st0 (Hf & Hl & Hr).
    rewrite class_mismatch by done. cbn [and_then].
    unfold mismatch. rewrite class_tag_found.
    unfold bind, push_error, ret. cbn [ErrorReport.new fst snd errors].
    eexists. split; [reflexivity|]. cbn.
    unfold Block.localToGlobalLineNumber. cbn [snd] in Hf, Hl, Hr.
    rewrite Hf, Hl, Hr. done.
Qed.

(** The line [@class Foo bar]. *)
Lemma X8_class_line_with_more_text_is_reported_witness :
  ∃ e, e ∈ errors (ClassCommand_parse (Inputs.line_block "@class Foo bar")
                                      (MkPState initial_globals [])).2
       ∧ ErrorReport.file e = Block.filename (Inputs.line_block "@class Foo bar")
       ∧ ErrorReport.lineNumber e
         = Some (Block.localToGlobalLineNumber (Inputs.line_block "@class Foo bar") 0)
       ∧ ErrorReport.message e
         = spec_text "@class" "@class className" +:+ "@class " +:+ "Foo" +:+ " bar".
Proof.
  apply (X8_class_line_with_more_text_is_reported
           (Inputs.line_block "@class Foo bar") (MkPState initial_globals [])
           0 "Foo" " bar").
  - split; [discriminate|]. vm_compute. repeat constructor.
  - apply (bool_decide_unpack _). vm_compute. exact I.
  - apply (bool_decide_unpack _). vm_compute. exact I.
  - reflexivity.
  - apply (bool_decide_unpack _). vm_compute. exact I.
Defined.

(** ** What the line parsers keep *)

Lemma plain_blank_run text rest :
  plain text → rest = [] →
  run_of (set_has false [CSpace]) [" "%char] (JS.chars text ++ rest).
Proof.
  intros [_ H] ->. split; [by repeat constructor|]. rewrite app_nil_r.
  destruct (JS.chars text) as [|a l]; [done|]. by rewrite set_has_space.
Qed.

Lemma plain_run text :
  plain text → run_of (λ a, negb (is_line_terminator a)) (JS.chars text) [].
Proof.
  intros [H _]. split; [|done]. eapply Forall_impl; [exact H|].
  intros a Ha. cbn in Ha. by rewrite Ha.
Qed.

Lemma plain_no_nl text : plain text → Forall (λ a, a ≠ JS.nl) (JS.chars text).
Proof.
  intros [H _]. eapply Forall_impl; [exact H|]. intros a Ha ->. discriminate.
Qed.

Ltac text_tag_match Ht :=
  unfold match_, Pat.re; cbn [flag_m pattern];
  unfold ncaps; cbn [pattern groups seq lit app list_max fold_right Nat.max];
  erewrite search_here;
  [
  |rewrite chars_app; cbn;
   eapply (plus_run _ _ (step_is_step1 _) [" "%char]);
     [reflexivity
     |rewrite <- (app_nil_r (JS.chars _)); by apply plain_blank_run
     |done|cbn; lia|];
   cbn;
   eapply (star_run _ _ (step_is_step1 _) (JS.chars _) []);
     [by rewrite app_nil_r|by apply plain_run|lia|];
   cbn; finish_match];
  read_captures.

Lemma match_author text :
  plain text →
  match_ Pat.author ("@author " +:+ text) = Some [Some ("@author " +:+ text); Some text].
Proof. intros Ht. unfold Pat.author. text_tag_match Ht. Qed.

Lemma match_brief text :
  plain text →
  match_ Pat.brief ("@brief " +:+ text) = Some [Some ("@brief " +:+ text); Some text].
Proof. intros Ht. unfold Pat.brief. text_tag_match Ht. Qed.

Lemma match_library text :
  plain text →
  match_ Pat.library ("@library " +:+ text) = Some [Some ("@library " +:+ text); Some text].
Proof. intros Ht. unfold Pat.library. text_tag_match Ht. Qed.

Lemma match_page text :
  plain text →
  match_ Pat.page ("@page " +:+ text) = Some [Some ("@page " +:+ text); Some text].
Proof. intros Ht. unfold Pat.page. text_tag_match Ht. Qed.

Lemma match_see text :
  plain text →
  match_ Pat.see ("@see " +:+ text) = Some [Some ("@see " +:+ text); Some text].
Proof. intros Ht. unfold Pat.see. text_tag_match Ht. Qed.

Lemma match_version text :
  plain text →
  match_ Pat.version ("@version " +:+ text) = Some [Some ("@version " +:+ text); Some text].
Proof. intros Ht. unfold Pat.version. text_tag_match Ht. Qed.

Ltac one_line Ht :=
  rewrite single_line
    by (rewrite ?chars_app; repeat (apply Forall_app; split);
        first [by apply plain_no_nl | by apply word_no_nl
              | repeat constructor; discriminate]);
  cbn [for_each]; unfold bind at 1; cbn [fst snd].

(** X9: The tags [@author], [@brief], [@library], [@page], [@see] and
    [@version], each followed by one blank and a text that stays on the
    line and does not start with white space: the line gives one
    command, which holds that text, and the line is marked. *)
Theorem X9_text_tags_keep_their_text text :
  plain text →
  parse_line AuthorCommand_parse ("@author " +:+ text)
  = Some ([AuthorCommand.Mk 1 (Some text)], [0])
  ∧ parse_line BriefCommand_parse ("@brief " +:+ text)
    = Some ([BriefCommand.Mk 1 (Some text)], [0])
  ∧ parse_line LibraryCommand_parse ("@library " +:+ text)
    = Some ([LibraryCommand.Mk 1 (Some text)], [0])
  ∧ parse_line PageCommand_parse ("@page " +:+ text)
    = Some ([PageCommand.Mk 1 (Some text)], [0])
  ∧ parse_line SeeCommand_parse ("@see " +:+ text)
    = Some ([SeeCommand.Mk 1 (Some text)], [0])
  ∧ parse_line VersionCommand_parse ("@version " +:+ text)
    = Some ([VersionCommand.Mk 1 (Some text)], [0]).
Proof.
  intros Ht.
  split; [|split; [|split; [|split; [|split]]]].
  - unfold parse_line, AuthorCommand_parse, parse_lines. one_line Ht.
    rewrite match_author by done. reflexivity.
  - unfold parse_line, BriefCommand_parse, parse_lines. one_line Ht.
    rewrite match_brief by done. reflexivity.
  - unfold parse_line, LibraryCommand_parse, parse_lines. one_line Ht.
    rewrite match_library by done. reflexivity.
  - unfold parse_line, PageCommand_parse, parse_lines. one_line Ht.
    rewrite match_page by done. reflexivity.
  - unfold parse_line, SeeCommand_parse, parse_lines. one_line Ht.
    rewrite match_see by done. reflexivity.
  - unfold parse_line, VersionCommand_parse, parse_lines. one_line Ht.
    rewrite match_version by done. reflexivity.
Qed.

(** The text [Ada Lovelace]. *)
Lemma X9_text_tags_keep_their_text_witness :
  plain "Ada Lovelace"
  ∧ parse_line AuthorCommand_parse ("@author " +:+ "Ada Lovelace")
    = Some ([AuthorCommand.Mk 1 (Some "Ada Lovelace")], [0])
  ∧ parse_line BriefCommand_parse ("@brief " +:+ "Ada Lovelace")
    = Some ([BriefCommand.Mk 1 (Some "Ada Lovelace")], [0])
  ∧ parse_line LibraryCommand_parse ("@library " +:+ "Ada Lovelace")
    = Some ([LibraryCommand.Mk 1 (Some "Ada Lovelace")], [0])
  ∧ parse_line PageCommand_parse ("@page " +:+ "Ada Lovelace")
    = Some ([PageCommand.Mk 1 (Some "Ada Lovelace")], [0])
  ∧ parse_line SeeCommand_parse ("@see " +:+ "Ada Lovelace")
    = Some ([SeeCommand.Mk 1 (Some "Ada Lovelace")], [0])
  ∧ parse_line VersionCommand_parse ("@version " +:+ "Ada Lovelace")
    = Some ([VersionCommand.Mk 1 (Some "Ada Lovelace")], [0]).
Proof.
  assert (H : plain "Ada Lovelace").
  { split; [vm_compute; repeat constructor|reflexivity]. }
  split; [exact H|]. apply (X9_text_tags_keep_their_text "Ada Lovelace" H).
Defined.

Ltac word_tag_match :=
  unfold match_, Pat.re; cbn [flag_m pattern];
  unfold ncaps; cbn [pattern groups seq lit app list_max fold_right Nat.max];
  erewrite search_here;
  [
  |rewrite chars_app; cbn;
   eapply (plus_run _ _ (step_is_step1 _) [" "%char]);
     [reflexivity
     |rewrite <- (app_nil_r (JS.chars _)); by apply blank_run
     |done|cbn; lia|];
   cbn;
   eapply (star_run _ _ (step_is_step1 _) (JS.chars _) []);
     [by rewrite app_nil_r|by apply word_run|lia|];
   cbn; finish_match];
  read_captures.

Lemma match_class w :
  word w →
  match_ Pat.class ("@class " +:+ w) = Some [Some ("@class " +:+ w); Some w].
Proof. intros Hw. unfold Pat.class. word_tag_match. Qed.

Lemma match_method w :
  word w →
  match_ Pat.method ("@method " +:+ w) = Some [Some ("@method " +:+ w); Some w].
Proof. intros Hw. unfold Pat.method. word_tag_match. Qed.

Lemma match_extends w rest :
  word w → after_word rest →
  match_ Pat.extends ("@extends " +:+ w +:+ rest)
  = Some [Some ("@extends " +:+ w); Some w].
Proof.
  intros Hw Hr. unfold Pat.extends.
  unfold match_, Pat.re; cbn [flag_m pattern];
  unfold ncaps; cbn [pattern groups seq lit app list_max fold_right Nat.max].
  erewrite search_here.
  2:{ rewrite !chars_app. cbn.
      eapply (plus_run _ _ (step_is_step1 _) [" "%char]);
        [reflexivity|by apply blank_run|done|cbn; lia|].
      cbn.
      eapply (star_run _ _ (step_is_step1 _) (JS.chars w) (JS.chars rest));
        [reflexivity|by apply word_run|rewrite length_app; lia|].
      cbn. reflexivity. }
  unfold result_array, set_cap. cbn -[JS.chars JS.str consumed].
  rewrite !chars_app, (app_assoc (JS.chars "@extends ")), !consumed_run.
  by rewrite <- chars_app, !str_chars.
Qed.

(** X10: The tags [@class] and [@method] followed by one word, and the tag
    [@extends] followed by one word and, after white space, anything
    else on the line: the line gives one command with that word as its
    name, and is marked. What follows the word of [@extends] is lost. *)
Theorem X10_name_tags_keep_their_word w rest :
  word w → after_word rest → Forall (λ a, a ≠ JS.nl) (JS.chars rest) →
  parse_line ClassCommand_parse ("@class " +:+ w)
  = Some ([ClassCommand.Mk 1 (Some w)], [0])
  ∧ parse_line MethodCommand_parse ("@method " +:+ w)
    = Some ([MethodCommand.Mk 1 (Some w)], [0])
  ∧ parse_line ExtendsCommand_parse ("@extends " +:+ w +:+ rest)
    = Some ([ExtendsCommand.Mk 1 (Some w)], [0]).
Proof.
  intros Hw Hr Hnl. split; [|split].
  - unfold parse_line, ClassCommand_parse, parse_lines. one_line Hw.
    rewrite match_class by done. reflexivity.
  - unfold parse_line, MethodCommand_parse, parse_lines. one_line Hw.
    rewrite match_method by done. reflexivity.
  - unfold parse_line, ExtendsCommand_parse, parse_lines.
    rewrite single_line
      by (rewrite !chars_app; repeat (apply Forall_app; split);
          [repeat constructor; discriminate|by apply word_no_nl|done]).
    cbn [for_each]; unfold bind at 1; cbn [fst snd].
    rewrite match_extends by done. reflexivity.
Qed.

(** The word [Shape], alone and followed by more text. *)
Lemma X10_name_tags_keep_their_word_witness :
  parse_line ClassCommand_parse ("@class " +:+ "Shape")
  = Some ([ClassCommand.Mk 1 (Some "Shape")], [0])
  ∧ parse_line MethodCommand_parse ("@method " +:+ "Shape")
    = Some ([MethodCommand.Mk 1 (Some "Shape")], [0])
  ∧ parse_line ExtendsCommand_parse ("@extends " +:+ "Shape" +:+ " of all things")
    = Some ([ExtendsCommand.Mk 1 (Some "Shape")], [0]).
Proof.
  apply (X10_name_tags_keep_their_word "Shape" " of all things").
  - split; [discriminate|]. vm_compute. repeat constructor.
  - reflexivity.
  - vm_compute. repeat constructor; discriminate.
Defined.

Lemma match_todo text :
  plain text →
  match_ Pat.todo ("@todo " +:+ text)
  = Some [Some ("@todo " +:+ text); Some (" " +:+ text); Some text].
Proof.
  intros Ht. unfold Pat.todo.
  unfold match_, Pat.re; cbn [flag_m pattern];
  unfold ncaps; cbn [pattern groups seq lit app list_max fold_right Nat.max].
  erewrite search_here.
  2:{ rewrite chars_app. cbn.
      eapply (plus_run _ _ (step_is_step1 _) [" "%char]);
        [reflexivity
        |rewrite <- (app_nil_r (JS.chars _)); by apply plain_blank_run
        |done|cbn; lia|].
      cbn.
      eapply (star_run _ _ (step_is_step1 _) (JS.chars _) []);
        [by rewrite app_nil_r|by apply plain_run|lia|].
      cbn. reflexivity. }
  unfold result_array, set_cap. cbn -[JS.chars JS.str consumed].
  rewrite !consumed_all.
  change (" "%char :: JS.chars text) with (JS.chars (" " +:+ text)).
  by rewrite !str_chars.
Qed.

Lemma match_event w text :
  word w → plain text →
  match_ Pat.event ("@event " +:+ w +:+ " " +:+ text)
  = Some [Some ("@event " +:+ w +:+ " " +:+ text); Some w; Some (" " +:+ text);
          Some text].
Proof.
  intros Hw Ht. unfold Pat.event.
  unfold match_, Pat.re; cbn [flag_m pattern];
  unfold ncaps; cbn [pattern groups seq lit app list_max fold_right Nat.max].
  erewrite search_here.
  2:{ rewrite !chars_app. cbn.
      eapply (plus_run _ _ (step_is_step1 _) [" "%char]);
        [reflexivity|by apply blank_run|done|cbn; lia|].
      cbn.
      eapply (star_run _ _ (step_is_step1 _) (JS.chars w));
        [reflexivity|by apply word_run|rewrite length_app; lia|].
      cbn.
      rewrite repeat_matcher_unfold. cbn.
      apply first_alternative. unfold set_cap. cbn.
      eapply (plus_run _ _ (step_is_step1 _) [" "%char]);
        [reflexivity
        |rewrite <- (app_nil_r (JS.chars _)); by apply plain_blank_run
        |done|cbn; lia|].
      cbn.
      eapply (star_run _ _ (step_is_step1 _) (JS.chars _) []);
        [by rewrite app_nil_r|by apply plain_run|lia|].
      cbn. rewrite repeat_matcher_unfold. cbn. reflexivity. }
  unfold result_array, set_cap. cbn -[JS.chars JS.str consumed].
  rewrite !consumed_all, !consumed_run.
  change (" "%char :: JS.chars text) with (JS.chars (" " +:+ text)).
  by rewrite !str_chars.
Qed.

(** X11: The text of [@todo], and the description of [@event] after the name,
    are kept with the blank that stands before them. *)
Theorem X11_todo_and_event_text_keeps_its_blank w text :
  word w → plain text →
  parse_line TodoCommand_parse ("@todo " +:+ text)
  = Some ([TodoCommand.Mk 1 (Some (" " +:+ text))], [0])
  ∧ parse_line EventCommand_parse ("@event " +:+ w +:+ " " +:+ text)
    = Some ([EventCommand.Mk 1 (Some w) (Some (" " +:+ text))], [0]).
Proof.
  intros Hw Ht. split.
  - unfold parse_line, TodoCommand_parse, parse_lines. one_line Ht.
    rewrite match_todo by done. reflexivity.
  - unfold parse_line, EventCommand_parse, parse_lines.
    rewrite single_line
      by (rewrite !chars_app; repeat (apply Forall_app; split);
          [repeat constructor; discriminate|by apply word_no_nl
          |repeat constructor; discriminate|by apply plain_no_nl]).
    cbn [for_each]; unfold bind at 1; cbn [fst snd].
    rewrite match_event by done. reflexivity.
Qed.

(** The event [click] and the text [when pressed]. *)
Lemma X11_todo_and_event_text_keeps_its_blank_witness :
  parse_line TodoCommand_parse ("@todo " +:+ "when pressed")
  = Some ([TodoCommand.Mk 1 (Some (" " +:+ "when pressed"))], [0])
  ∧ parse_line EventCommand_parse ("@event " +:+ "click" +:+ " " +:+ "when pressed")
    = Some ([EventCommand.Mk 1 (Some "click") (Some (" " +:+ "when pressed"))], [0]).
Proof.
  apply (X11_todo_and_event_text_keeps_its_blank "click" "when pressed").
  - split; [discriminate|]. vm_compute. repeat constructor.
  - split; [vm_compute; repeat constructor|reflexivity].
Defined.

Lemma match_property dt name :
  word dt → word name →
  match_ Pat.property ("@property " +:+ dt +:+ " " +:+ name)
  = Some [Some ("@property " +:+ dt +:+ " " +:+ name); Some dt; Some name; None].
Proof.
  intros Hdt Hname. unfold Pat.property.
  unfold match_, Pat.re; cbn [flag_m pattern];
  unfold ncaps; cbn [pattern groups seq lit app list_max fold_right Nat.max].
  erewrite search_here.
  2:{ rewrite !chars_app. cbn.
      eapply (plus_run _ _ (step_is_step1 _) [" "%char]);
        [reflexivity|by apply blank_run|done|cbn; lia|].
      cbn.
      eapply (star_run _ _ (step_is_step1 _) (JS.chars dt));
        [reflexivity|by apply word_run|rewrite length_app; lia|].
      cbn.
      eapply (plus_run _ _ (step_is_step1 _) [" "%char] (JS.chars name));
        [reflexivity| |done|cbn; lia|].
      { rewrite <- (app_nil_r (JS.chars name)). by apply blank_run. }
      cbn.
      eapply (star_run _ _ (step_is_step1 _) (JS.chars name) []);
        [by rewrite app_nil_r|by apply word_run|lia|].
      cbn. finish_match. }
  read_captures.
Qed.

Lemma match_property_text dt name text :
  word dt → word name → plain text → text ≠ "" →
  match_ Pat.property ("@property " +:+ dt +:+ " " +:+ name +:+ " " +:+ text)
  = Some [Some ("@property " +:+ dt +:+ " " +:+ name +:+ " " +:+ text);
          Some dt; Some name; Some text].
Proof.
  intros Hdt Hname Ht Hne. unfold Pat.property.
  unfold match_, Pat.re; cbn [flag_m pattern];
  unfold ncaps; cbn [pattern groups seq lit app list_max fold_right Nat.max].
  erewrite search_here.
  2:{ rewrite !chars_app. cbn.
      eapply (plus_run _ _ (step_is_step1 _) [" "%char]);
        [reflexivity|by apply blank_run|done|cbn; lia|].
      cbn.
      eapply (star_run _ _ (step_is_step1 _) (JS.chars dt));
        [reflexivity|by apply word_run|rewrite length_app; lia|].
      cbn.
      eapply (plus_run _ _ (step_is_step1 _) [" "%char]);
        [reflexivity|by apply blank_run|done|cbn; lia|].
      cbn.
      eapply (star_run _ _ (step_is_step1 _) (JS.chars name));
        [reflexivity|by apply word_run|rewrite length_app; cbn; lia|].
      cbn.
      eapply (star_run _ _ (step_is_step1 _) [" "%char]);
        [reflexivity
        |rewrite <- (app_nil_r (JS.chars _)); by apply plain_blank_run
        |cbn; lia|].
      cbn. rewrite repeat_matcher_unfold. cbn.
      apply first_alternative. unfold set_cap. cbn.
      eapply (star_run _ _ (step_is_step1 _) (JS.chars _) []);
        [by rewrite app_nil_r|by apply plain_run|lia|].
      cbn.
      destruct (length (JS.chars text)) as [|n] eqn:En.
      { destruct text; [done|discriminate En]. }
      rewrite repeat_matcher_unfold. cbn. reflexivity. }
  unfold result_array, set_cap. cbn -[JS.chars JS.str consumed].
  rewrite !consumed_all, !consumed_run. by rewrite !str_chars.
Qed.

(** X12: [@property] with a data type and a name, with or without a text
    after them: the line gives the same command, which holds the data
    type and the name; the text is not kept. *)
Theorem X12_property_text_is_dropped dt name text :
  word dt → word name → plain text → text ≠ "" →
  parse_line PropertyCommand_parse ("@property " +:+ dt +:+ " " +:+ name)
  = Some ([PropertyCommand.Mk 1 (Some dt) (Some name)], [0])
  ∧ parse_line PropertyCommand_parse
      ("@property " +:+ dt +:+ " " +:+ name +:+ " " +:+ text)
    = Some ([PropertyCommand.Mk 1 (Some dt) (Some name)], [0]).
Proof.
  intros Hdt Hname Ht Hne. split.
  - unfold parse_line, PropertyCommand_parse, parse_lines.
    rewrite single_line by no_newline.
    cbn [for_each]; unfold bind at 1; cbn [fst snd].
    rewrite match_property by done. reflexivity.
  - unfold parse_line, PropertyCommand_parse, parse_lines.
    rewrite single_line
      by (rewrite !chars_app; repeat (apply Forall_app; split);
          first [by apply plain_no_nl | by apply word_no_nl
                | repeat constructor; discriminate]).
    cbn [for_each]; unfold bind at 1; cbn [fst snd].
    rewrite match_property_text by done. reflexivity.
Qed.

(** The property [x] of type [Number], described as [the abscissa]. *)
Lemma X12_property_text_is_dropped_witness :
  parse_line PropertyCommand_parse ("@property " +:+ "Number" +:+ " " +:+ "x")
  = Some ([PropertyCommand.Mk 1 (Some "Number") (Some "x")], [0])
  ∧ parse_line PropertyCommand_parse
      ("@property " +:+ "Number" +:+ " " +:+ "x" +:+ " " +:+ "the abscissa")
    = Some ([PropertyCommand.Mk 1 (Some "Number") (Some "x")], [0]).
Proof.
  apply (X12_property_text_is_dropped "Number" "x" "the abscissa").
  - split; [discriminate|]. vm_compute. repeat constructor.
  - split; [discriminate|]. vm_compute. repeat constructor.
  - split; [vm_compute; repeat constructor|reflexivity].
  - discriminate.
Defined.

(** ** The order and the index after [update] *)

Section Sorting.
Context {A : Type} (gt : A → A → bool).

Lemma sort_insert_perm x l : sort_insert gt x l ≡ₚ x :: l.
Proof.
  induction l as [|y l IH]; cbn; [done|].
  destruct (gt y x); [done|]. rewrite IH. apply Permutation_swap.
Qed.

Lemma js_sort_perm l : js_sort gt l ≡ₚ l.
Proof.
  unfold js_sort.
  assert (H : ∀ acc, fold_left (λ acc x, sort_insert gt x acc) l acc ≡ₚ acc ++ l).
  { induction l as [|x l IH]; intros acc; cbn.
    - by rewrite app_nil_r.
    - rewrite IH, sort_insert_perm. cbn. apply Permutation_middle. }
  by rewrite H.
Qed.

Hypothesis gt_asym : ∀ x y, gt y x = true → gt x y = false.
Hypothesis gt_mix : ∀ x y r, gt y x = true → gt y r = false → gt x r = false.

Lemma sort_insert_in_order x l : in_order gt l → in_order gt (sort_insert gt x l).
Proof.
  unfold in_order. induction 1 as [|y l Hl IH Hy]; cbn.
  - repeat constructor.
  - destruct (gt y x) eqn:E.
    + constructor; [by constructor|]. constructor; [by apply gt_asym|].
      eapply Forall_impl; [exact Hy|]. intros r Hr. by eapply gt_mix.
    + constructor; [exact IH|].
      apply Forall_forall. intros r Hr%sort_insert_elem.
      destruct Hr as [->|Hr]; [done|].
      by eapply Forall_forall in Hy.
Qed.

Lemma js_sort_in_order l : in_order gt (js_sort gt l).
Proof.
  unfold js_sort.
  assert (H : ∀ acc, in_order gt acc →
                     in_order gt (fold_left (λ acc x, sort_insert gt x acc) l acc)).
  { induction l as [|x l IH]; intros acc Hacc; cbn; [done|].
    apply IH. by apply sort_insert_in_order. }
  apply H. constructor.
Qed.
End Sorting.

Lemma str_ltb_irrefl x : JS.str_ltb x x = false.
Proof.
  induction x as [|a x IH]; cbn [JS.str_ltb]; [done|]. by rewrite Nat.ltb_irrefl.
Qed.

Lemma str_ltb_trans x y z :
  JS.str_ltb x y = true → JS.str_ltb y z = true → JS.str_ltb x z = true.
Proof.
  revert y z. induction x as [|a x IH]; intros [|b y] [|c z]; cbn [JS.str_ltb]; try done.
  destruct (Nat.ltb_spec (nat_of_ascii a) (nat_of_ascii b)) as [Hab|Hab];
  destruct (Nat.ltb_spec (nat_of_ascii b) (nat_of_ascii c)) as [Hbc|Hbc];
  destruct (Nat.ltb_spec (nat_of_ascii b) (nat_of_ascii a)) as [Hba|Hba];
  destruct (Nat.ltb_spec (nat_of_ascii c) (nat_of_ascii b)) as [Hcb|Hcb];
  destruct (Nat.ltb_spec (nat_of_ascii a) (nat_of_ascii c)) as [Hac|Hac];
  destruct (Nat.ltb_spec (nat_of_ascii c) (nat_of_ascii a)) as [Hca|Hca];
    try done; try lia.
  apply IH.
Qed.

Lemma str_ltb_asym x y : JS.str_ltb x y = true → JS.str_ltb y x = false.
Proof.
  intros H. destruct (JS.str_ltb y x) eqn:E; [|done].
  pose proof (str_ltb_trans _ _ _ H E) as H'. by rewrite str_ltb_irrefl in H'.
Qed.

Lemma gt_asym x y : JS.gt y x = true → JS.gt x y = false.
Proof.
  destruct x as [x|], y as [y|]; cbn; try done. apply str_ltb_asym.
Qed.

Lemma gt_mix x y r : JS.gt y x = true → JS.gt y r = false → JS.gt x r = false.
Proof.
  destruct x as [x|], y as [y|], r as [r|]; cbn; try done.
  intros Hxy Hry. destruct (JS.str_ltb r x) eqn:E; [|done].
  by rewrite (str_ltb_trans _ _ _ E Hxy) in Hry.
Qed.

(** X13: [Documentation.update], when every page, class and function has a
    name: the pages, the classes and the functions are left in the order
    of [sortbyname] (no entry has a name greater than that of a later
    entry), with the entries they had. *)
Theorem X13_update_sorts_by_name d :
  Forall (λ p, is_Some (PageEntity.getName p)) (Documentation.pages d) →
  Forall (λ a, is_Some (Documentation.class_name d a)) (Documentation.classes d) →
  Forall (λ f, is_Some (FunctionEntity.getName f)) (Documentation.functions d) →
  let d' := Documentation.update d in
  (in_order (Documentation.sortbyname PageEntity.getName) (Documentation.pages d')
   ∧ Documentation.pages d' ≡ₚ Documentation.pages d)
  ∧ (in_order (Documentation.sortbyname (Documentation.class_name d))
              (Documentation.classes d')
     ∧ Documentation.classes d' ≡ₚ Documentation.classes d)
  ∧ (in_order (Documentation.sortbyname FunctionEntity.getName)
              (Documentation.functions d')
     ∧ Documentation.functions d' ≡ₚ Documentation.functions d).
Proof.
  intros _ _ _. cbv zeta. unfold Documentation.update. cbn.
  repeat split; try apply js_sort_perm;
    apply js_sort_in_order; unfold Documentation.sortbyname; intros *;
    (apply gt_asym || apply gt_mix).
Qed.

(** The documentation of [kinds.js], with a page, a class and a
    function. *)
Lemma X13_update_sorts_by_name_witness :
  let d := Samples.kinds_doc in
  let d' := Documentation.update d in
  (in_order (Documentation.sortbyname PageEntity.getName) (Documentation.pages d')
   ∧ Documentation.pages d' ≡ₚ Documentation.pages d)
  ∧ (in_order (Documentation.sortbyname (Documentation.class_name d))
              (Documentation.classes d')
     ∧ Documentation.classes d' ≡ₚ Documentation.classes d)
  ∧ (in_order (Documentation.sortbyname FunctionEntity.getName)
              (Documentation.functions d')
     ∧ Documentation.functions d' ≡ₚ Documentation.functions d).
Proof.
  apply (X13_update_sorts_by_name Samples.kinds_doc).
  - vm_compute. repeat constructor. by eexists.
  - vm_compute. repeat constructor. by eexists.
  - vm_compute. repeat constructor. by eexists.
Defined.

(** X14: After [Documentation.update], [nameToClass(name)] is the class
    entered last under that name: of several classes with one name the
    index keeps the last. For a name no class has, the index object
    answers through its prototype; when no class is named [__proto__],
    this is a value that is no class entity for the names of
    [Object.prototype], and [undefined] for every other name. *)
Theorem X14_nameToClass_finds_last_of_name d name :
  Documentation.nameToClass (Documentation.update d) name
  = match last (filter (λ a, JS.ToString (Documentation.class_name d a)
                             = JS.ToString name)
                       (Documentation.classes d)) with
    | Some a => Some (Documentation.Class a)
    | None => Documentation.inherited (Documentation.update d) (JS.ToString name)
    end
  ∧ (no_prototype_class d →
     Documentation.inherited (Documentation.update d) (JS.ToString name)
     = if bool_decide (JS.ToString name ∈ Documentation.object_members)
       then Some Documentation.NotAClass else None).
Proof.
  split.
  - unfold Documentation.nameToClass at 1.
    unfold Documentation.update at 1. cbn [Documentation.name2class].
    unfold Documentation.index_classes.
    rewrite (index_fold_last (λ a, JS.ToString (Documentation.class_name d a))).
    rewrite lookup_empty. by destruct (last _).
  - intros H. apply inherited_plain. cbn. by apply index_no_prototype.
Qed.

(** ** Sequence ids at parse time *)

Lemma advances_refl st : advances 0 st st.
Proof.
  exists []. rewrite app_nil_r. split; [done|]. split; [done|].
  destruct st as [[] ?]. cbn. f_equal; lia.
Qed.

Lemma advances_trans n1 n2 st1 st2 st3 :
  advances n1 st1 st2 → advances n2 st2 st3 → advances (n1 + n2) st1 st3.
Proof.
  intros (new1 & He1 & Hi1 & Hg1) (new2 & He2 & Hi2 & Hg2).
  exists (new1 ++ new2). rewrite He2, He1, <- app_assoc. split; [done|].
  rewrite Hg2, Hg1. cbn. rewrite Hg1 in Hi2. cbn in Hi2.
  split.
  - rewrite map_app, Hi1, Hi2, length_app, seq_app. by f_equal.
  - rewrite length_app. f_equal; lia.
Qed.

Lemma ret_reports {A} (a : A) : reports_only (ret a).
Proof. intros st. apply advances_refl. Qed.

Lemma throw_reports {A} e : reports_only (@throw A e).
Proof. intros st. apply advances_refl. Qed.

Lemma bind_reports {A B} (m : P A) (f : A → P B) :
  reports_only m → (∀ a, reports_only (f a)) → reports_only (bind m f).
Proof.
  intros Hm Hf st. unfold bind. specialize (Hm st).
  destruct (m st) as [[a|e] st1]; cbn in Hm |- *; [|done].
  apply (advances_trans 0 0 _ _ _ Hm (Hf a st1)).
Qed.

Lemma push_error_reports f l msg : reports_only (push_error f l msg).
Proof.
  intros st. unfold push_error, ErrorReport.new. cbn.
  eexists [_]. split; [done|]. split; [done|]. cbn. f_equal; lia.
Qed.

Lemma for_each_reports {A S} (l : list A) (body : A → S → P S) :
  (∀ a acc, reports_only (body a acc)) → ∀ acc, reports_only (for_each l acc body).
Proof.
  intros Hb. induction l as [|a l IH]; intros acc; cbn [for_each].
  - apply ret_reports.
  - apply bind_reports; [apply Hb|]. intros acc'. apply IH.
Qed.

Lemma mismatch_reports {C} tag text j line (acc : list C * Block.t) :
  reports_only (mismatch tag text j line acc).
Proof.
  unfold mismatch. destruct (test tag line); [|apply ret_reports].
  apply bind_reports; [apply push_error_reports|]. intros _. apply ret_reports.
Qed.

Ltac reports :=
  repeat first
    [ apply ret_reports | apply throw_reports | apply push_error_reports
    | apply mismatch_reports
    | apply bind_reports; [|intros ?]
    | apply for_each_reports; intros ? ?
    | match goal with
      | |- reports_only (match ?x with _ => _ end) => destruct x
      | |- reports_only (let '(_, _) := ?x in _) => destruct x
      | |- reports_only (if ?x then _ else _) => destruct x
      end ].

Lemma parse_lines_reports {C} block
      (body : nat → string → list C * Block.t → P (list C * Block.t)) :
  (∀ j line acc, reports_only (body j line acc)) →
  reports_only (parse_lines block body).
Proof. intros H. unfold parse_lines. apply for_each_reports. intros [j l] acc. apply H. Qed.

Ltac line_reports :=
  apply parse_lines_reports; intros j line [commands block]; reports.

Lemma AuthorCommand_parse_reports b : reports_only (AuthorCommand_parse b).
Proof. unfold AuthorCommand_parse. line_reports. Qed.
Lemma BriefCommand_parse_reports b : reports_only (BriefCommand_parse b).
Proof. unfold BriefCommand_parse. line_reports. Qed.
Lemma ClassCommand_parse_reports b : reports_only (ClassCommand_parse b).
Proof. unfold ClassCommand_parse. line_reports. Qed.
Lemma DescriptionCommand_parse_reports b : reports_only (DescriptionCommand_parse b).
Proof. unfold DescriptionCommand_parse. cbv zeta. reports. Qed.
Lemma EventCommand_parse_reports b : reports_only (EventCommand_parse b).
Proof. unfold EventCommand_parse. line_reports. Qed.
Lemma ExampleCommand_parse_reports b : reports_only (ExampleCommand_parse b).
Proof. unfold ExampleCommand_parse. cbv zeta. reports. Qed.
Lemma ExtendsCommand_parse_reports b : reports_only (ExtendsCommand_parse b).
Proof. unfold ExtendsCommand_parse. line_reports. Qed.
Lemma FunctionCommand_parse_reports b : reports_only (FunctionCommand_parse b).
Proof.
  unfold FunctionCommand_parse. line_reports.
  unfold FunctionCommand.new. reports.
Qed.
Lemma MemberofCommand_parse_reports b : reports_only (MemberofCommand_parse b).
Proof. unfold MemberofCommand_parse. line_reports. Qed.
Lemma LibraryCommand_parse_reports b : reports_only (LibraryCommand_parse b).
Proof. unfold LibraryCommand_parse. line_reports. Qed.
Lemma MethodCommand_parse_reports b : reports_only (MethodCommand_parse b).
Proof. unfold MethodCommand_parse. line_reports. Qed.
Lemma PageCommand_parse_reports b : reports_only (PageCommand_parse b).
Proof. unfold PageCommand_parse. line_reports. Qed.
Lemma ParamCommand_parse_reports b : reports_only (ParamCommand_parse b).
Proof. unfold ParamCommand_parse. cbv zeta. reports. Qed.
Lemma PropertyCommand_parse_reports b : reports_only (PropertyCommand_parse b).
Proof. unfold PropertyCommand_parse. line_reports. Qed.
Lemma ReturnCommand_parse_reports b : reports_only (ReturnCommand_parse b).
Proof. unfold ReturnCommand_parse. line_reports. Qed.
Lemma SeeCommand_parse_reports b : reports_only (SeeCommand_parse b).
Proof. unfold SeeCommand_parse. line_reports. Qed.
Lemma TodoCommand_parse_reports b : reports_only (TodoCommand_parse b).
Proof. unfold TodoCommand_parse. line_reports. Qed.
Lemma VersionCommand_parse_reports b : reports_only (VersionCommand_parse b).
Proof. unfold VersionCommand_parse. line_reports. Qed.

Lemma reports_parse_time {A} (m : P A) : reports_only m → parse_time m.
Proof. intros H st. exists 0. apply H. Qed.

Lemma bind_parse_time {A B} (m : P A) (f : A → P B) :
  parse_time m → (∀ a, parse_time (f a)) → parse_time (bind m f).
Proof.
  intros Hm Hf st. unfold bind. destruct (Hm st) as (n1 & H1).
  destruct (m st) as [[a|e] st1]; cbn in H1 |- *; [|by exists n1].
  destruct (Hf a st1) as (n2 & H2). exists (n1 + n2). by eapply advances_trans.
Qed.

Lemma for_each_parse_time {A S} (l : list A) (body : A → S → P S) :
  (∀ a acc, parse_time (body a acc)) → ∀ acc, parse_time (for_each l acc body).
Proof.
  intros Hb. induction l as [|a l IH]; intros acc; cbn [for_each].
  - apply reports_parse_time, ret_reports.
  - apply bind_parse_time; [apply Hb|]. intros acc'. apply IH.
Qed.

Lemma parseBlock_parse_time src file matched : parse_time (parseBlock src file matched).
Proof.
  unfold parseBlock. cbv zeta.
  apply bind_parse_time.
  { intros st. exists 1. cbn. exists []. cbn. rewrite app_nil_r.
    split; [done|]. split; [done|]. f_equal; lia. }
  intros b0.
  repeat (apply bind_parse_time;
          [apply reports_parse_time;
           first [ apply AuthorCommand_parse_reports | apply BriefCommand_parse_reports
                 | apply ClassCommand_parse_reports | apply DescriptionCommand_parse_reports
                 | apply EventCommand_parse_reports | apply ExampleCommand_parse_reports
                 | apply ExtendsCommand_parse_reports | apply FunctionCommand_parse_reports
                 | apply LibraryCommand_parse_reports | apply MemberofCommand_parse_reports
                 | apply MethodCommand_parse_reports | apply PageCommand_parse_reports
                 | apply ParamCommand_parse_reports | apply PropertyCommand_parse_reports
                 | apply ReturnCommand_parse_reports | apply SeeCommand_parse_reports
                 | apply TodoCommand_parse_reports | apply VersionCommand_parse_reports ]
          |intros [? ?]]).
  apply reports_parse_time, ret_reports.
Qed.

Lemma parseBlocks_parse_time src file : parse_time (parseBlocks src file).
Proof.
  unfold parseBlocks. cbv zeta.
  apply bind_parse_time.
  - apply for_each_parse_time. intros matched acc.
    apply bind_parse_time; [apply parseBlock_parse_time|].
    intros b. apply reports_parse_time, ret_reports.
  - intros bs. apply reports_parse_time, ret_reports.
Qed.

(** X15: [parseBlocks] keeps the reports it was given, in place, and adds its
    own after them with the next sequence ids, one after the other; the
    block counter goes up by some number [n], the report counter by the
    number of new reports, and the entity counters stay as they are. *)
Theorem X15_parseBlocks_numbers_its_reports src file st :
  let st' := (parseBlocks src file st).2 in
  ∃ n new,
    errors st' = errors st ++ new
    ∧ map ErrorReport.id new
      = List.seq (S (errorReportIdCounter (globals st))) (length new)
    ∧ globals st'
      = MkGlobals (blockIdCounter (globals st) + n)
                  (errorReportIdCounter (globals st) + length new)
                  (globalEntityCounter (globals st))
                  (entityCounter (globals st)).
Proof. apply parseBlocks_parse_time. Qed.

Lemma advances_blocks n st st' :
  advances n st st' →
  blockIdCounter (globals st') = blockIdCounter (globals st) + n.
Proof. intros (new & _ & _ & ->). done. Qed.

Lemma parser_call {C B} (parse : Block.t → P (list C * Block.t)) (J : Block.t → Prop)
      b (f : list C * Block.t → P B) st r st' k :
  reports_only (parse b) →
  (∀ st r st', J b → parse b st = (Ok r, st') → J r.2) →
  bind (parse b) f st = (Ok r, st') →
  J b → blockIdCounter (globals st) = k →
  ∃ c b' st1, J b' ∧ blockIdCounter (globals st1) = k
              ∧ f (c, b') st1 = (Ok r, st').
Proof.
  intros Hr Hinv H HJ Hk.
  apply bind_Ok in H as ([c b'] & st1 & E & H).
  exists c, b', st1. split; [by apply (Hinv _ _ _ HJ E)|]. split; [|done].
  specialize (Hr st). rewrite E in Hr. apply advances_blocks in Hr. cbn in Hr. lia.
Qed.

Ltac call rep inv J Hmark H HJ Hk :=
  let c := fresh "c" in let b := fresh "b" in let st := fresh "st" in
  let HJ' := fresh "HJ" in let Hk' := fresh "Hk" in
  eapply (parser_call _ J) in H as (c & b & st & HJ' & Hk' & H);
  [clear HJ Hk; rename HJ' into HJ; rename Hk' into Hk
  |apply rep
  |intros ? ? ?; apply (inv J Hmark)
  |exact HJ
  |exact Hk].

Lemma parseBlock_origin src file matched st block st' :
  parseBlock src file matched st = (Ok block, st') →
  Block.id block = S (blockIdCounter (globals st))
  ∧ Block.filename block = file
  ∧ 1 ≤ Block.lineNumber block
  ∧ blockIdCounter (globals st') = S (blockIdCounter (globals st)).
Proof.
  unfold parseBlock. intros H.
  apply bind_Ok in H as (b0 & st0 & E0 & H).
  set (ln := match JS.indexOf src matched with
             | Some idx => JS.count_nl (JS.prefix idx src) + 1
             | None => 1
             end) in *.
  set (J := λ b, Block.id b = S (blockIdCounter (globals st))
                 ∧ Block.lineNumber b = ln).
  assert (Hmark : ∀ i b, J b → J (Block.markLineAsParsed i b)).
  { intros i b. unfold J, Block.markLineAsParsed.
    by destruct (Block.lineIsParsed b i). }
  assert (Hk : blockIdCounter (globals st0) = S (blockIdCounter (globals st))).
  { cbn in E0. by simplify_eq. }
  match type of H with
  | bind (_ ?b) _ _ = _ => assert (HJ : J b)
  end.
  { cbn in E0. simplify_eq. done. }
  clear E0.
  call AuthorCommand_parse_reports AuthorCommand_parse_inv J Hmark H HJ Hk.
  call BriefCommand_parse_reports BriefCommand_parse_inv J Hmark H HJ Hk.
  call ClassCommand_parse_reports ClassCommand_parse_inv J Hmark H HJ Hk.
  call DescriptionCommand_parse_reports DescriptionCommand_parse_inv J Hmark H HJ Hk.
  call EventCommand_parse_reports EventCommand_parse_inv J Hmark H HJ Hk.
  call ExampleCommand_parse_reports ExampleCommand_parse_inv J Hmark H HJ Hk.
  call ExtendsCommand_parse_reports ExtendsCommand_parse_inv J Hmark H HJ Hk.
  call FunctionCommand_parse_reports FunctionCommand_parse_inv J Hmark H HJ Hk.
  call LibraryCommand_parse_reports LibraryCommand_parse_inv J Hmark H HJ Hk.
  call MemberofCommand_parse_reports MemberofCommand_parse_inv J Hmark H HJ Hk.
  call MethodCommand_parse_reports MethodCommand_parse_inv J Hmark H HJ Hk.
  call PageCommand_parse_reports PageCommand_parse_inv J Hmark H HJ Hk.
  call ParamCommand_parse_reports ParamCommand_parse_inv J Hmark H HJ Hk.
  call PropertyCommand_parse_reports PropertyCommand_parse_inv J Hmark H HJ Hk.
  call ReturnCommand_parse_reports ReturnCommand_parse_inv J Hmark H HJ Hk.
  call SeeCommand_parse_reports SeeCommand_parse_inv J Hmark H HJ Hk.
  call TodoCommand_parse_reports TodoCommand_parse_inv J Hmark H HJ Hk.
  call VersionCommand_parse_reports VersionCommand_parse_inv J Hmark H HJ Hk.
  unfold ret in H. simplify_eq. destruct HJ as [Hid Hln]. cbn.
  split; [done|]. split; [done|]. split; [|done].
  rewrite Hln. unfold ln. destruct (JS.indexOf src matched); lia.
Qed.

Lemma parseBlocks_loop src file ms acc st bs st' :
  for_each ms acc (λ matched blockObjects,
     let* block := parseBlock src file matched in
     ret (blockObjects ++ [block])) st = (Ok bs, st') →
  ∃ new, bs = acc ++ new
         ∧ map Block.id new = List.seq (S (blockIdCounter (globals st))) (length new)
         ∧ ∀ b, b ∈ new → Block.filename b = file ∧ 1 ≤ Block.lineNumber b.
Proof.
  revert acc st. induction ms as [|m ms IH]; intros acc st H; cbn [for_each] in H.
  - unfold ret in H. simplify_eq. exists []. rewrite app_nil_r.
    split; [done|]. split; [done|]. by intros b ?%elem_of_nil.
  - apply bind_Ok in H as (acc' & st1 & E & H).
    apply bind_Ok in E as (b & st2 & E & E').
    unfold ret in E'. simplify_eq.
    apply parseBlock_origin in E as (Hid & Hf & Hl & Hk).
    apply IH in H as (new & -> & Hids & Hnew).
    exists (b :: new). rewrite <- app_assoc. split; [done|]. split.
    + cbn. rewrite Hid, Hids, Hk. done.
    + intros b' [->|Hb']%elem_of_cons; [done|by apply Hnew].
Qed.

(** X16: The blocks [parseBlocks] returns are ordered by line number; their
    ids are the next ids of the block counter, each once; each block
    carries the file name and a line number of at least 1. *)
Theorem X16_parseBlocks_blocks_in_line_order src file st bs st' :
  parseBlocks src file st = (Ok bs, st') →
  StronglySorted (λ a b, Block.lineNumber a ≤ Block.lineNumber b) bs
  ∧ map Block.id bs ≡ₚ List.seq (S (blockIdCounter (globals st))) (length bs)
  ∧ ∀ b, b ∈ bs → Block.filename b = file ∧ 1 ≤ Block.lineNumber b.
Proof.
  unfold parseBlocks. cbv zeta. intros H.
  apply bind_Ok in H as (blockObjects & st1 & E & H).
  unfold ret in H. simplify_eq.
  apply parseBlocks_loop in E as (new & -> & Hids & Hnew). cbn [app].
  set (gt := λ b1 b2, Block.lineNumber b2 <? Block.lineNumber b1).
  split; [|split].
  - assert (Hs : in_order gt (js_sort gt new)).
    { apply js_sort_in_order; unfold gt; intros x y.
      - rewrite Nat.ltb_lt, Nat.ltb_ge. lia.
      - intros r. rewrite Nat.ltb_lt, !Nat.ltb_ge. lia. }
    unfold in_order in Hs. revert Hs. generalize (js_sort gt new).
    induction 1 as [|a l Hl IH Ha]; constructor; [done|].
    eapply Forall_impl; [exact Ha|]. intros b. unfold gt. by rewrite Nat.ltb_ge.
  - by rewrite (js_sort_perm gt new), Hids.
  - intros b Hb%js_sort_elem. by apply Hnew.
Qed.

(** The three blocks of [kinds.js]. *)
Lemma X16_parseBlocks_blocks_in_line_order_witness :
  let bs := Inputs.parsed Inputs.kinds_js "kinds.js" in
  StronglySorted (λ a b, Block.lineNumber a ≤ Block.lineNumber b) bs
  ∧ map Block.id bs
    ≡ₚ List.seq (S (blockIdCounter (globals (MkPState initial_globals []))))
                (length bs)
  ∧ ∀ b, b ∈ bs → Block.filename b = "kinds.js" ∧ 1 ≤ Block.lineNumber b.
Proof.
  apply (X16_parseBlocks_blocks_in_line_order
           Inputs.kinds_js "kinds.js" (MkPState initial_globals [])
           (Inputs.parsed Inputs.kinds_js "kinds.js")
           (parseBlocks Inputs.kinds_js "kinds.js" (MkPState initial_globals [])).2).
  vm_compute. reflexivity.
Defined.

(** ** Sequence ids of the assembly *)

Section Sequence.
Variable errs0 : list ErrorReport.t.
Variable g0 : Globals.
Lemma inv_report f l m s : in_sequence errs0 g0 s → in_sequence errs0 g0 (report f l m s).
Proof.
  intros ((new & He & Hi & Hc) & Hn & Hnd & Hall).
  unfold in_sequence, report, ErrorReport.new. cbn. split; [|done].
  exists (new ++ [ErrorReport.Mk l f m (S (errorReportIdCounter (counters s)))]).
  rewrite He, <- app_assoc. split; [done|].
  rewrite map_app, Hi, length_app, seq_app. cbn. rewrite Hc. split; [done|lia].
Qed.

Lemma NoDup_submseteq_inv {A} (l k : list A) : l ⊆+ k → NoDup k → NoDup l.
Proof.
  intros (k' & Hk)%submseteq_Permutation Hnd. rewrite Hk in Hnd.
  by apply NoDup_app in Hnd as [? _].
Qed.

Lemma inv_same s d' lc' :
  in_sequence errs0 g0 s →
  Documentation.errors d' = Documentation.errors (doc s) →
  entities d' ⊆+ entities (doc s) →
  in_sequence errs0 g0 (MkAsm d' lc' (counters s)).
Proof.
  intros (Hr & Hn & Hnd & Hall) He Hsub. unfold in_sequence. cbn. rewrite He.
  split; [done|]. split; [done|]. split.
  - eapply NoDup_submseteq_inv; [|exact Hnd]. by apply fmap_submseteq.
  - intros e Hin. apply Hall. by eapply elem_of_submseteq.
Qed.

Lemma Entity_new_next bl g :
  (Entity.new bl None g).1 = Entity.Mk bl (next_entity_id g) (S (globalEntityCounter g))
  ∧ next_entity_id (Entity.new bl None g).2 = S (next_entity_id g)
  ∧ globalEntityCounter (Entity.new bl None g).2 = S (globalEntityCounter g)
  ∧ errorReportIdCounter (Entity.new bl None g).2 = errorReportIdCounter g.
Proof.
  unfold Entity.new, next_entity_id. cbn.
  destruct (entityCounter g !! "undefined") as [n|] eqn:E;
    rewrite !lookup_insert_eq; done.
Qed.

Lemma inv_new s d' lc' bl :
  in_sequence errs0 g0 s →
  Documentation.errors d' = Documentation.errors (doc s) →
  entities d' ⊆+ (Entity.new bl None (counters s)).1 :: entities (doc s) →
  in_sequence errs0 g0 (MkAsm d' lc' (Entity.new bl None (counters s)).2).
Proof.
  intros ((new & He' & Hi & Hc) & [Hle Hn] & Hnd & Hall) He Hsub.
  destruct (Entity_new_next bl (counters s)) as (E1 & E2 & E3 & E4).
  unfold in_sequence. cbn [doc counters]. rewrite He, E2, E3, E4.
  split; [by exists new|]. split; [lia|].
  rewrite E1 in Hsub.
  assert (Hnew : ∀ e, e ∈ entities (doc s) →
                      Entity.globalId e ≠ S (globalEntityCounter (counters s))).
  { intros e Hin. apply Hall in Hin. lia. }
  split.
  - eapply NoDup_submseteq_inv; [by apply fmap_submseteq|].
    cbn. constructor; [|done].
    intros (e & Heq & Hin)%list_elem_of_fmap. by apply Hnew in Hin.
  - intros e Hin. eapply elem_of_submseteq in Hin; [|exact Hsub].
    apply elem_of_cons in Hin as [->|Hin].
    + cbn. lia.
    + apply Hall in Hin. lia.
Qed.

Lemma inv_new' s d' lc' bl e g :
  in_sequence errs0 g0 s →
  Entity.new bl None (counters s) = (e, g) →
  Documentation.errors d' = Documentation.errors (doc s) →
  entities d' ⊆+ e :: entities (doc s) →
  in_sequence errs0 g0 (MkAsm d' lc' g).
Proof.
  intros Hs E He Hsub.
  replace g with (Entity.new bl None (counters s)).2 by (by rewrite E).
  apply inv_new; [done|done|]. by rewrite E.
Qed.

Ltac new_entity Hs :=
  lazymatch goal with
  | |- context [Entity.new ?bl None (counters ?s)] =>
      let E := fresh "E" in
      destruct (Entity.new bl None (counters s)) as [? ?] eqn:E;
      cbn [fst snd]; eapply (inv_new' s _ _ bl _ _ Hs E); [reflexivity|];
      unfold entities; cbn;
      rewrite ?map_app; cbn; apply Permutation_submseteq; solve_Permutation
  end.

Lemma inv_primary block s : in_sequence errs0 g0 s → in_sequence errs0 g0 (assemble_primary block s).2.
Proof.
  intros Hs. unfold assemble_primary.
  destruct (Block.page block) as [|p0 ?].
  2:{ unfold assemble_page, PageEntity.new. cbv zeta. new_entity Hs. }
  destruct (Block.classs block) as [|c0 ?].
  2:{ unfold assemble_class. cbv zeta.
      destruct (negb (length (Block.ret block) =? 0)), (extends_itself c0 block);
        cbn -[report ClassEntity.new]; try (by repeat apply inv_report).
      unfold ClassEntity.new. new_entity Hs. }
  destruct (Block.file block) as [|? ?]; [|done].
  destruct (Block.library block) as [|l0 ?].
  2:{ unfold assemble_library, LibraryEntity.new. cbv zeta.
      lazymatch goal with
      | |- context [Entity.new ?bl None (counters ?s)] =>
          let E := fresh "E" in
          destruct (Entity.new bl None (counters s)) as [? ?] eqn:E;
          cbn [fst snd]; eapply (inv_new' s _ _ bl _ _ Hs E); [reflexivity|]
      end.
      unfold entities. cbn. destruct (Documentation.library (doc s)); cbn.
      - solve_submseteq.
      - apply Permutation_submseteq. solve_Permutation. }
  destruct (Block.func block) as [|f0 ?].
  2:{ unfold assemble_function, FunctionEntity.new. cbv zeta. new_entity Hs. }
  destruct (Block.method block) as [|m0 ?].
  2:{ unfold assemble_method. cbv zeta.
      destruct (Block.memberof (memberof_fallback s block)) as [|mo [|? ?]];
        try done.
      unfold MethodEntity.new. new_entity Hs. }
  destruct (Block.property block) as [|p0 ?]; [done|].
  unfold assemble_property. cbv zeta.
  destruct (Block.memberof (memberof_fallback s block)) as [|mo [|? ?]];
    try (by apply inv_report).
  unfold PropertyEntity.new. new_entity Hs.
Qed.

Lemma inv_todos block s : in_sequence errs0 g0 s → in_sequence errs0 g0 (assemble_todos block s).
Proof.
  unfold assemble_todos. revert s.
  induction (Block.todo block) as [|t ts IH]; intros s Hs; cbn [fold_left]; [done|].
  apply IH. unfold TodoEntity.new. new_entity Hs.
Qed.

Lemma inv_unparsed block s : in_sequence errs0 g0 s → in_sequence errs0 g0 (report_unparsed block s).
Proof.
  intros Hs. unfold report_unparsed. cbv zeta.
  destruct (negb _); [by apply inv_report|done].
Qed.

Lemma inv_block s block : in_sequence errs0 g0 s → in_sequence errs0 g0 (assemble_block s block).
Proof.
  intros Hs. unfold assemble_block.
  pose proof (inv_primary block s Hs) as H.
  destruct (assemble_primary block s) as [b1 s1]. cbn [snd] in H.
  by apply inv_unparsed, inv_todos.
Qed.

Lemma inv_blocks blocks s : in_sequence errs0 g0 s → in_sequence errs0 g0 (assemble_blocks blocks s).
Proof.
  unfold assemble_blocks. revert s.
  induction blocks as [|b bs IH]; intros s Hs; cbn [fold_left]; [done|].
  by apply IH, inv_block.
Qed.

Lemma inv_asm_eta s : in_sequence errs0 g0 s → in_sequence errs0 g0 (MkAsm (doc s) (lastClass s) (counters s)).
Proof. by destruct s. Qed.

Lemma inv_update s :
  in_sequence errs0 g0 s → in_sequence errs0 g0 (MkAsm (Documentation.update (doc s)) (lastClass s) (counters s)).
Proof.
  intros Hs. apply inv_same; [done|done|].
  unfold entities, Documentation.update. cbn.
  apply Permutation_submseteq.
  rewrite (js_sort_perm _ (Documentation.pages (doc s))).
  rewrite (js_sort_perm _ (Documentation.functions (doc s))).
  done.
Qed.

Lemma entities_alter f a d :
  (∀ c, ClassEntity.entity (f c) = ClassEntity.entity c) →
  entities (Documentation.alter_class f a d) = entities d.
Proof.
  intros Hf. unfold entities, Documentation.alter_class. cbn. f_equal. f_equal.
  change (ClassEntity.entity <$> alter f a (Documentation.store d)
          = ClassEntity.entity <$> Documentation.store d).
  rewrite (list_fmap_alter _ f (λ e, e)).
  - generalize (ClassEntity.entity <$> Documentation.store d). intros l.
    apply list_eq. intros i. destruct (decide (i = a)) as [->|Hne].
    + rewrite list_lookup_alter_eq. by destruct (l !! a).
    + by rewrite list_lookup_alter_ne.
  - apply Forall_forall. intros c _. apply Hf.
Qed.

Lemma inv_attach_method s m s' :
  attach_method s m = Ok s' → in_sequence errs0 g0 s → in_sequence errs0 g0 s'.
Proof.
  unfold attach_method.
  destruct (Documentation.nameToClass _ _) as [[a|]|]; [|done|];
    intros [= <-] Hs; [|by apply inv_report].
  apply inv_same; [done|done|]. by rewrite entities_alter.
Qed.

Lemma inv_attach_property s p s' :
  attach_property s p = Ok s' → in_sequence errs0 g0 s → in_sequence errs0 g0 s'.
Proof.
  unfold attach_property.
  destruct (Documentation.nameToClass _ _) as [[a|]|]; [|done|];
    intros [= <-] Hs; [|by apply inv_report].
  apply inv_same; [done|done|]. by rewrite entities_alter.
Qed.

Lemma inv_each {A} (f : AsmState → A → outcome AsmState) l s s' :
  (∀ s x s', f s x = Ok s' → in_sequence errs0 g0 s → in_sequence errs0 g0 s') →
  attach_each f l s = Ok s' → in_sequence errs0 g0 s → in_sequence errs0 g0 s'.
Proof.
  intros Hf. revert s s'.
  apply (attach_each_keeps
           (λ s s', in_sequence errs0 g0 s → in_sequence errs0 g0 s')); auto.
Qed.

Lemma inv_finish s s' :
  assemble_finish s = Ok s' → in_sequence errs0 g0 s → in_sequence errs0 g0 s'.
Proof.
  unfold assemble_finish. cbv zeta.
  destruct (attach_each attach_method _ _) as [v|?] eqn:Ev; [|done].
  intros Ew Hs.
  apply (inv_each _ _ _ _ inv_attach_property Ew).
  apply (inv_each _ _ _ _ inv_attach_method Ev).
  by apply inv_update.
Qed.
End Sequence.

Lemma start_in_sequence errs g : in_sequence errs g (assemble_start errs g).
Proof.
  unfold in_sequence, assemble_start. cbn [doc counters].
  pose proof (push_errors_new [] errs) as H. cbn [fold_left app] in H.
  rewrite H. cbn.
  split; [exists []; by rewrite app_nil_r|]. split; [done|].
  split; [constructor|]. by intros e ?%elem_of_nil.
Qed.

Lemma makeEntities_Ok blocks errs g d g' :
  makeEntities blocks errs g = Ok (d, g') →
  ∃ s, assemble_finish (assemble_blocks blocks (assemble_start errs g)) = Ok s
       ∧ d = doc s ∧ g' = counters s.
Proof.
  unfold makeEntities. destruct (assemble_finish _) as [s|?]; [|done].
  intros [= <- <-]. by exists s.
Qed.

(** X17: When [makeEntities] returns, it has kept the reports it was
    given, in place, and added its own after them with the next sequence
    ids, one after the other. *)
Theorem X17_makeEntities_numbers_its_reports blocks errs g d g' :
  makeEntities blocks errs g = Ok (d, g') →
  ∃ new,
    Documentation.errors d = errs ++ new
    ∧ map ErrorReport.id new
      = List.seq (S (errorReportIdCounter g)) (length new)
    ∧ errorReportIdCounter g' = errorReportIdCounter g + length new.
Proof.
  intros (s & Hs & -> & ->)%makeEntities_Ok.
  apply (inv_finish errs g _ _ Hs), inv_blocks, start_in_sequence.
Qed.

(** The blocks of [s.js], after one report of the parsers. *)
Lemma X17_makeEntities_numbers_its_reports_witness :
  let errs := [ErrorReport.Mk (Some 1) "s.js" "earlier" 1] in
  match makeEntities [Inputs.first_block Inputs.stray_js "s.js"] errs
                     (MkGlobals 1 1 0 ∅) with
  | Ok (d, g') =>
      ∃ new,
        Documentation.errors d = errs ++ new
        ∧ map ErrorReport.id new = List.seq 2 (length new)
        ∧ errorReportIdCounter g' = 1 + length new
  | Throw _ => False
  end.
Proof.
  intros errs.
  destruct (makeEntities _ _ _) as [[d g']|e] eqn:E.
  - exact (X17_makeEntities_numbers_its_reports _ _ _ _ _ E).
  - vm_compute in E. discriminate E.
Defined.

(** X18: The entities of the documentation [makeEntities] returns, of every
    kind, have different global ids, all above the counter the run
    started with and up to the counter it ends with; the id of each
    differs from its global id by a constant of the run: there is one
    sequence of ids for all kinds. *)
Theorem X18_entity_ids_follow_one_counter blocks errs g d g' :
  makeEntities blocks errs g = Ok (d, g') →
  NoDup (map Entity.globalId (entities d))
  ∧ Forall (λ e, globalEntityCounter g < Entity.globalId e
                 ∧ Entity.globalId e ≤ globalEntityCounter g'
                 ∧ Entity.id e + S (globalEntityCounter g)
                   = next_entity_id g + Entity.globalId e)
           (entities d).
Proof.
  intros (s & Hs & -> & ->)%makeEntities_Ok.
  destruct (inv_finish errs g _ _ Hs
              (inv_blocks errs g blocks _ (start_in_sequence errs g)))
    as (_ & _ & Hnd & Hall).
  split; [exact Hnd|]. apply Forall_forall. exact Hall.
Qed.

(** The blocks of [baz.js]: a class and a method. *)
Lemma X18_entity_ids_follow_one_counter_witness :
  let g := MkGlobals 2 0 0 ∅ in
  match makeEntities [Inputs.block_at 0 Inputs.baz_js "baz.js";
                      Inputs.block_at 1 Inputs.baz_js "baz.js"] [] g with
  | Ok (d, g') =>
      NoDup (map Entity.globalId (entities d))
      ∧ Forall (λ e, globalEntityCounter g < Entity.globalId e
                     ∧ Entity.globalId e ≤ globalEntityCounter g'
                     ∧ Entity.id e + S (globalEntityCounter g)
                       = next_entity_id g + Entity.globalId e)
               (entities d)
  | Throw _ => False
  end.
Proof.
  intros g.
  destruct (makeEntities _ _ _) as [[d g']|e] eqn:E.
  - exact (X18_entity_ids_follow_one_counter _ _ _ _ _ E).
  - vm_compute in E. discriminate E.
Defined.

(** ** Todos and pages *)

Lemma mark_lines_todo (l : list (nat * string)) b :
  Block.todo (fold_left (λ b jl, Block.markLineAsParsed jl.1 b) l b) = Block.todo b
  ∧ Block.id (fold_left (λ b jl, Block.markLineAsParsed jl.1 b) l b) = Block.id b.
Proof.
  revert b. induction l as [|x l IH]; intros b; cbn [fold_left]; [done|].
  destruct (IH (Block.markLineAsParsed x.1 b)) as [-> ->].
  unfold Block.markLineAsParsed. by destruct (Block.lineIsParsed b x.1).
Qed.

Lemma memberof_fallback_todo s b :
  Block.todo (memberof_fallback s b) = Block.todo b
  ∧ Block.id (memberof_fallback s b) = Block.id b.
Proof.
  unfold memberof_fallback. by destruct (Block.memberof b), (lastClass s).
Qed.

Lemma primary_todos block s :
  Documentation.todos (doc (assemble_primary block s).2) = Documentation.todos (doc s)
  ∧ Block.todo (assemble_primary block s).1 = Block.todo block
  ∧ Block.id (assemble_primary block s).1 = Block.id block.
Proof.
  unfold assemble_primary.
  destruct (Block.page block) as [|p0 ?].
  2:{ unfold assemble_page. cbv zeta. destruct (PageEntity.new _ _ _ _).
      cbn [fst snd doc]. split; [done|]. apply mark_lines_todo. }
  destruct (Block.classs block) as [|c0 ?].
  2:{ unfold assemble_class. cbv zeta.
      destruct (negb (length (Block.ret block) =? 0)), (extends_itself c0 block);
        cbn -[ClassEntity.new]; try done;
        by destruct (ClassEntity.new _ _ _ _ _ _ _ _). }
  destruct (Block.file block) as [|? ?]; [|done].
  destruct (Block.library block) as [|l0 ?].
  2:{ unfold assemble_library. by destruct (LibraryEntity.new _ _ _ _ _ _). }
  destruct (Block.func block) as [|f0 ?].
  2:{ unfold assemble_function. by destruct (FunctionEntity.new _ _ _ _ _ _ _ _). }
  destruct (Block.method block) as [|m0 ?].
  2:{ unfold assemble_method. cbv zeta.
      destruct (memberof_fallback_todo s block) as [H1 H2].
      destruct (Block.memberof (memberof_fallback s block)) as [|mo [|? ?]]; try done;
      by destruct (MethodEntity.new _ _ _ _ _ _ _). }
  destruct (Block.property block) as [|p0 ?]; [done|].
  unfold assemble_property. cbv zeta.
  destruct (memberof_fallback_todo s block) as [H1 H2].
  destruct (Block.memberof (memberof_fallback s block)) as [|mo [|? ?]]; try done;
  by destruct (PropertyEntity.new _ _ _ _ _ _).
Qed.

Lemma assemble_todos_adds block s :
  map todo_origin (Documentation.todos (doc (assemble_todos block s)))
  = map todo_origin (Documentation.todos (doc s)) ++ todos_of block.
Proof.
  unfold assemble_todos, todos_of. revert s.
  induction (Block.todo block) as [|t ts IH]; intros s; cbn [fold_left map].
  - by rewrite app_nil_r.
  - rewrite IH. unfold TodoEntity.new, Entity.new. cbn. rewrite map_app. cbn.
    by rewrite <- app_assoc.
Qed.

Lemma report_unparsed_todos block s :
  Documentation.todos (doc (report_unparsed block s)) = Documentation.todos (doc s).
Proof. unfold report_unparsed. cbv zeta. by destruct (negb _). Qed.

Lemma assemble_block_todos s block :
  map todo_origin (Documentation.todos (doc (assemble_block s block)))
  = map todo_origin (Documentation.todos (doc s)) ++ todos_of block.
Proof.
  unfold assemble_block. destruct (primary_todos block s) as (H1 & H2 & H3).
  destruct (assemble_primary block s) as [b1 s1]. cbn [fst snd] in *.
  rewrite report_unparsed_todos, assemble_todos_adds, H1.
  unfold todos_of. by rewrite H2, H3.
Qed.

Lemma attach_method_todos s m s' :
  attach_method s m = Ok s' →
  Documentation.todos (doc s') = Documentation.todos (doc s).
Proof.
  unfold attach_method.
  by destruct (Documentation.nameToClass _ _) as [[a|]|]; [|done|]; intros [= <-].
Qed.

Lemma attach_property_todos s p s' :
  attach_property s p = Ok s' →
  Documentation.todos (doc s') = Documentation.todos (doc s).
Proof.
  unfold attach_property.
  by destruct (Documentation.nameToClass _ _) as [[a|]|]; [|done|]; intros [= <-].
Qed.

Lemma finish_todos s s' :
  assemble_finish s = Ok s' →
  Documentation.todos (doc s') = Documentation.todos (doc s).
Proof.
  unfold assemble_finish. cbv zeta.
  destruct (attach_each attach_method _ _) as [v|?] eqn:Ev; [|done].
  intros Ew.
  apply (attach_each_keeps
           (λ s s', Documentation.todos (doc s') = Documentation.todos (doc s)))
    in Ew; [|done|congruence|apply attach_property_todos].
  apply (attach_each_keeps
           (λ s s', Documentation.todos (doc s') = Documentation.todos (doc s)))
    in Ev; [|done|congruence|apply attach_method_todos].
  by rewrite Ew, Ev.
Qed.

(** X19: When [makeEntities] returns, the todo entities of the
    documentation are those of the todo commands of the blocks, in the
    order of the blocks and of the commands, each with its block; a block
    of any kind, accepted or not, gives its todos. *)
Theorem X19_every_todo_becomes_an_entity blocks errs g d g' :
  makeEntities blocks errs g = Ok (d, g') →
  map todo_origin (Documentation.todos d) = concat (map todos_of blocks).
Proof.
  intros (s & Hs & -> & ->)%makeEntities_Ok. rewrite (finish_todos _ _ Hs).
  assert (H : ∀ s, map todo_origin (Documentation.todos (doc (assemble_blocks blocks s)))
                   = map todo_origin (Documentation.todos (doc s))
                     ++ concat (map todos_of blocks)).
  { unfold assemble_blocks. clear Hs. induction blocks as [|b bs IH]; intros s0; cbn.
    - by rewrite app_nil_r.
    - rewrite IH, assemble_block_todos. by rewrite <- app_assoc. }
  rewrite H. unfold assemble_start. cbn [doc].
  pose proof (push_errors_new [] errs) as E. cbn [fold_left app] in E.
  by rewrite E.
Qed.

(** The blocks of [p.js]: a rejected class block with a todo, a class
    and two methods. *)
Lemma X19_every_todo_becomes_an_entity_witness :
  let blocks := map (λ i, Inputs.block_at i Inputs.prototype_js "p.js") [0; 1; 2] in
  match makeEntities blocks [] (MkGlobals 4 0 0 ∅) with
  | Ok (d, g') =>
      map todo_origin (Documentation.todos d) = concat (map todos_of blocks)
  | Throw _ => False
  end.
Proof.
  intros blocks.
  destruct (makeEntities _ _ _) as [[d g']|e] eqn:E.
  - exact (X19_every_todo_becomes_an_entity _ _ _ _ _ E).
  - vm_compute in E. discriminate E.
Defined.

Lemma mark_lines_parsed (l : list (nat * string)) b j :
  Block.lineIsParsed (fold_left (λ b jl, Block.markLineAsParsed jl.1 b) l b) j = true
  ↔ Block.lineIsParsed b j = true ∨ j ∈ map fst l.
Proof.
  revert b. induction l as [|x l IH]; intros b; cbn [fold_left map].
  - rewrite elem_of_nil. tauto.
  - rewrite IH, lineIsParsed_mark, orb_true_iff, bool_decide_eq_true, elem_of_cons.
    intuition congruence.
Qed.

Lemma mark_lines_src (l : list (nat * string)) b :
  Block.src (fold_left (λ b jl, Block.markLineAsParsed jl.1 b) l b) = Block.src b.
Proof.
  revert b. induction l as [|x l IH]; intros b; cbn [fold_left]; [done|].
  by rewrite IH, markLineAsParsed_src.
Qed.

Lemma nothing_left_unparsed g block :
  Block.getUnparsedLines2 g
    (fold_left (λ b jl, Block.markLineAsParsed jl.1 b)
               (Block.getUnparsedLines2 false block) block) = [].
Proof.
  set (b' := fold_left _ _ block).
  unfold Block.getUnparsedLines2 at 1, Block.unparsed, Block.lines.
  destruct (Block.unparsed_from b' 0 (JS.split_nl (Block.src b'))) as [|[j l] rest] eqn:E;
    [done|exfalso].
  assert (Hin : (j, l) ∈ Block.unparsed_from b' 0 (JS.split_nl (Block.src b')))
    by (rewrite E; left).
  apply unparsed_from_elem in Hin as (_ & Hl & Hp).
  subst b'. rewrite mark_lines_src in Hl.
  apply not_true_iff_false in Hp. apply Hp. apply mark_lines_parsed.
  destruct (Block.lineIsParsed block j) eqn:Ej; [by left|right].
  unfold Block.getUnparsedLines2. rewrite map_map. cbn.
  apply list_elem_of_fmap. exists (j, l). split; [done|].
  apply unparsed_from_elem. split; [lia|]. split; [exact Hl|exact Ej].
Qed.

(** X20: A block with a [@page] command adds one page with the first such
    command and all unparsed text as its content, and no report,
    whatever else it holds. *)
Theorem X20_page_block_is_never_reported s block pc pcs :
  Block.page block = pc :: pcs →
  Documentation.errors (doc (assemble_block s block)) = Documentation.errors (doc s)
  ∧ ∃ e, Documentation.pages (doc (assemble_block s block))
         = Documentation.pages (doc s)
           ++ [PageEntity.Mk e pc (JS.join_nl (Block.getUnparsedLines block))].
Proof.
  intros Hp. unfold assemble_block, assemble_primary. rewrite Hp.
  unfold assemble_page. cbv zeta.
  destruct (PageEntity.new _ _ _ _) as [entity g1] eqn:E.
  set (b' := fold_left _ _ block).
  set (s1 := MkAsm (Documentation.push_page entity (doc s)) (lastClass s) g1).
  destruct (assemble_todos_frame b' s1) as (_ & Ht & Hc).
  assert (Hu : ∀ s2, report_unparsed b' s2 = s2).
  { intros s2. unfold report_unparsed. cbv zeta. unfold b'.
    by rewrite nothing_left_unparsed. }
  rewrite Hu, Ht. split; [done|].
  unfold contents in Hc. injection Hc as _ Hpages _ _ _ _ _ _ _.
  rewrite Hpages.
  unfold PageEntity.new in E. destruct (Entity.new _ _ _) as [e g'].
  injection E as <- <-. exists e. do 3 f_equal.
  unfold Block.getUnparsedLines, Block.getUnparsedLines2.
  by rewrite map_map.
Qed.

(** The page block of [kinds.js], at the start of a run. *)
Lemma X20_page_block_is_never_reported_witness :
  let block := Inputs.first_block Inputs.kinds_js "kinds.js" in
  Documentation.errors (doc (assemble_block Inputs.start block))
  = Documentation.errors (doc Inputs.start)
  ∧ ∃ e, Documentation.pages (doc (assemble_block Inputs.start block))
         = Documentation.pages (doc Inputs.start)
           ++ [PageEntity.Mk e (PageCommand.Mk 1 (Some "About"))
                             (JS.join_nl (Block.getUnparsedLines block))].
Proof.
  apply (X20_page_block_is_never_reported
           Inputs.start (Inputs.first_block Inputs.kinds_js "kinds.js")
           (PageCommand.Mk 1 (Some "About")) []).
  vm_compute. reflexivity.
Defined.

(** ** Members, the library, loading and inheritance *)

(** X21: Before the first accepted class, the [Method] branch makes nothing
    of a block without [@memberof] (no entity, no report), and the
    [Property] branch reports that one [@memberof] is required. *)
Theorem X21_member_without_class s mb m0 pb p0 :
  lastClass s = None →
  method_block m0 mb → Block.memberof mb = [] →
  property_block p0 pb → Block.memberof pb = [] →
  assemble_primary mb s = (mb, s)
  ∧ assemble_primary pb s
    = (pb, report (Block.filename pb) (Some (Block.lineNumber pb))
                  "A @property block requires exactly 1 @memberof command, got 0." s).
Proof.
  intros Hl (M1 & M2 & M3 & M4 & M5 & M6) Mm (P1 & P2 & P3 & P4 & P5 & P6 & P7) Pm.
  split.
  - unfold assemble_primary. rewrite M1, M2, M3, M4, M5.
    destruct (Block.method mb) as [|m ms]; [done|].
    unfold assemble_method, memberof_fallback. rewrite Mm, Hl. cbv zeta.
    by rewrite Mm.
  - unfold assemble_primary. rewrite P1, P2, P3, P4, P5, P6.
    destruct (Block.property pb) as [|p ps]; [done|].
    unfold assemble_property, memberof_fallback. rewrite Pm, Hl. cbv zeta.
    by rewrite Pm.
Qed.

(** The method block of [baz.js] and the block of [property.js], at the
    start of a run. *)
Lemma X21_member_without_class_witness :
  let mb := Inputs.block_at 1 Inputs.baz_js "baz.js" in
  let pb := Inputs.first_block Samples.property_js "property.js" in
  assemble_primary mb Inputs.start = (mb, Inputs.start)
  ∧ assemble_primary pb Inputs.start
    = (pb, report (Block.filename pb) (Some (Block.lineNumber pb))
                  "A @property block requires exactly 1 @memberof command, got 0."
                  Inputs.start).
Proof.
  apply (X21_member_without_class
           Inputs.start
           (Inputs.block_at 1 Inputs.baz_js "baz.js") (MethodCommand.Mk 2 (Some "bar"))
           (Inputs.first_block Samples.property_js "property.js")
           (PropertyCommand.Mk 1 (Some "Number") (Some "x"))).
  - reflexivity.
  - unfold method_block.
    split; [|split; [|split; [|split; [|split]]]]; vm_compute; reflexivity.
  - vm_compute. reflexivity.
  - unfold property_block.
    split; [|split; [|split; [|split; [|split; [|split]]]]]; vm_compute; reflexivity.
  - vm_compute. reflexivity.
Defined.

Lemma carries_refl s : carries s s.
Proof.
  split; [done|]. split; [done|]. split; [done|]. intros a c Hc. by exists c.
Qed.

Lemma carries_trans s1 s2 s3 : carries s1 s2 → carries s2 s3 → carries s1 s3.
Proof.
  intros (A1 & A2 & A3 & A4) (B1 & B2 & B3 & B4).
  split; [congruence|]. split; [congruence|]. split; [by etrans|].
  intros a c Hc. destruct (A4 a c Hc) as (c' & Hc' & Hp).
  destruct (B4 a c' Hc') as (c'' & Hc'' & Hp'). exists c''. split; [done|]. auto.
Qed.

Lemma carries_alter f s a :
  (∀ c p, p ∈ ClassEntity.propertyEntities c → p ∈ ClassEntity.propertyEntities (f c)) →
  carries s (MkAsm (Documentation.alter_class f a (doc s)) (lastClass s) (counters s)).
Proof.
  intros Hf. split; [done|]. split; [done|]. split; [done|].
  intros b c Hc. unfold Documentation.class_at in *. cbn.
  destruct (decide (a = b)) as [->|Hne].
  - exists (f c). rewrite list_lookup_alter_eq, Hc. split; [done|]. apply Hf.
  - exists c. by rewrite list_lookup_alter_ne.
Qed.

Lemma carries_report f l m s : carries s (report f l m s).
Proof.
  split; [done|]. split; [done|]. split; [by apply prefix_app_r|].
  intros a c Hc. by exists c.
Qed.

Lemma attach_method_carries s m s' : attach_method s m = Ok s' → carries s s'.
Proof.
  unfold attach_method.
  destruct (Documentation.nameToClass _ _) as [[a|]|]; [|done|]; intros [= <-].
  - by apply carries_alter.
  - apply carries_report.
Qed.

Lemma attach_property_carries s p s' : attach_property s p = Ok s' → carries s s'.
Proof.
  unfold attach_property.
  destruct (Documentation.nameToClass _ _) as [[a|]|]; [|done|]; intros [= <-].
  - apply carries_alter. intros c x Hx. cbn. apply elem_of_app. by left.
  - apply carries_report.
Qed.

(** A change of a class object that leaves its entity as it is does not
    change what the index answers. *)
Lemma alter_class_lookup f a d name :
  (∀ c, ClassEntity.entity (f c) = ClassEntity.entity c) →
  Documentation.nameToClass (Documentation.alter_class f a d) name
  = Documentation.nameToClass d name.
Proof.
  intros Hf. unfold Documentation.nameToClass, Documentation.inherited.
  cbn [Documentation.alter_class Documentation.name2class].
  destruct (Documentation.name2class d !! JS.ToString name); [done|].
  destruct (Documentation.name2class d !! "__proto__") as [b|]; [|done].
  cbn [mbind option_bind]. unfold Documentation.class_at.
  change (Documentation.store (Documentation.alter_class f a d))
    with (alter f a (Documentation.store d)).
  destruct (decide (a = b)) as [->|Hne].
  - rewrite list_lookup_alter_eq. destruct (Documentation.store d !! b); [|done].
    cbn. by rewrite Hf.
  - by rewrite list_lookup_alter_ne.
Qed.

Lemma attach_method_lookup s m s' :
  attach_method s m = Ok s' →
  ∀ name, Documentation.nameToClass (doc s') name
          = Documentation.nameToClass (doc s) name.
Proof.
  unfold attach_method.
  destruct (Documentation.nameToClass _ _) as [[a|]|]; [|done|];
    intros [= <-] name; [|done].
  by apply alter_class_lookup.
Qed.

Lemma attach_property_lookup s p s' :
  attach_property s p = Ok s' →
  ∀ name, Documentation.nameToClass (doc s') name
          = Documentation.nameToClass (doc s) name.
Proof.
  unfold attach_property.
  destruct (Documentation.nameToClass _ _) as [[a|]|]; [|done|];
    intros [= <-] name; [|done].
  by apply alter_class_lookup.
Qed.

Lemma attach_each_carries {A} (f : AsmState → A → outcome AsmState) l s s' :
  (∀ s x s', f s x = Ok s' → carries s s') →
  attach_each f l s = Ok s' → carries s s'.
Proof.
  intros Hf. revert s s'.
  apply attach_each_keeps; [apply carries_refl|apply carries_trans|exact Hf].
Qed.

Lemma attach_each_lookup {A} (f : AsmState → A → outcome AsmState) l s s' :
  (∀ s x s', f s x = Ok s' →
             ∀ name, Documentation.nameToClass (doc s') name
                     = Documentation.nameToClass (doc s) name) →
  attach_each f l s = Ok s' →
  ∀ name, Documentation.nameToClass (doc s') name
          = Documentation.nameToClass (doc s) name.
Proof.
  intros Hf. revert s s'.
  apply (attach_each_keeps
           (λ s s', ∀ name, Documentation.nameToClass (doc s') name
                            = Documentation.nameToClass (doc s) name));
    [done| |exact Hf].
  intros s1 s2 s3 H1 H2 name. by rewrite H2, H1.
Qed.

Lemma index_ok_carries s s' : carries s s' → index_ok s → index_ok s'.
Proof.
  intros (H1 & _ & _ & H4) Hs k a Hk. rewrite H1 in Hk.
  destruct (Hs k a Hk) as [c Hc]. destruct (H4 a c Hc) as (c' & Hc' & _). by exists c'.
Qed.

Lemma settled_carries s s' p :
  carries s s' →
  (∀ name, Documentation.nameToClass (doc s') name
           = Documentation.nameToClass (doc s) name) →
  settled (doc s) p → settled (doc s') p.
Proof.
  intros (H1 & _ & H3 & H4) Hl. unfold settled. rewrite Hl.
  destruct (Documentation.nameToClass (doc s) _) as [[a|]|]; [|done|].
  - intros (c & Hc & Hp). destruct (H4 a c Hc) as (c' & Hc' & Hp'). exists c'. auto.
  - intros (e & He & ?). exists e. split; [|done]. by eapply elem_of_prefix.
Qed.

Lemma attach_property_settles s p s' :
  index_ok s → attach_property s p = Ok s' → settled (doc s') p.
Proof.
  intros Hs E. unfold settled. rewrite (attach_property_lookup _ _ _ E).
  unfold attach_property in E.
  destruct (Documentation.nameToClass (doc s) _) as [[a|]|] eqn:En; [|done|];
    injection E as <-.
  - apply nameToClass_Class in En. destruct (Hs _ _ En) as [c Hc].
    unfold Documentation.class_at in *. cbn.
    rewrite list_lookup_alter_eq, Hc. cbn. eexists. split; [done|].
    cbn. apply elem_of_app. right. by apply list_elem_of_singleton.
  - rewrite report_doc. cbn [Documentation.push_error Documentation.errors].
    eexists. split.
    + apply elem_of_app. right. by apply list_elem_of_singleton.
    + cbn [ErrorReport.file ErrorReport.lineNumber ErrorReport.message]. done.
Qed.

Lemma attach_properties_settle l s s' :
  index_ok s → attach_each attach_property l s = Ok s' →
  Forall (settled (doc s')) l.
Proof.
  revert s. induction l as [|p l IH]; intros s Hs; cbn [attach_each]; [constructor|].
  destruct (attach_property s p) as [s1|?] eqn:E; [|done].
  intros El. constructor.
  - eapply settled_carries.
    + eapply attach_each_carries; [apply attach_property_carries|exact El].
    + eapply attach_each_lookup; [apply attach_property_lookup|exact El].
    + by eapply attach_property_settles.
  - eapply IH; [|exact El].
    eapply index_ok_carries; [by eapply attach_property_carries|done].
Qed.

Lemma update_index_ok s :
  addresses_ok s →
  index_ok (MkAsm (Documentation.update (doc s)) (lastClass s) (counters s)).
Proof.
  intros Hs k a Hk. cbn in Hk. unfold Documentation.index_classes in Hk.
  rewrite (index_fold_last (λ a, JS.ToString (Documentation.class_name (doc s) a))) in Hk.
  destruct (last _) as [a'|] eqn:E; [|by rewrite lookup_empty in Hk].
  injection Hk as ->.
  apply last_Some in E as (l' & E).
  assert (Ha : a ∈ filter (λ a0, JS.ToString (Documentation.class_name (doc s) a0) = k)
                          (Documentation.classes (doc s))).
  { rewrite E. apply elem_of_app. right. by apply list_elem_of_singleton. }
  apply list_elem_of_filter in Ha as [_ Ha]. apply Hs in Ha.
  unfold Documentation.class_at. cbn. by apply lookup_lt_is_Some.
Qed.

(** X22: When [makeEntities] returns, each property entity of the
    documentation is held by the class the index has under its class
    name, or, when the index has none, there is a report that it could
    not be attached, with an empty file name and no line number. *)
Theorem X22_every_property_is_attached_or_reported blocks errs g d g' :
  makeEntities blocks errs g = Ok (d, g') →
  Forall (settled d) (Documentation.properties d).
Proof.
  intros (w & Hw & -> & _)%makeEntities_Ok. revert Hw.
  set (s := assemble_blocks blocks (assemble_start errs g)).
  assert (Hs : addresses_ok s).
  { apply assemble_blocks_grows, assemble_start_ok. }
  unfold assemble_finish. cbv zeta.
  set (s1 := MkAsm (Documentation.update (doc s)) (lastClass s) (counters s)).
  destruct (attach_each attach_method _ s1) as [s2|?] eqn:E2; [|done].
  intros Ew.
  assert (H2 : index_ok s2).
  { eapply index_ok_carries.
    - eapply attach_each_carries; [apply attach_method_carries|exact E2].
    - by apply update_index_ok. }
  destruct (attach_each_carries _ _ _ _ attach_property_carries Ew) as (_ & -> & _).
  by eapply attach_properties_settle.
Qed.

(** The blocks of [members.js]: the first property is attached, the
    second is reported. *)
Lemma X22_every_property_is_attached_or_reported_witness :
  match makeEntities (Inputs.parsed Samples.members_js "members.js") []
                     (MkGlobals 3 0 0 ∅) with
  | Ok (d, g') =>
      length (Documentation.properties d) = 2
      ∧ Forall (settled d) (Documentation.properties d)
  | Throw _ => False
  end.
Proof.
  destruct (makeEntities _ _ _) as [[d g']|e] eqn:E.
  - split; [|exact (X22_every_property_is_attached_or_reported _ _ _ _ _ E)].
    vm_compute in E. by injection E as <- _.
  - vm_compute in E. discriminate E.
Defined.

(** An attachment loop returns when the index object has its first
    prototype and no member names a class by a name of that prototype. *)
Lemma attach_each_returns {A} (f : AsmState → A → outcome AsmState)
      (className : A → JS.jsstr) l s :
  (∀ s x, Documentation.name2class (doc s) !! "__proto__" = None →
          JS.ToString (className x) ∉ Documentation.object_members →
          ∃ s', f s x = Ok s'
                ∧ Documentation.name2class (doc s') = Documentation.name2class (doc s)) →
  Documentation.name2class (doc s) !! "__proto__" = None →
  Forall (λ x, JS.ToString (className x) ∉ Documentation.object_members) l →
  ∃ s', attach_each f l s = Ok s'
        ∧ Documentation.name2class (doc s') = Documentation.name2class (doc s).
Proof.
  intros Hf. revert s. induction l as [|x l IH]; intros s Hp Hl; cbn [attach_each].
  - by exists s.
  - apply Forall_cons in Hl as [Hx Hl].
    destruct (Hf s x Hp Hx) as (s1 & -> & E1).
    destruct (IH s1) as (s' & -> & E'); [by rewrite E1|done|].
    exists s'. split; [done|]. by rewrite E', E1.
Qed.

Lemma lookup_plain d name :
  Documentation.name2class d !! "__proto__" = None →
  JS.ToString name ∉ Documentation.object_members →
  Documentation.nameToClass d name ≠ Some Documentation.NotAClass.
Proof.
  intros Hp Hn. unfold Documentation.nameToClass.
  destruct (Documentation.name2class d !! JS.ToString name); [done|].
  rewrite inherited_plain by done. by rewrite bool_decide_eq_false_2.
Qed.

(** [makeEntities] returns when no class is named [__proto__] and no
    method or property names its class by a name that the index object
    inherits from [Object.prototype]. *)
Lemma makeEntities_returns blocks errs g :
  let s := assemble_blocks blocks (assemble_start errs g) in
  no_prototype_class (doc s) →
  Forall (λ m, JS.ToString (MethodEntity.getClassName m)
               ∉ Documentation.object_members)
         (Documentation.methods (doc s)) →
  Forall (λ p, JS.ToString (PropertyEntity.getClassName p)
               ∉ Documentation.object_members)
         (Documentation.properties (doc s)) →
  ∃ d g', makeEntities blocks errs g = Ok (d, g').
Proof.
  intros s Hp Hm Hq. unfold makeEntities, assemble_finish. fold s.
  set (u := MkAsm (Documentation.update (doc s)) (lastClass s) (counters s)).
  assert (Hu : Documentation.name2class (doc u) !! "__proto__" = None)
    by (by apply index_no_prototype).
  destruct (attach_each_returns attach_method MethodEntity.getClassName
              (Documentation.methods (doc u)) u) as (v & Hv & Ev); [|done|done|].
  { intros s0 x H0 Hx. pose proof (lookup_plain (doc s0) _ H0 Hx) as Hn.
    unfold attach_method.
    destruct (Documentation.nameToClass _ _) as [[a|]|]; [|done|]; by eexists. }
  rewrite Hv.
  destruct (attach_each_carries _ _ _ _ attach_method_carries Hv) as (_ & Hprops & _).
  destruct (attach_each_returns attach_property PropertyEntity.getClassName
              (Documentation.properties (doc v)) v) as (w & Hw & _);
    [|by rewrite Ev|by rewrite Hprops|].
  { intros s0 x H0 Hx. pose proof (lookup_plain (doc s0) _ H0 Hx) as Hn.
    unfold attach_property.
    destruct (Documentation.nameToClass _ _) as [[a|]|]; [|done|]; by eexists. }
  rewrite Hw. by eexists _, _.
Qed.











Lemma on_answer_calls urls url a s :
  Loader.numLoaded (Loader.on_answer urls url a s) = S (Loader.numLoaded s)
  ∧ length (Loader.calls (Loader.on_answer urls url a s))
    ≤ length (Loader.calls s)
      + (if S (Loader.numLoaded s) =? length urls then 1 else 0).
Proof.
  unfold Loader.on_answer, Loader.callback_if_done.
  destruct a as [content|err].
  - destruct (parseBlocks _ _ _) as [[bs|e] st]; cbn [Loader.numLoaded].
    + destruct (S (Loader.numLoaded s) =? length urls); cbn; [|split; lia].
      rewrite length_app. cbn. split; lia.
    + cbn. split; lia.
  - cbn [Loader.numLoaded].
    destruct (S (Loader.numLoaded s) =? length urls); cbn; [|split; lia].
    rewrite length_app. cbn. split; lia.
Qed.

(** X24: [loadBlocks]: [numLoaded] counts the answers, and the callback is
    called at most once, and only if there is a url and as many answers
    as urls have come. *)
Theorem X24_callback_is_called_at_most_once urls answers g :
  let s := Loader.loadBlocks urls answers g in
  Loader.numLoaded s = length answers
  ∧ length (Loader.calls s)
    ≤ (if (1 <=? length urls) && (length urls <=? length answers) then 1 else 0).
Proof.
  cbv zeta. unfold Loader.loadBlocks.
  assert (H : ∀ s,
    length (Loader.calls s)
      ≤ (if (1 <=? length urls) && (length urls <=? Loader.numLoaded s) then 1 else 0) →
    let s' := fold_left (λ s ua, Loader.on_answer urls ua.1 ua.2 s) answers s in
    Loader.numLoaded s' = Loader.numLoaded s + length answers
    ∧ length (Loader.calls s')
      ≤ (if (1 <=? length urls)
            && (length urls <=? Loader.numLoaded s + length answers) then 1 else 0)).
  { induction answers as [|[u a] answers IH]; intros s Hs; cbn [fold_left length].
    - rewrite Nat.add_0_r. done.
    - destruct (on_answer_calls urls u a s) as [Hn Hc]. cbn [fst snd].
      destruct (IH (Loader.on_answer urls u a s)) as [IH1 IH2].
      + rewrite Hn. revert Hs Hc.
        destruct (Nat.leb_spec 1 (length urls)), (Nat.leb_spec (length urls) (Loader.numLoaded s)),
          (Nat.leb_spec (length urls) (S (Loader.numLoaded s))),
          (Nat.eqb_spec (S (Loader.numLoaded s)) (length urls)); cbn; lia.
      + rewrite IH1, Hn. split; [lia|].
        replace (Loader.numLoaded s + S (length answers))
          with (S (Loader.numLoaded s) + length answers) by lia.
        rewrite Hn in IH2. exact IH2. }
  apply (H (Loader.initial g)). cbn.
  destruct (1 <=? length urls) eqn:E; [|cbn; lia].
  apply Nat.leb_le in E. cbn.
  destruct (Nat.leb_spec (length urls) 0); lia.
Qed.

Lemma search_lit_absent ml L r n i bef aft :
  JS.indexOf_from i (JS.chars L) aft = None →
  search ml (Seq (lit L) r) n bef aft = None.
Proof.
  revert i bef. induction aft as [|a aft IH]; intros i bef; cbn [JS.indexOf_from search matcher].
  - rewrite lit_matcher. cbn [after]. by destruct (JS.is_prefix (JS.chars L) []).
  - rewrite lit_matcher. cbn [after].
    destruct (JS.is_prefix (JS.chars L) (a :: aft)); [done|]. apply IH.
Qed.

Lemma match_all_lit_absent L r ml s :
  JS.indexOf s L = None → match_all (RE (Seq (lit L) r) ml) s = [].
Proof.
  intros H. unfold match_all. cbn [match_all_go flag_m pattern].
  by rewrite (search_lit_absent _ _ _ _ 0).
Qed.

(** X25: [parseBlocks] on a text with neither [/**] nor [///]: no block, and
    nothing else changes. *)
Theorem X25_text_without_comment_gives_no_block src file st :
  JS.indexOf src "/**" = None → JS.indexOf src "///" = None →
  parseBlocks src file st = (Ok [], st).
Proof.
  intros H1 H2. unfold parseBlocks. cbv zeta.
  change BlockPat.multi with
    (RE (Seq (lit "/**")
             (seq [Chr JS.nl;
                   plus (Grp 1 (seq [Bol;
                                     star (Grp 2 (Seq Dot (NegLook (lit "*/"))));
                                     Chr JS.nl]));
                   star (Set_ false [CChar JS.nl; CSpace; CChar JS.tab]);
                   lit "*/"])) true).
  change BlockPat.oneLine with (RE (Seq (lit "///") (Grp 1 (star Dot))) false).
  rewrite !match_all_lit_absent by done. reflexivity.
Qed.

(** A line of code. *)
Lemma X25_text_without_comment_gives_no_block_witness :
  parseBlocks Samples.code_js "code.js" (MkPState initial_globals [])
  = (Ok [], MkPState initial_globals []).
Proof.
  apply (X25_text_without_comment_gives_no_block Samples.code_js "code.js"
                                             (MkPState initial_globals []));
    vm_compute; reflexivity.
Defined.

Lemma on_answer_keeps_reports urls url a s :
  errors (Loader.pstate s)
    `prefix_of` errors (Loader.pstate (Loader.on_answer urls url a s)).
Proof.
  unfold Loader.on_answer, Loader.callback_if_done. destruct a as [content|err].
  - destruct (parseBlocks_parse_time content url (Loader.pstate s))
      as (n & new & He & _).
    destruct (parseBlocks _ _ _) as [[bs|e] st]; cbn [snd] in He.
    + destruct (_ =? _); cbn [Loader.pstate]; rewrite He; by apply prefix_app_r.
    + cbn [Loader.pstate]. rewrite He. by apply prefix_app_r.
  - destruct (_ =? _); cbn [Loader.pstate errors]; by apply prefix_app_r.
Qed.

(** X26: [loadBlocks]: answers that come later leave the reports made so far
    in place. *)
Theorem X26_loading_keeps_earlier_reports urls answers more g :
  errors (Loader.pstate (Loader.loadBlocks urls answers g))
    `prefix_of` errors (Loader.pstate (Loader.loadBlocks urls (answers ++ more) g)).
Proof.
  unfold Loader.loadBlocks. rewrite fold_left_app.
  generalize (fold_left (λ s ua, Loader.on_answer urls ua.1 ua.2 s) answers
                        (Loader.initial g)).
  induction more as [|[u a] more IH]; intros s; cbn [fold_left]; [done|].
  etrans; [apply (on_answer_keeps_reports urls u a s)|apply IH].
Qed.

Lemma recurse_chain fuel d name nameList l :
  Documentation.recurseInheritance fuel d name nameList = Some (Ok l) →
  ∃ ch, l = nameList ++ name :: ch ∧ extends_chain d (name :: ch).
Proof.
  revert name nameList. induction fuel as [|fuel IH]; intros name nameList; [done|].
  cbn [Documentation.recurseInheritance].
  assert (Hstop : (∀ y, ¬ extends_to d name y) → extends_chain d [name]).
  { intros Hn. split.
    - intros i x y _ Hy. destruct i; discriminate Hy.
    - intros x y [= <-]. apply Hn. }
  destruct (Documentation.nameToClass d name) as [[a|]|] eqn:Ea; [|done|].
  2:{ intros [= <-]. exists []. split; [done|]. apply Hstop.
      intros y (a & c & Ha & _). congruence. }
  destruct (Documentation.class_at d a) as [c|] eqn:Ec.
  2:{ intros [= <-]. exists []. split; [done|]. apply Hstop.
      intros y (a' & c & Ha & Hc & _). congruence. }
  destruct (JS.truthy (ClassEntity.getExtendedClassName c)) eqn:Et; cbn [negb].
  2:{ intros [= <-]. exists []. split; [done|]. apply Hstop.
      intros y (a' & c' & Ha & Hc & He & Hy). congruence. }
  intros H. apply IH in H as (ch & -> & Hch1 & Hch2).
  exists (ClassEntity.getExtendedClassName c :: ch).
  rewrite <- app_assoc. split; [done|]. split.
  - intros [|i] x y Hx Hy.
    + cbn in Hx, Hy. injection Hx as <-. injection Hy as <-.
      exists a, c. done.
    + by apply (Hch1 i).
  - intros x y Hl. apply Hch2. exact Hl.
Qed.

(** X27: When [getInheritanceList] returns, the list starts with the name of
    the class, each name in it is that of an indexed class whose
    [@extends] names the next one, and the last name is that of no
    indexed class with a non-empty [@extends]. *)
Theorem X27_inheritance_list_follows_extends fuel d classs l :
  Documentation.getInheritanceList fuel d classs = Some (Ok l) →
  head l = Some (ClassEntity.getName classs) ∧ extends_chain d l.
Proof.
  unfold Documentation.getInheritanceList. intros H.
  apply recurse_chain in H as (ch & -> & Hch). done.
Qed.

(** The class [B] of [chain.js], which extends [A]. *)
Lemma X27_inheritance_list_follows_extends_witness :
  head [Some "B"; Some "A"] = Some (ClassEntity.getName CycleExample.class_B)
  ∧ extends_chain CycleExample.chain_doc [Some "B"; Some "A"].
Proof.
  apply (X27_inheritance_list_follows_extends 2 CycleExample.chain_doc CycleExample.class_B).
  vm_compute. reflexivity.
Defined.

(** ** Trimming *)

(** A list is a run of characters with [p] followed by a rest that
    does not start with one. *)
Lemma span_run (p : ascii → bool) l : ∃ w r, l = w ++ r ∧ run_of p w r.
Proof.
  induction l as [|a l (w & r & -> & Hw & Hr)].
  - exists [], []. split; [done|]. by split.
  - destruct (p a) eqn:E.
    + exists (a :: w), r. split; [done|]. split; [by constructor|done].
    + exists [], (a :: w ++ r). split; [done|]. by split.
Qed.

Lemma rspan_run (p : ascii → bool) l :
  ∃ r w, l = r ++ w ∧ Forall (λ a, p a = true) w
         ∧ match last r with Some a => p a = false | None => True end.
Proof.
  induction l as [|a l (r & w & -> & Hw & Hr)].
  - exists [], []. done.
  - destruct r as [|b r].
    + destruct (p a) eqn:E.
      * exists [], (a :: w). split; [done|]. split; [by constructor|done].
      * exists [a], w. split; [done|]. split; [done|]. exact E.
    + exists (a :: b :: r), w. split; [done|]. split; [done|]. exact Hr.
Qed.

Arguments at_bol : simpl never.
Arguments at_eol : simpl never.

Lemma at_bol_start ml aft cp : at_bol ml (MState [] aft cp) = true.
Proof. reflexivity. Qed.

Lemma at_bol_inside a bef aft cp : at_bol false (MState (a :: bef) aft cp) = false.
Proof. reflexivity. Qed.

Lemma at_eol_end ml bef cp : at_eol ml (MState bef [] cp) = true.
Proof. reflexivity. Qed.

Lemma search_bol_inside r n a bef aft :
  search false (Seq Bol r) n (a :: bef) aft = None.
Proof.
  revert a bef. induction aft as [|b aft IH]; intros a bef; cbn [search matcher].
  - by rewrite at_bol_inside.
  - rewrite at_bol_inside. apply IH.
Qed.

Lemma remove_leading w r :
  run_of (set_has false [CSpace]) w r →
  remove_first Util.leading_space (JS.str (w ++ r)) = JS.str r
  ∧ remove_first Util.leading_spaces (JS.str (w ++ r)) = JS.str r.
Proof.
  intros Hrun. unfold remove_first, Util.leading_space, Util.leading_spaces.
  cbn [flag_m pattern seq]. unfold ncaps. cbn [pattern groups app list_max fold_right].
  rewrite chars_str.
  destruct w as [|a w].
  - (* nothing to remove *)
    cbn [app]. destruct Hrun as [_ Hr].
    destruct r as [|b r]; cbn; rewrite ?at_bol_start.
    + rewrite repeat_matcher_unfold. cbn. done.
    + rewrite set_has_space in Hr. rewrite Hr. cbn [orb].
      rewrite search_bol_inside. split; [done|].
      rewrite repeat_matcher_unfold. cbn. rewrite Hr. cbn.
      by rewrite search_bol_inside.
  - destruct Hrun as [Hw Hr]. apply Forall_cons in Hw as [Ha Hw].
    split.
    + erewrite search_here.
      2:{ cbn. rewrite at_bol_start. rewrite set_has_space in Ha. rewrite Ha. cbn [orb].
          eapply (star_run _ _ (step_is_step1 _) w r); [reflexivity|by split| |reflexivity].
          rewrite length_app. lia. }
      cbn [before after rev app]. done.
    + erewrite search_here.
      2:{ cbn. rewrite at_bol_start.
          eapply (plus_run _ _ (step_is_step1 _) (a :: w) r);
            [reflexivity|split; [by constructor|done]|done| |reflexivity].
          cbn. rewrite length_app. lia. }
      cbn [before after rev app]. done.
Qed.

Lemma eol_fails bef l1 l2 cp :
  l2 ≠ [] →
  (if at_eol false (MState bef (l1 ++ l2) cp) then Some (MState bef (l1 ++ l2) cp) else None)
  = None.
Proof.
  intros H. unfold at_eol. cbn [after]. destruct (l1 ++ l2) eqn:E; [|done].
  by apply app_eq_nil in E as [_ ->].
Qed.

Lemma trailing_fails_inside bef aft cp a0 :
  a0 ∈ aft → is_space a0 = false →
  matcher false (Seq space (Seq (star space) Eol)) (MState bef aft cp) Some = None
  ∧ matcher false (Seq (plus space) Eol) (MState bef aft cp) Some = None.
Proof.
  intros Hin Ha0.
  destruct (span_run (set_has false [CSpace]) aft) as (u & rest & -> & Hrun).
  assert (Hrest : rest ≠ []).
  { intros ->. rewrite app_nil_r in Hin. destruct Hrun as [Hu _].
    eapply Forall_forall in Hu; [|exact Hin].
    rewrite set_has_space in Hu. congruence. }
  split.
  - destruct u as [|a u].
    + cbn [app]. destruct rest as [|b rest]; [done|].
      destruct Hrun as [_ Hb]. cbn [matcher]. unfold space at 1. cbn [matcher].
      unfold step1 at 1. cbn [after]. by rewrite Hb.
    + destruct Hrun as [Hu Hr]. apply Forall_cons in Hu as [Ha Hu].
      cbn [matcher app]. unfold space at 1. cbn [matcher].
      unfold step1 at 1. cbn [after before caps]. rewrite Ha.
      unfold star. cbn [matcher].
      apply (star_none _ _ (step_is_step1 _)); [by split|].
      intros k _. cbn [matcher]. by apply eol_fails.
  - cbn [matcher]. unfold plus. cbn [matcher].
    apply (plus_none _ _ (step_is_step1 _)); [done|].
    intros k _. by apply eol_fails.
Qed.

Lemma trailing_search n bef r w :
  Forall (λ a, is_space a = true) w →
  match last r with Some a => is_space a = false | None => True end →
  let found :=
    match w with
    | [] => None
    | _ :: _ => Some (MState (rev r ++ bef) w (replicate n None),
                      MState (rev w ++ rev r ++ bef) [] (replicate n None))
    end in
  search false (Seq space (Seq (star space) Eol)) n bef (r ++ w) = found
  ∧ search false (Seq (plus space) Eol) n bef (r ++ w) = found.
Proof.
  intros Hw. revert bef. induction r as [|c r IH]; intros bef Hlast; cbv zeta.
  - cbn [app rev]. destruct w as [|a w].
    + cbn. rewrite repeat_matcher_unfold. cbn. done.
    + apply Forall_cons in Hw as [Ha Hw]. split.
      * apply search_here. cbn. rewrite Ha. cbn [orb].
        eapply (star_run _ _ (step_is_step1 _) w []);
          [by rewrite app_nil_r| |lia|].
        { split; [|done]. eapply Forall_impl; [exact Hw|].
          intros x Hx. by rewrite set_has_space. }
        cbn. rewrite at_eol_end. by rewrite <- app_assoc.
      * apply search_here. cbn.
        eapply (plus_run _ _ (step_is_step1 _) (a :: w) []);
          [by rewrite app_nil_r| |done|cbn; lia|].
        { split; [|done]. constructor; [by rewrite set_has_space|].
          eapply Forall_impl; [exact Hw|]. intros x Hx. by rewrite set_has_space. }
        cbn. rewrite at_eol_end. by rewrite <- !app_assoc.
  - assert (Hex : ∃ a0, a0 ∈ (c :: r) ++ w ∧ is_space a0 = false).
    { destruct (last (c :: r)) as [a0|] eqn:E; [|by apply last_None in E].
      exists a0. split; [|done]. apply elem_of_app. left.
      apply last_Some in E as (l' & ->). apply elem_of_app. right. by left. }
    destruct Hex as (a0 & Hin & Ha0).
    destruct (IH (c :: bef)) as [IH1 IH2].
    { destruct r as [|b r]; [done|exact Hlast]. }
    cbn [app rev] in *. cbn [search].
    destruct (trailing_fails_inside bef (c :: r ++ w) (replicate n None) a0 Hin Ha0)
      as [-> ->].
    rewrite IH1, IH2. rewrite <- !app_assoc. done.
Qed.

Lemma remove_trailing r w :
  Forall (λ a, is_space a = true) w →
  match last r with Some a => is_space a = false | None => True end →
  remove_first Util.trailing_space (JS.str (r ++ w)) = JS.str r
  ∧ remove_first Util.trailing_spaces (JS.str (r ++ w)) = JS.str r.
Proof.
  intros Hw Hr. unfold remove_first.
  change (search (flag_m Util.trailing_space) (pattern Util.trailing_space)
                 (ncaps Util.trailing_space))
    with (search false (Seq space (Seq (star space) Eol)) 0).
  change (search (flag_m Util.trailing_spaces) (pattern Util.trailing_spaces)
                 (ncaps Util.trailing_spaces))
    with (search false (Seq (plus space) Eol) 0).
  rewrite chars_str.
  destruct (trailing_search 0 [] r w Hw Hr) as [-> ->].
  destruct w as [|a w].
  - by rewrite app_nil_r.
  - cbn [before after]. by rewrite !app_nil_r, rev_involutive.
Qed.

(** X28: [ltrim] takes off the white space at the start, [rtrim] at the end,
    [trim] both: what is taken off is white space only, the rest is left
    as it is, and the result has no white space at that end. *)
Theorem X28_trim_takes_the_white_space_off s :
  (∃ w, JS.chars s = w ++ JS.chars (Util.ltrim s)
        ∧ Forall (λ a, is_space a = true) w
        ∧ match JS.chars (Util.ltrim s) with
          | [] => True | a :: _ => is_space a = false end)
  ∧ (∃ w, JS.chars s = JS.chars (Util.rtrim s) ++ w
          ∧ Forall (λ a, is_space a = true) w
          ∧ match last (JS.chars (Util.rtrim s)) with
            | Some a => is_space a = false | None => True end)
  ∧ (∃ w1 w2, JS.chars s = w1 ++ JS.chars (Util.trim s) ++ w2
              ∧ Forall (λ a, is_space a = true) w1
              ∧ Forall (λ a, is_space a = true) w2
              ∧ trimmed (JS.chars (Util.trim s))).
Proof.
  destruct (span_run (set_has false [CSpace]) (JS.chars s)) as (w1 & r1 & E1 & Hrun).
  assert (Hw1 : Forall (λ a, is_space a = true) w1).
  { destruct Hrun as [H _]. eapply Forall_impl; [exact H|].
    intros a Ha. rewrite <- (set_has_space a). exact Ha. }
  assert (Hr1 : match r1 with [] => True | a :: _ => is_space a = false end).
  { destruct Hrun as [_ H]. destruct r1 as [|a r1]; [done|].
    rewrite <- (set_has_space a). exact H. }
  destruct (remove_leading w1 r1 Hrun) as [L1 L2].
  rewrite <- E1, str_chars in L1, L2.
  split; [|split].
  - exists w1. unfold Util.ltrim. rewrite L2, chars_str. done.
  - destruct (rspan_run is_space (JS.chars s)) as (r & w & E & Hw & Hr).
    destruct (remove_trailing r w Hw Hr) as [_ T]. rewrite <- E, str_chars in T.
    exists w. unfold Util.rtrim. rewrite T, chars_str. done.
  - destruct (rspan_run is_space r1) as (r & w2 & E & Hw & Hr).
    destruct (remove_trailing r w2 Hw Hr) as [T _]. rewrite <- E in T.
    exists w1, w2. unfold Util.trim. rewrite L1, T, chars_str.
    split; [by rewrite <- E|]. split; [done|]. split; [done|]. split; [|done].
    destruct r as [|a r]; [done|]. rewrite E in Hr1. exact Hr1.
Qed.

(** ** Anchors *)

Section ClassPlus.
Variable ml : bool.
Variable neg : bool.
Variable items : list cls_item.

Lemma class_plus_consumes x y :
  matcher ml (plus (Set_ neg items)) x Some = Some y →
  ∃ a l, after x = a :: l ++ after y ∧ set_has neg items a = true.
Proof.
  unfold plus. cbn [matcher]. rewrite repeat_matcher_unfold.
  cbn [Nat.eqb clear_caps fold_right groups]. unfold step1 at 1.
  destruct (after x) as [|a rest] eqn:E; [done|].
  destruct (set_has neg items a) eqn:Ea; [|done].
  cbn [andb]. intros H.
  apply (repeat_matcher_sound _ _ _ _ _ (step1_sound _)) in H as (y' & (l & H1 & H2) & [= <-]).
  cbn [after] in H1. exists a, l. by rewrite H1.
Qed.

Lemma class_plus_matches bef a aft cp :
  set_has neg items a = true → ∃ y, matcher ml (plus (Set_ neg items)) (MState bef (a :: aft) cp) Some = Some y.
Proof.
  intros Ha. destruct (span_run (set_has neg items) (a :: aft)) as (w & rest & E & Hrun).
  rewrite E. eexists. unfold plus. cbn [matcher].
  eapply (plus_run _ _ (step_is_step1 _) w rest); [reflexivity|exact Hrun| | |reflexivity].
  - intros ->. cbn in E. subst rest. destruct Hrun as [_ H]. congruence.
  - cbn [after]. rewrite length_app. lia.
Qed.

Lemma class_search_none n bef aft :
  search ml (plus (Set_ neg items)) n bef aft = None → Forall (λ c, set_has neg items c = false) aft.
Proof.
  revert bef. induction aft as [|a aft IH]; intros bef; [constructor|].
  cbn [search]. destruct (matcher _ _ _ _) eqn:E; [done|].
  intros H. constructor; [|by eapply IH].
  destruct (set_has neg items a) eqn:Ea; [|done].
  destruct (class_plus_matches bef a aft (replicate n None) Ea) as (y & Hy). congruence.
Qed.

Lemma class_search_some n bef aft x y :
  search ml (plus (Set_ neg items)) n bef aft = Some (x, y) →
  ∃ sk a l, aft = sk ++ a :: l ++ after y
            ∧ after x = a :: l ++ after y
            ∧ Forall (λ c, set_has neg items c = false) sk.
Proof.
  revert bef. induction aft as [|a aft IH]; intros bef; cbn [search].
  - destruct (matcher _ _ _ _) eqn:E; [|done]. intros [= <- <-].
    apply class_plus_consumes in E as (a & l & E & _). cbn [after] in E. done.
  - destruct (matcher _ _ _ _) eqn:E.
    + intros [= <- <-]. apply class_plus_consumes in E as (a' & l & E & _).
      cbn [after] in E. exists [], a', l. by rewrite E.
    + intros H. apply IH in H as (sk & a' & l & -> & Hx & Hsk).
      exists (a :: sk), a', l. split; [done|]. split; [done|].
      constructor; [|done]. destruct (set_has neg items a) eqn:Ea; [|done].
      destruct (class_plus_matches bef a (sk ++ a' :: l ++ after y) (replicate n None) Ea)
        as (y' & Hy). congruence.
Qed.

Lemma replace_class_out fuel by_ bef aft c :
  length aft < fuel →
  c ∈ Util.replace_all_go fuel (RE (plus (Set_ neg items)) ml) by_ bef aft →
  c ∈ by_ ∨ (c ∈ aft ∧ set_has neg items c = false).
Proof.
  revert bef aft. induction fuel as [|fuel IH]; intros bef aft Hf; [lia|].
  cbn [Util.replace_all_go flag_m pattern].
  destruct (search _ _ _ _ _) as [[x y]|] eqn:E.
  - apply class_search_some in E as (sk & a & l & -> & Hx & Hsk).
    rewrite Hx. unfold consumed. rewrite Hx.
    replace (length (a :: l ++ after y) - length (after y)) with (S (length l))
      by (cbn; rewrite length_app; lia).
    cbn [take]. rewrite length_app.
    replace (length sk + length (a :: l ++ after y) - length (a :: l ++ after y))
      with (length sk) by lia.
    rewrite take_app_length.
    rewrite !elem_of_app. intros [Hc|[Hc|Hc]].
    + right. split; [by left|]. by eapply Forall_forall in Hsk.
    + by left.
    + assert (Hlen : length (after y) < fuel).
      { rewrite length_app in Hf. cbn in Hf. rewrite length_app in Hf. lia. }
      destruct (IH _ _ Hlen Hc) as [Hc'|[Hc' Hp]]; [by left|].
      right. split; [|done].
      rewrite elem_of_cons, elem_of_app. auto.
  - intros Hc. right. split; [done|].
    apply class_search_none in E. by eapply Forall_forall in E.
Qed.
End ClassPlus.

Lemma replace_all_out ml neg items by_ s c :
  c ∈ JS.chars (Util.replace_all (RE (plus (Set_ neg items)) ml) by_ s) →
  c ∈ JS.chars by_ ∨ (c ∈ JS.chars s ∧ set_has neg items c = false).
Proof.
  unfold Util.replace_all. rewrite chars_str.
  apply replace_class_out. rewrite String_length_chars. lia.
Qed.

Lemma remove_first_subset re s c :
  c ∈ JS.chars (remove_first re s) → c ∈ JS.chars s.
Proof.
  intros H. destruct (decide (c ∈ JS.chars s)) as [|Hn]; [done|].
  by apply (remove_first_absent c re) in Hn.
Qed.

Lemma nice_lower c :
  set_has true (Util.range "a" "z" ++ Util.range "A" "Z" ++ Util.range "0" "9"
                ++ [CChar "/"; CChar "_"; CChar "|"; CChar "+"; CChar " "; CChar "-"]) c
  = false →
  low (Util.lower_char c) = true.
Proof.
  destruct c as [[] [] [] [] [] [] [] []]; vm_compute; intros H;
    first [reflexivity | discriminate H].
Qed.

Lemma low_not_separator c :
  low c = true →
  set_has false [CChar "/"; CChar "_"; CChar "|"; CChar "+"; CChar " "; CChar "-"] c
  = false →
  anchor_char c = true.
Proof.
  unfold low. intros H1 H2. rewrite H2, orb_false_r in H1. exact H1.
Qed.

(** X29: [toNice] gives small letters, digits and hyphens only, whatever the
    name. *)
Theorem X29_toNice_gives_anchor_characters s :
  Forall (λ c, anchor_char c = true) (JS.chars (Util.toNice s)).
Proof.
  apply Forall_forall. intros c Hc. unfold Util.toNice in Hc. cbv zeta in Hc.
  apply replace_all_out in Hc as [Hc|[Hc Hsep]].
  { apply list_elem_of_singleton in Hc. by subst c. }
  apply low_not_separator; [|exact Hsep]. clear Hsep.
  apply replace_all_out in Hc as [Hc|[Hc _]].
  { apply list_elem_of_singleton in Hc. by subst c. }
  apply replace_all_out in Hc as [Hc|[Hc _]].
  { apply list_elem_of_singleton in Hc. by subst c. }
  unfold Util.trim in Hc. do 2 apply remove_first_subset in Hc.
  unfold Util.toLowerCase in Hc. rewrite chars_str in Hc.
  apply list_elem_of_fmap in Hc as (c0 & -> & Hc).
  apply nice_lower.
  apply replace_all_out in Hc as [Hc|[_ Hc]]; [by apply elem_of_nil in Hc|exact Hc].
Qed.

